(** * AGAR: lattice construction from a unit-cell template

    A shallow embedding of [Cell.py], [Lattice.py] and [LammpsDataWriter.py].

    - numpy's float64 arithmetic is IEEE binary64: coordinates are primitive
      floats, so the model runs on the same values as the program.
    - numpy's integer vectors (cell indices, cell crossings) are triples of
      [Z]; the int64 wrap-around is not modelled, so the model agrees with
      the program while every index, crossing and count converted to a
      float stays within the int64 range.
    - [Atom] objects are shared between [full_atom_list] and [vector_list]
      and mutated in place ([bonds]): the objects live in an arena ([heap])
      and the two lists hold references into it. Two references are the
      same object when they are the same index, which is Python's [==] on
      [Atom] objects.
    - Methods that mutate [self] are computations in a state-and-exception
      monad which also records the state after every mutation.
    - The two loops of [_prune_vectors] run on fuel computed from the state;
      [prune_vectors_fuel] shows that it never runs out. *)

From Stdlib Require Import ZArith Floats Strings.String DecimalString.
From stdpp Require Import base option list relations.

Local Open Scope Z_scope.

(** ** Numbers and vectors (numpy) *)

Abbreviation vec3 := (float * float * float)%type.
Abbreviation ivec3 := (Z * Z * Z)%type.

(** Conversion of an integer to float64, as numpy does when an integer
    operand meets a float array. *)
Definition float_of_Z (z : Z) : float :=
  if z <? 0 then PrimFloat.opp (PrimFloat.of_uint63 (Uint63.of_Z (- z)))
  else PrimFloat.of_uint63 (Uint63.of_Z z).

Definition vmap (f : float → float) (v : vec3) : vec3 :=
  let '(x, y, z) := v in (f x, f y, f z).

Definition vzip (f : float → float → float) (u v : vec3) : vec3 :=
  let '(x, y, z) := u in let '(a, b, c) := v in (f x a, f y b, f z c).

Definition ivec_to_vec (c : ivec3) : vec3 :=
  let '(x, y, z) := c in (float_of_Z x, float_of_Z y, float_of_Z z).

(** [np.add], [np.subtract], [np.multiply] on two float vectors. *)
Definition np_add : vec3 → vec3 → vec3 := vzip PrimFloat.add.
Definition np_subtract : vec3 → vec3 → vec3 := vzip PrimFloat.sub.
Definition np_multiply : vec3 → vec3 → vec3 := vzip PrimFloat.mul.

(** [np.multiply(v, k)] and [v / k] with a scalar [k]. *)
Definition np_scale (v : vec3) (k : float) : vec3 := vmap (λ x, PrimFloat.mul x k) v.
Definition np_divide (v : vec3) (k : float) : vec3 := vmap (λ x, PrimFloat.div x k) v.

Definition np_square (v : vec3) : vec3 := vmap (λ x, PrimFloat.mul x x) v.

(** [np.sum] of three elements adds them left to right. *)
Definition np_sum (v : vec3) : float :=
  let '(x, y, z) := v in PrimFloat.add (PrimFloat.add x y) z.

(** The same operations on integer vectors. *)
Definition iv_add (u v : ivec3) : ivec3 :=
  let '(x, y, z) := u in let '(a, b, c) := v in (x + a, y + b, z + c).
Definition iv_subtract (u v : ivec3) : ivec3 :=
  let '(x, y, z) := u in let '(a, b, c) := v in (x - a, y - b, z - c).
Definition iv_scale (u : ivec3) (k : Z) : ivec3 :=
  let '(x, y, z) := u in (x * k, y * k, z * k).

Definition iv_eqb (u v : ivec3) : bool :=
  let '(x, y, z) := u in let '(a, b, c) := v in (x =? a) && (y =? b) && (z =? c).

(** Python exceptions the modelled code can raise. *)
Inductive exn : Type :=
  | StopIteration
  | ValueError
  | OverflowError
  | UnboundLocalError
  | AttributeError.

(** [int(np.floor(f))]: the floor of a finite float; [int] raises
    [ValueError] on a NaN and [OverflowError] on an infinity. *)
Definition int_floor (f : float) : exn + Z :=
  match Prim2SF f with
  | S754_zero _ => inr 0
  | S754_finite s m e =>
      let q := if 0 <=? e then Z.pos m * 2 ^ e else Z.pos m / 2 ^ (- e) in
      let exact := if 0 <=? e then true else Z.pos m mod 2 ^ (- e) =? 0 in
      inr (if s then (if exact then - q else - q - 1) else q)
  | S754_infinity _ => inl OverflowError
  | S754_nan => inl ValueError
  end.

(** ** Cell.py: the template *)

Record Point : Type := { point_id : Z; coords : vec3 }.

Record Connection : Type :=
  { origin : Z; partner : Z; cell_crossings : ivec3 }.

Record Cell : Type :=
  { points : list Point; connections : list Connection; dims : vec3 }.

(** ** Lattice.py: atoms, bonds and the builder's state *)

Record Atom : Type :=
  { id : Z;
    position : vec3;
    point_type : option Z;
    owning_cell : option ivec3;
    bonds : Z }.

Record Bond : Type := { bond_id : Z; point1 : Z; point2 : Z }.

(** A reference to an [Atom] object: its index in the arena. *)
Abbreviation ref := nat (only parsing).

(** An element of [vector_list]: [dict(origin = ..., partner = ...)]. *)
Definition pair_origin (c : ref * ref) : ref := fst c.
Definition pair_partner (c : ref * ref) : ref := snd c.

(** The fields of a [Lattice] that [build_lists] and its helpers write. *)
Record Lattice : Type :=
  { heap : list Atom;
    full_atom_list : list ref;
    vector_list : list (ref * ref);
    full_bond_list : list Bond;
    atom_count : Z;
    bond_count : Z }.

#[global] Instance Atom_inhabited : Inhabited Atom :=
  populate {| id := 0; position := (0, 0, 0)%float; point_type := None;
              owning_cell := None; bonds := 0 |}.

(** The atom a reference points to. *)
Definition deref (st : Lattice) (r : ref) : Atom := heap st !!! r.

(** The atoms of [full_atom_list], in order: what a consumer of the list
    reads. *)
Definition atoms (st : Lattice) : list Atom := deref st <$> full_atom_list st.

(** ** The monad: state, exceptions, and the trace of written states *)

Inductive outcome (A : Type) : Type :=
  | Ok (a : A) (st : Lattice)
  | Raise (e : exn) (st : Lattice)
  | OutOfFuel.
Arguments Ok {A} a st.
Arguments Raise {A} e st.
Arguments OutOfFuel {A}.

Definition M (A : Type) : Type := Lattice → list Lattice * outcome A.

#[global] Instance M_ret : MRet M := λ A a st, ([], Ok a st).

#[global] Instance M_bind : MBind M := λ A B k m st,
  match m st with
  | (t, Ok a st') => let '(t', r) := k a st' in (t ++ t', r)
  | (t, Raise e st') => (t, Raise e st')
  | (t, OutOfFuel) => (t, OutOfFuel)
  end.

Definition get : M Lattice := λ st, ([], Ok st st).
Definition put (st' : Lattice) : M unit := λ _, ([st'], Ok tt st').
Definition raise {A} (e : exn) : M A := λ st, ([], Raise e st).
Definition out_of_fuel {A} : M A := λ st, ([], OutOfFuel).

(** The outcome of a computation, and the states it went through. *)
Definition exec {A} (m : M A) (st : Lattice) : outcome A := snd (m st).
Definition trace {A} (m : M A) (st : Lattice) : list Lattice := fst (m st).

(** [for x in l: body x] *)
Fixpoint for_each {A} (l : list A) (body : A → M unit) : M unit :=
  match l with
  | [] => mret tt
  | x :: l' => body x ;; for_each l' body
  end.

(** A [for] loop that carries the value of a local variable. *)
Fixpoint for_fold {A B} (l : list A) (b : B) (body : B → A → M B) : M B :=
  match l with
  | [] => mret b
  | x :: l' => b' ← body b x; for_fold l' b' body
  end.

(** ** Helpers shared by the methods *)

(** [range(n)] *)
Definition range (n : Z) : list Z := Z.of_nat <$> seq 0 (Z.to_nat n).

(** [list(product(xs, ys, zs))] *)
Definition product (xs ys zs : list Z) : list ivec3 :=
  flat_map (λ x, flat_map (λ y, map (λ z, (x, y, z)) zs) ys) xs.

(** [c in cells], on tuples of integers. *)
Definition cell_in (c : ivec3) (cells : list ivec3) : bool :=
  existsb (iv_eqb c) cells.

(** [atom.point_type == pt and atom.owning_cell == c]: [None] equals
    neither an integer nor a tuple. *)
Definition is_atom_of (pt : Z) (c : ivec3) (atom : Atom) : bool :=
  match point_type atom, owning_cell atom with
  | Some t, Some oc => (t =? pt) && iv_eqb oc c
  | _, _ => false
  end.

Definition pair_eqb (c d : ref * ref) : bool :=
  (fst c =? fst d)%nat && (snd c =? snd d)%nat.

(** [l.remove(x)]: drops the first element equal to [x]; [None] stands for
    the [ValueError] of a list without [x]. *)
Fixpoint list_remove {A} (eqb : A → A → bool) (x : A) (l : list A) : option (list A) :=
  match l with
  | [] => None
  | y :: l' => if eqb y x then Some l' else cons y <$> list_remove eqb x l'
  end.

Definition set_heap (h : list Atom) (st : Lattice) : Lattice :=
  {| heap := h; full_atom_list := full_atom_list st; vector_list := vector_list st;
     full_bond_list := full_bond_list st; atom_count := atom_count st;
     bond_count := bond_count st |}.
Definition set_full_atom_list (l : list ref) (st : Lattice) : Lattice :=
  {| heap := heap st; full_atom_list := l; vector_list := vector_list st;
     full_bond_list := full_bond_list st; atom_count := atom_count st;
     bond_count := bond_count st |}.
Definition set_vector_list (l : list (ref * ref)) (st : Lattice) : Lattice :=
  {| heap := heap st; full_atom_list := full_atom_list st; vector_list := l;
     full_bond_list := full_bond_list st; atom_count := atom_count st;
     bond_count := bond_count st |}.
Definition set_full_bond_list (l : list Bond) (st : Lattice) : Lattice :=
  {| heap := heap st; full_atom_list := full_atom_list st; vector_list := vector_list st;
     full_bond_list := l; atom_count := atom_count st; bond_count := bond_count st |}.
Definition set_atom_count (n : Z) (st : Lattice) : Lattice :=
  {| heap := heap st; full_atom_list := full_atom_list st; vector_list := vector_list st;
     full_bond_list := full_bond_list st; atom_count := n; bond_count := bond_count st |}.
Definition set_bond_count (n : Z) (st : Lattice) : Lattice :=
  {| heap := heap st; full_atom_list := full_atom_list st; vector_list := vector_list st;
     full_bond_list := full_bond_list st; atom_count := atom_count st; bond_count := n |}.

Definition add_to_bonds (d : Z) (a : Atom) : Atom :=
  {| id := id a; position := position a; point_type := point_type a;
     owning_cell := owning_cell a; bonds := bonds a + d |}.

(** [Atom(atom_id, position, point_type, owning_cell)]: a new object. *)
Definition new_Atom (atom_id : Z) (pos : vec3) (pt : option Z) (oc : option ivec3) : M ref :=
  st ← get;
  put (set_heap (heap st ++ [ {| id := atom_id; position := pos; point_type := pt;
                                 owning_cell := oc; bonds := 0 |} ]) st) ;;
  mret (length (heap st)).

(** [self.atom_count += 1] *)
Definition incr_atom_count : M unit :=
  st ← get; put (set_atom_count (atom_count st + 1) st).

(** [self.bond_count += 1] *)
Definition incr_bond_count : M unit :=
  st ← get; put (set_bond_count (bond_count st + 1) st).

(** [self.full_atom_list.append(atom)] *)
Definition full_atom_list_append (r : ref) : M unit :=
  st ← get; put (set_full_atom_list (full_atom_list st ++ [r]) st).

(** [self.atom_count += 1]
    [self.full_atom_list.append(Atom(self.atom_count, pos, pt, oc))] *)
Definition append_new_atom (pos : vec3) (pt : option Z) (oc : option ivec3) : M ref :=
  incr_atom_count ;;
  st ← get;
  r ← new_Atom (atom_count st) pos pt oc;
  full_atom_list_append r ;;
  mret r.

(** [atom.bonds += d] *)
Definition add_bonds (r : ref) (d : Z) : M unit :=
  st ← get; put (set_heap (alter (add_to_bonds d) r (heap st)) st).

(** [next((atom for atom in self.full_atom_list if test(atom)), None)] *)
Definition next_atom (test : Atom → bool) : M (option ref) :=
  st ← get; mret (List.find (λ r, test (deref st r)) (full_atom_list st)).

(** [self.vector_list.remove(connection)]: dicts are equal when they hold
    the same two objects. *)
Definition vector_list_remove (connection : ref * ref) : M unit :=
  st ← get;
  match list_remove pair_eqb connection (vector_list st) with
  | Some l => put (set_vector_list l st)
  | None => raise ValueError
  end.

(** [self.full_atom_list.remove(atom)] *)
Definition full_atom_list_remove (r : ref) : M unit :=
  st ← get;
  match list_remove Nat.eqb r (full_atom_list st) with
  | Some l => put (set_full_atom_list l st)
  | None => raise ValueError
  end.

(** [self.float_safety = 1E-6], the float64 nearest to it. *)
Definition float_safety : float := 0x1.0c6f7a0b5ed8dp-20%float.

(** ** Lattice.build_lists and its helpers

    The fields of [self] that the build only reads are the variables of the
    section. *)
Section Build.
Variable lattice_size : ivec3.
Variable base_point_list : list Point.
Variable base_connection_list : list Connection.
Variable cell_dims : vec3.
Variables dangling symmetric prune : bool.

Definition cell_list : list ivec3 :=
  let '(nx, ny, nz) := lattice_size in product (range nx) (range ny) (range nz).

(** [next(item.coords for item in self.base_point_list if item.point_id == pid)]
    has no default: an absent id raises [StopIteration]. *)
Definition next_coords (pid : Z) : M vec3 :=
  match List.find (λ item, point_id item =? pid) base_point_list with
  | Some item => mret (coords item)
  | None => raise StopIteration
  end.

(** Lines 91-94: one atom per template point. *)
Definition replicate_points (current_cell : ivec3) : M unit :=
  let current_cell_origin := np_multiply (ivec_to_vec current_cell) cell_dims in
  for_each base_point_list (λ point,
    append_new_atom (np_add current_cell_origin (coords point))
                    (Some (point_id point)) (Some current_cell) ;;
    mret tt).

(** Lines 98-126: the body of the loop over the connections of one cell;
    [mirrored_bond_list] is the local list of dicts
    [dict(connection = ..., origin_cell = ...)]. *)
Definition discover_boundary (current_cell : ivec3)
    (mirrored_bond_list : list (Connection * ivec3)) (connection : Connection)
    : M (list (Connection * ivec3)) :=
  let target_cell := iv_add current_cell (cell_crossings connection) in
  let target_cell_origin := np_multiply (ivec_to_vec target_cell) cell_dims in
  (if negb (cell_in target_cell cell_list) then
     partner_coords ← next_coords (partner connection);
     atom_check ← next_atom (is_atom_of (partner connection) target_cell);
     match atom_check with
     | None =>
         append_new_atom (np_add target_cell_origin partner_coords)
                         (Some (partner connection)) (Some target_cell) ;;
         mret tt
     | Some _ => mret tt
     end
   else mret tt) ;;
  if symmetric then
    let mirrored_target_cell := iv_subtract current_cell (cell_crossings connection) in
    if negb (cell_in mirrored_target_cell cell_list) then
      let mirrored_cell_origin := np_multiply (ivec_to_vec mirrored_target_cell) cell_dims in
      pseudo_origin_coords ← next_coords (origin connection);
      atom_check ← next_atom (is_atom_of (origin connection) mirrored_target_cell);
      match atom_check with
      | None =>
          append_new_atom (np_add mirrored_cell_origin pseudo_origin_coords)
                          (Some (origin connection)) (Some mirrored_target_cell) ;;
          mret tt
      | Some _ => mret tt
      end ;;
      mret (mirrored_bond_list ++
              [ ({| origin := partner connection; partner := origin connection;
                    cell_crossings := iv_scale (cell_crossings connection) (-1) |},
                 current_cell) ])
    else mret mirrored_bond_list
  else mret mirrored_bond_list.

(** Lines 88-126: the first pass over one cell. *)
Definition phase1_cell (mirrored_bond_list : list (Connection * ivec3))
    (current_cell : ivec3) : M (list (Connection * ivec3)) :=
  replicate_points current_cell ;;
  if dangling then
    for_fold base_connection_list mirrored_bond_list (discover_boundary current_cell)
  else mret mirrored_bond_list.

(** Lines 87-126; the result is [mirrored_bond_list]. *)
Definition phase1 : M (list (Connection * ivec3)) :=
  for_fold cell_list [] phase1_cell.

(** Lines 133-142: one connection of one cell. *)
Definition resolve_connection (current_cell : ivec3) (connection : Connection) : M unit :=
  origin_atom ← next_atom (is_atom_of (origin connection) current_cell);
  partner_atom ← next_atom (is_atom_of (partner connection)
                              (iv_add current_cell (cell_crossings connection)));
  match origin_atom, partner_atom with
  | Some o, Some p =>
      add_bonds o 1 ;;
      add_bonds p 1 ;;
      st ← get;
      put (set_vector_list (vector_list st ++ [(o, p)]) st)
  | _, _ => mret tt
  end.

(** Lines 129-142: the second pass over one cell. *)
Definition phase2_cell (mirrored_bond_list : list (Connection * ivec3))
    (current_cell : ivec3) : M unit :=
  let dangling_bonds :=
    fst <$> List.filter (λ item, iv_eqb (snd item) current_cell) mirrored_bond_list in
  let connections := base_connection_list ++ dangling_bonds in
  for_each connections (resolve_connection current_cell).

Definition phase2 (mirrored_bond_list : list (Connection * ivec3)) : M unit :=
  for_each cell_list (phase2_cell mirrored_bond_list).

(** Lines 160-174: the body of the loop of [_populate_vector]; [new_atom]
    is the local variable, unbound until the first filler atom is made. *)
Definition populate_segment (atoms : ref * ref) (vector_length : Z) (step : vec3)
    (new_atom : option ref) (i : Z) : M (option ref) :=
  '(new_atom, bond_origin) ←
    (if i <? vector_length - 1 then
       st ← get;
       r ← append_new_atom
             (np_add (position (deref st (pair_origin atoms)))
                     (np_scale step (float_of_Z (i + 1)))) None None;
       st ← get;
       mret (Some r, id (deref st r))
     else
       st ← get;
       mret (new_atom, id (deref st (pair_partner atoms))));
  bond_partner ←
    (if i =? 0 then
       st ← get; mret (id (deref st (pair_origin atoms)))
     else
       match new_atom with
       | None => raise UnboundLocalError
       | Some r =>
           st ← get;
           mret (if i <? vector_length - 1 then id (deref st r) - 1 else id (deref st r))
       end);
  incr_bond_count ;;
  st ← get;
  put (set_full_bond_list
         (full_bond_list st ++
            [ {| bond_id := bond_count st; point1 := bond_origin; point2 := bond_partner |} ])
         st) ;;
  mret new_atom.

(** [int(np.floor(np.sqrt(np.sum(np.square(vector))) + self.float_safety))] *)
Definition floor_length (vector : vec3) : exn + Z :=
  int_floor (PrimFloat.add (PrimFloat.sqrt (np_sum (np_square vector))) float_safety).

Definition _populate_vector (atoms : ref * ref) : M unit :=
  st ← get;
  let vector := np_subtract (position (deref st (pair_partner atoms)))
                            (position (deref st (pair_origin atoms))) in
  match floor_length vector with
  | inl e => raise e
  | inr n =>
      let vector_length := if n <? 1 then 1 else n in
      let step := np_divide vector (float_of_Z vector_length) in
      for_fold (range vector_length) None (populate_segment atoms vector_length step) ;;
      mret tt
  end.

(** Lines 184-190: [for connection in self.vector_list] while the body
    removes elements of that list. The list iterator holds an index [i];
    each round reads [self.vector_list[i]] of the list as it is then, and
    the loop ends when [i] is no longer below its length. *)
Fixpoint prune_scan (fuel : nat) (dangler : ref) (i : nat) : M unit :=
  match fuel with
  | O => out_of_fuel
  | S fuel' =>
      st ← get;
      match vector_list st !! i with
      | None => mret tt
      | Some connection =>
          (if (pair_origin connection =? dangler)%nat then
             add_bonds (pair_partner connection) (-1) ;;
             vector_list_remove connection
           else mret tt) ;;
          (if (pair_partner connection =? dangler)%nat then
             add_bonds (pair_origin connection) (-1) ;;
             vector_list_remove connection
           else mret tt) ;;
          prune_scan fuel' dangler (S i)
      end
  end.

(** Lines 181-191: one round of [while True]; [false] is [break]. The
    scan needs at most one round per element of the list. *)
Definition prune_step : M bool :=
  dangler ← next_atom (λ atom, bonds atom =? 1);
  match dangler with
  | None => mret false
  | Some d =>
      st ← get;
      prune_scan (S (length (vector_list st))) d 0 ;;
      full_atom_list_remove d ;;
      mret true
  end.

Fixpoint prune_loop (fuel : nat) : M unit :=
  match fuel with
  | O => out_of_fuel
  | S fuel' =>
      continue ← prune_step;
      if continue : bool then prune_loop fuel' else mret tt
  end.

(** Every round but the last removes an atom of [full_atom_list]. *)
Definition _prune_vectors : M unit :=
  st ← get; prune_loop (S (length (full_atom_list st))).

Definition populate_vectors : M unit :=
  st ← get; for_each (vector_list st) _populate_vector.

Definition build_lists : M unit :=
  mirrored_bond_list ← phase1;
  phase2 mirrored_bond_list ;;
  (if prune then _prune_vectors else mret tt) ;;
  populate_vectors.

End Build.

(** The writable fields as [Lattice.__init__] sets them before the build. *)
Definition empty_lattice : Lattice :=
  {| heap := []; full_atom_list := []; vector_list := []; full_bond_list := [];
     atom_count := 0; bond_count := 0 |}.

(** [point.coords = np.multiply(point.coords, scale)] *)
Definition scale_point (scale : float) (point : Point) : Point :=
  {| point_id := point_id point; coords := np_scale (coords point) scale |}.

(** [Lattice(cell, size, scale, dangling, symmetric, prune)]. The
    constructor takes [cell.points] itself as its [base_point_list] and
    rescales the [Point] objects of that list in place, so the call also
    changes the cell: the first component is the cell after the call (its
    points are taken to be distinct objects), the second the build. *)
Definition Lattice_init (cell : Cell) (size : ivec3) (scale : float)
    (dangling symmetric prune : bool) : Cell * (list Lattice * outcome unit) :=
  let base_point_list := scale_point scale <$> points cell in
  let base_connection_list := connections cell in
  let cell_dims := np_scale (dims cell) scale in
  ({| points := base_point_list; connections := connections cell; dims := dims cell |},
   build_lists size base_point_list base_connection_list cell_dims
               dangling symmetric prune empty_lattice).

(** ** Cell.__init__ and Cell._import_cell

    A [Cell] object under construction: an attribute is [None] until it is
    assigned. The file system maps a path to the triple pickled in the file
    at that path, [None] when [os.path.exists] is false. [print] appends a
    line to the output. *)
Record CellObject : Type :=
  { attr_points : option (list Point);
    attr_connections : option (list Connection);
    attr_dims : option vec3 }.

Definition new_object : CellObject :=
  {| attr_points := None; attr_connections := None; attr_dims := None |}.

Definition str_of_int (z : Z) : string := NilZero.string_of_int (Z.to_int z).

Definition _import_cell (fs : string → option (list Point * list Connection * vec3))
    (template : string) (self : CellObject) : list string * CellObject :=
  match fs template with
  | Some (pts, conns, d) =>
      ([ ("Importing geometry from " ++ template)%string ],
       {| attr_points := Some pts; attr_connections := Some conns; attr_dims := Some d |})
  | None => ([ "Geometry template does not exist"%string ], self)
  end.

(** [all(np.less_equal(u, v))] *)
Definition all_less_equal (u v : vec3) : bool :=
  let '(x, y, z) := u in let '(a, b, c) := v in
  PrimFloat.leb x a && PrimFloat.leb y b && PrimFloat.leb z c.

(** Lines 72-74, given the list [self.points] evaluated to; [self.dims] is
    read once per point. *)
Fixpoint check_points (self_dims : option vec3) (pts : list Point)
    : list string * option exn :=
  match pts with
  | [] => ([], None)
  | point :: pts' =>
      match self_dims with
      | None => ([], Some AttributeError)
      | Some d =>
          let out :=
            if all_less_equal (coords point) d then []
            else [ ("WARNING: Point " ++ str_of_int (point_id point)
                    ++ " falls outside current cell dimensions.")%string ] in
          let '(out', r) := check_points self_dims pts' in
          (out ++ out', r)
      end
  end.

(** [Cell(point_list, connection_list, dimensions, template)]: what is
    printed, and the object or the exception that ends the construction. *)
Definition Cell_init (fs : string → option (list Point * list Connection * vec3))
    (point_list : option (list Point)) (connection_list : option (list Connection))
    (dimensions : vec3) (template : option string) : list string * (exn + CellObject) :=
  let '(out, self) :=
    match template with
    | None =>
        ([], {| attr_points := Some (default [] point_list);
                attr_connections := Some (default [] connection_list);
                attr_dims := Some dimensions |})
    | Some t => _import_cell fs t new_object
    end in
  match attr_points self with
  | None => (out, inl AttributeError)
  | Some pts =>
      match check_points (attr_dims self) pts with
      | (out', Some e) => (out ++ out', inl e)
      | (out', None) => (out ++ out', inr self)
      end
  end.

(** ** LammpsDataWriter.__init__

    The text of a float in [str.format] is Python's, not the program's: it
    is a parameter. The result is the exception raised, or the file name
    with the lines written to it. *)

(** [max(xs)] and [min(xs)] over a generator: the first element, replaced
    by each later one that compares greater (less); [ValueError] when there
    is none. *)
Definition python_max (xs : list float) : exn + float :=
  match xs with
  | [] => inl ValueError
  | x :: xs' => inr (fold_left (λ m y, if PrimFloat.ltb m y then y else m) xs' x)
  end.

Definition python_min (xs : list float) : exn + float :=
  match xs with
  | [] => inl ValueError
  | x :: xs' => inr (fold_left (λ m y, if PrimFloat.ltb y m then y else m) xs' x)
  end.

(** [position[i]] *)
Definition component (i : nat) (v : vec3) : float :=
  match i with
  | O => v.1.1
  | S O => v.1.2
  | _ => v.2
  end.

(** Lines 23-26: the loop over the three axes, from axis [i] on. *)
Fixpoint bounding_box (atom_list : list Atom) (axes : list nat) (boxmin boxmax : list float)
    : exn + (list float * list float) :=
  match axes with
  | [] => inr (boxmin, boxmax)
  | i :: axes' =>
      match python_max ((λ atom, PrimFloat.add (component i (position atom)) 1) <$> atom_list)
      with
      | inl e => inl e
      | inr hi =>
          match python_min ((λ atom, PrimFloat.sub (component i (position atom)) 1)
                              <$> atom_list) with
          | inl e => inl e
          | inr lo => bounding_box atom_list axes' (boxmin ++ [lo]) (boxmax ++ [hi])
          end
      end
  end.

(** The line feed. *)
Definition nl : string := String (Ascii.ascii_of_nat 10) EmptyString.

#[global] Instance float_inhabited : Inhabited float := populate 0%float.

Section Writer.
Variable format_float : float → string.

Definition atom_line (atom : Atom) : string :=
  let atom_type := match owning_cell atom with Some _ => 1 | None => 2 end in
  (str_of_int (id atom) ++ " 1 " ++ str_of_int atom_type ++ " 0 "
   ++ format_float (component 0 (position atom)) ++ " "
   ++ format_float (component 1 (position atom)) ++ " "
   ++ format_float (component 2 (position atom)) ++ " 0 0 0" ++ nl)%string.

Definition bond_line (bond : Bond) : string :=
  (str_of_int (bond_id bond) ++ " 1 " ++ str_of_int (point1 bond) ++ " "
   ++ str_of_int (point2 bond) ++ nl)%string.

Definition dims_line (lo hi : float) (label : string) : string :=
  (format_float lo ++ " " ++ format_float hi ++ label)%string.

Definition LammpsDataWriter_init (lattice : Lattice) (filename : string)
    : exn + (string * list string) :=
  let atom_list := atoms lattice in
  let bond_list := full_bond_list lattice in
  match bounding_box atom_list [0; 1; 2]%nat [] [] with
  | inl e => inl e
  | inr (boxmin, boxmax) =>
      let header :=
        [ ("LAMMPS data file through AGAR" ++ nl)%string; nl;
          (str_of_int (Z.of_nat (length atom_list)) ++ " atoms" ++ nl)%string;
          ("2 atom types" ++ nl)%string;
          (str_of_int (Z.of_nat (length bond_list)) ++ " bonds" ++ nl)%string;
          ("1 bond types" ++ nl)%string ] in
      let dims :=
        [ dims_line (boxmin !!! 0%nat) (boxmax !!! 0%nat) (" xlo xhi" ++ nl)%string;
          dims_line (boxmin !!! 1%nat) (boxmax !!! 1%nat) (" ylo yhi" ++ nl)%string;
          dims_line (boxmin !!! 2%nat) (boxmax !!! 2%nat) (" zlo zhi" ++ nl)%string ] in
      let masses :=
        [ ("Masses" ++ nl)%string; nl; ("1 1" ++ nl)%string; ("2 1" ++ nl)%string ] in
      let atom_section :=
        [ ("Atoms # full" ++ nl)%string; nl ] ++ (atom_line <$> atom_list) in
      let bond_section := [ ("Bonds" ++ nl)%string; nl ] ++ (bond_line <$> bond_list) in
      inr (filename,
           header ++ [nl] ++ dims ++ [nl] ++ masses ++ [nl] ++ atom_section ++ [nl]
           ++ bond_section)
  end.

End Writer.

(** * Properties *)

(** ** The monad *)

Lemma exec_bind {A B} (m : M A) (k : A → M B) st :
  exec (m ≫= k) st =
  match exec m st with
  | Ok a st' => exec (k a) st'
  | Raise e st' => Raise e st'
  | OutOfFuel => OutOfFuel
  end.
Proof.
  unfold exec, mbind, M_bind.
  destruct (m st) as [t [a st'|e st'|]]; simpl; try done.
  by destruct (k a st').
Qed.

Lemma trace_bind {A B} (m : M A) (k : A → M B) st :
  trace (m ≫= k) st =
  trace m st ++
  match exec m st with
  | Ok a st' => trace (k a) st'
  | _ => []
  end.
Proof.
  unfold exec, trace, mbind, M_bind.
  destruct (m st) as [t [a st'|e st'|]]; simpl; try by rewrite app_nil_r.
  by destruct (k a st').
Qed.

Lemma exec_ret {A} (a : A) st : exec (mret a) st = Ok a st.
Proof. done. Qed.

(** ** Creating atoms *)

(** What the constructor receives besides the id. *)
Abbreviation atom_spec := (vec3 * option Z * option ivec3)%type.

Definition make_atom (atom_id : Z) (s : atom_spec) : Atom :=
  {| id := atom_id; position := s.1.1; point_type := s.1.2; owning_cell := s.2;
     bonds := 0 |}.

(** The state after [append_new_atom]. *)
Definition push_atom (s : atom_spec) (st : Lattice) : Lattice :=
  {| heap := heap st ++ [make_atom (atom_count st + 1) s];
     full_atom_list := full_atom_list st ++ [length (heap st)];
     vector_list := vector_list st;
     full_bond_list := full_bond_list st;
     atom_count := atom_count st + 1;
     bond_count := bond_count st |}.

Definition push_atoms (l : list atom_spec) (st : Lattice) : Lattice :=
  fold_left (λ st s, push_atom s st) l st.

(** Atoms with consecutive ids from [first] on. *)
Fixpoint atoms_from (first : Z) (l : list atom_spec) : list Atom :=
  match l with
  | [] => []
  | s :: l' => make_atom first s :: atoms_from (first + 1) l'
  end.

Lemma append_new_atom_exec pos pt oc st :
  exec (append_new_atom pos pt oc) st = Ok (length (heap st)) (push_atom (pos, pt, oc) st).
Proof. done. Qed.

(** Every reference of [full_atom_list] points into the arena. *)
Definition valid_refs (st : Lattice) : Prop :=
  Forall (λ r, (r < length (heap st))%nat) (full_atom_list st).

Lemma deref_app_l st (r : ref) (h : list Atom) :
  (r < length (heap st))%nat → (heap st ++ h) !!! r = deref st r.
Proof.
  intros Hr. unfold deref. rewrite !list_lookup_total_alt.
  by rewrite lookup_app_l.
Qed.

Lemma atoms_push_atom s st :
  valid_refs st →
  atoms (push_atom s st) = atoms st ++ [make_atom (atom_count st + 1) s].
Proof.
  intros Hv. unfold atoms, push_atom, deref at 1; simpl.
  rewrite fmap_app. f_equal.
  - apply Forall_fmap_ext_1. eapply Forall_impl; [exact Hv|].
    intros r Hr; simpl. by apply deref_app_l.
  - simpl. rewrite list_lookup_total_alt, lookup_app_r by lia.
    by rewrite Nat.sub_diag.
Qed.

Lemma valid_refs_push_atom s st : valid_refs st → valid_refs (push_atom s st).
Proof.
  unfold valid_refs, push_atom; simpl. intros Hv.
  rewrite length_app; simpl. apply Forall_app; split.
  - eapply Forall_impl; [exact Hv|]. simpl; lia.
  - constructor; [lia | constructor].
Qed.

Lemma atoms_push_atoms l st :
  valid_refs st →
  atoms (push_atoms l st) = atoms st ++ atoms_from (atom_count st + 1) l
  ∧ valid_refs (push_atoms l st)
  ∧ atom_count (push_atoms l st) = atom_count st + Z.of_nat (length l).
Proof.
  revert st. induction l as [|s l IH]; intros st Hv; simpl.
  - rewrite app_nil_r. split_and!; [done | done | lia].
  - destruct (IH (push_atom s st) (valid_refs_push_atom s st Hv)) as (Ha & Hv' & Hc).
    fold (push_atoms l (push_atom s st)).
    rewrite Ha, Hc, atoms_push_atom by done. simpl.
    rewrite <- app_assoc. split_and!; [done | done | lia].
Qed.

Lemma push_atoms_app l1 l2 st :
  push_atoms (l1 ++ l2) st = push_atoms l2 (push_atoms l1 st).
Proof. apply fold_left_app. Qed.

Lemma length_atoms_from first l : length (atoms_from first l) = length l.
Proof. revert first. induction l; intros; simpl; [done | by rewrite IHl]. Qed.

(** ** Phase 1 without dangling bonds (C8) *)

(** The atoms of one cell: one per template point. *)
Definition cell_specs (pts : list Point) (cell_dims : vec3) (c : ivec3) : list atom_spec :=
  map (λ point, (np_add (np_multiply (ivec_to_vec c) cell_dims) (coords point),
                 Some (point_id point), Some c)) pts.

Lemma replicate_points_exec pts cell_dims c st :
  exec (replicate_points pts cell_dims c) st = Ok tt (push_atoms (cell_specs pts cell_dims c) st).
Proof.
  unfold replicate_points, cell_specs.
  revert st. induction pts as [|p pts IH]; intros st; [done|].
  simpl for_each. rewrite exec_bind, exec_bind, append_new_atom_exec, exec_ret.
  by rewrite IH.
Qed.

Lemma phase1_no_dangling_exec size pts conns cell_dims symmetric cells m st :
  exec (for_fold cells m (phase1_cell size pts conns cell_dims false symmetric)) st
  = Ok m (push_atoms (flat_map (cell_specs pts cell_dims) cells) st).
Proof.
  revert st. induction cells as [|c cells IH]; intros st; [done|].
  simpl for_fold. rewrite exec_bind. unfold phase1_cell at 1.
  rewrite exec_bind, replicate_points_exec, exec_ret, IH.
  simpl flat_map. by rewrite push_atoms_app.
Qed.

Lemma length_range n : length (range n) = Z.to_nat n.
Proof. unfold range. by rewrite length_fmap, length_seq. Qed.

Lemma length_product xs ys zs :
  length (product xs ys zs) = (length xs * (length ys * length zs))%nat.
Proof.
  unfold product. induction xs as [|x xs IH]; [done|].
  cbn [flat_map length]. rewrite length_app, IH.
  replace (length (flat_map (λ y, map (λ z, (x, y, z)) zs) ys))
    with (length ys * length zs)%nat; [lia|].
  clear. induction ys as [|y ys IH]; [done|].
  cbn [flat_map length]. by rewrite length_app, <- IH, length_map.
Qed.

Lemma length_flat_map_const {A B} (f : A → list B) (n : nat) l :
  (∀ x, length (f x) = n) → length (flat_map f l) = (length l * n)%nat.
Proof.
  intros Hf. induction l as [|x l IH]; [done|].
  simpl. by rewrite length_app, Hf, IH.
Qed.

(** C8. With [dangling = False], Phase 1 on an [nx] by [ny] by [nz] grid
    (all positive) never fails and leaves in [full_atom_list] exactly
    [nx * ny * nz * p] atoms for the [p] template points: for each cell in
    grid order and each point in template order one atom, at
    [cell * cell_dims + point.coords], tagged with the point's id and the
    cell index, with ids counting from 1 and no bonds. *)
Theorem phase1_replication (nx ny nz : Z) pts conns cell_dims symmetric :
  0 < nx → 0 < ny → 0 < nz →
  ∃ st,
    exec (phase1 (nx, ny, nz) pts conns cell_dims false symmetric) empty_lattice = Ok [] st
    ∧ atoms st = atoms_from 1 (flat_map (cell_specs pts cell_dims) (cell_list (nx, ny, nz)))
    ∧ Z.of_nat (length (atoms st)) = nx * ny * nz * Z.of_nat (length pts).
Proof.
  intros Hx Hy Hz. eexists. split; [apply phase1_no_dangling_exec|].
  destruct (atoms_push_atoms
              (flat_map (cell_specs pts cell_dims) (cell_list (nx, ny, nz))) empty_lattice)
    as (Ha & _ & _); [constructor|].
  rewrite Ha. simpl. split; [done|].
  rewrite length_atoms_from.
  rewrite (length_flat_map_const _ (length pts)).
  2:{ intros c. unfold cell_specs. by rewrite length_map. }
  unfold cell_list. rewrite length_product, !length_range. nia.
Qed.

Lemma phase1_replication_witness :
  ∃ st,
    exec (phase1 (2, 1, 3) [ {| point_id := 1; coords := (0, 0, 0)%float |};
                             {| point_id := 2; coords := (0.5, 0.5, 0.5)%float |} ]
                 [ {| origin := 1; partner := 2; cell_crossings := (1, 0, 0) |} ]
                 (1, 1, 1)%float false true) empty_lattice = Ok [] st
    ∧ atoms st = atoms_from 1 (flat_map (cell_specs
                   [ {| point_id := 1; coords := (0, 0, 0)%float |};
                     {| point_id := 2; coords := (0.5, 0.5, 0.5)%float |} ] (1, 1, 1)%float)
                   (cell_list (2, 1, 3)))
    ∧ Z.of_nat (length (atoms st)) = 2 * 1 * 3 * Z.of_nat 2.
Proof. apply phase1_replication; lia. Defined.

(** ** Symbolic execution of the primitives *)

Lemma exec_get st : exec get st = Ok st st.
Proof. done. Qed.

Lemma exec_put st' st : exec (put st') st = Ok tt st'.
Proof. done. Qed.

Lemma exec_raise {A} e st : exec (raise e : M A) st = Raise e st.
Proof. done. Qed.

Lemma exec_incr_bond_count st :
  exec incr_bond_count st = Ok tt (set_bond_count (bond_count st + 1) st).
Proof. done. Qed.

Lemma exec_add_bonds r d st :
  exec (add_bonds r d) st = Ok tt (set_heap (alter (add_to_bonds d) r (heap st)) st).
Proof. done. Qed.

Lemma exec_next_atom test st :
  exec (next_atom test) st
  = Ok (List.find (λ r, test (deref st r)) (full_atom_list st)) st.
Proof. done. Qed.

Create Rewrite HintDb exec.
#[local] Hint Rewrite @exec_bind @exec_ret exec_get exec_put @exec_raise
  append_new_atom_exec exec_incr_bond_count exec_add_bonds exec_next_atom : exec.

Ltac exec_steps := repeat (progress (autorewrite with exec; cbn beta iota zeta)).

Lemma deref_push_atom_old s st (r : ref) :
  (r < length (heap st))%nat → deref (push_atom s st) r = deref st r.
Proof. intros Hr. unfold deref at 1; simpl. by apply deref_app_l. Qed.

Lemma deref_push_atom_new s st :
  deref (push_atom s st) (length (heap st)) = make_atom (atom_count st + 1) s.
Proof.
  unfold deref; simpl.
  by rewrite list_lookup_total_alt, lookup_app_r, Nat.sub_diag by lia.
Qed.

(** ** Chain discretization (C1) *)

(** The [j]-th filler atom of a chain, when [atom_count] was [ac] before. *)
Definition chain_filler (ac : Z) (origin_position step : vec3) (j : Z) : Atom :=
  {| id := ac + 1 + j;
     position := np_add origin_position (np_scale step (float_of_Z (j + 1)));
     point_type := None; owning_cell := None; bonds := 0 |}.

(** The [j]-th bond of a chain of [vector_length] bonds, when [bond_count]
    was [bc] and [atom_count] was [ac] before. *)
Definition chain_bond (bc ac origin_id partner_id vector_length : Z) (j : Z) : Bond :=
  {| bond_id := bc + 1 + j;
     point1 := if j <? vector_length - 1 then ac + 1 + j else partner_id;
     point2 := if j =? 0 then origin_id else ac + j |}.

Lemma populate_segment_exec_filler o p vl step na i st :
  i < vl - 1 → (o < length (heap st))%nat →
  exec (populate_segment (o, p) vl step na i) st
  = Ok (Some (length (heap st)))
       (set_full_bond_list
          (full_bond_list st ++
             [chain_bond (bond_count st - i) (atom_count st - i) (id (deref st o))
                         (id (deref st p)) vl i])
          (set_bond_count (bond_count st + 1)
             (push_atom (np_add (position (deref st o)) (np_scale step (float_of_Z (i + 1))),
                         None, None) st))).
Proof.
  intros Hi Ho. unfold populate_segment, chain_bond.
  assert ((i <? vl - 1) = true) as -> by lia.
  exec_steps. rewrite deref_push_atom_new. cbn [pair_origin pair_partner fst snd].
  destruct (i =? 0) eqn:Hi0; exec_steps.
  - rewrite deref_push_atom_old by done. do 4 f_equal; simpl; f_equal; lia.
  - rewrite deref_push_atom_new. do 4 f_equal; simpl; f_equal; lia.
Qed.

Lemma populate_segment_exec_last o p vl step na i st :
  i = vl - 1 →
  (i = 0 ∨ ∃ r, na = Some r ∧ id (deref st r) = atom_count st) →
  exec (populate_segment (o, p) vl step na i) st
  = Ok na
       (set_full_bond_list
          (full_bond_list st ++
             [chain_bond (bond_count st - i) (atom_count st - i) (id (deref st o))
                         (id (deref st p)) vl i])
          (set_bond_count (bond_count st + 1) st)).
Proof.
  intros Hi Hna. unfold populate_segment, chain_bond.
  assert ((i <? vl - 1) = false) as -> by lia.
  exec_steps. cbn [pair_origin pair_partner fst snd].
  destruct (i =? 0) eqn:Hi0; exec_steps.
  - do 4 f_equal; simpl; f_equal; lia.
  - destruct Hna as [?|(r & -> & Hr)]; [lia|]. exec_steps.
    do 4 f_equal; simpl; f_equal; lia.
Qed.

(** The loop of [_populate_vector], entered at round [k] with [m] rounds
    to go. *)
Lemma populate_loop_exec o p vl step ac bc : ∀ (m k : nat) st na,
  Z.of_nat (k + m) = vl →
  (o < length (heap st))%nat → (p < length (heap st))%nat →
  atom_count st = ac + Z.min (Z.of_nat k) (vl - 1) →
  bond_count st = bc + Z.of_nat k →
  (k = 0%nat ∨ ∃ r, na = Some r ∧ (r < length (heap st))%nat
                    ∧ id (deref st r) = atom_count st) →
  ∃ na' st',
    exec (for_fold (Z.of_nat <$> seq k m) na (populate_segment (o, p) vl step)) st
    = Ok na' st'
    ∧ heap st' = heap st ++
        (chain_filler ac (position (deref st o)) step <$> (Z.of_nat <$> seq k (m - 1)))
    ∧ full_atom_list st' = full_atom_list st ++ seq (length (heap st)) (m - 1)
    ∧ full_bond_list st' = full_bond_list st ++
        (chain_bond bc ac (id (deref st o)) (id (deref st p)) vl <$> (Z.of_nat <$> seq k m))
    ∧ vector_list st' = vector_list st.
Proof.
  induction m as [|m IH]; intros k st na Hvl Ho Hp Hac Hbc Hna.
  - exists na, st. simpl. by rewrite !app_nil_r.
  - cbn [seq fmap list_fmap for_fold]. rewrite exec_bind.
    destruct (decide (m = 0%nat)) as [->|Hm].
    + rewrite populate_segment_exec_last; [|lia|]; cycle 1.
      { destruct Hna as [->|(r & -> & _ & Hr)]; [by left|right; eauto]. }
      eexists _, _. split; [done|]. simpl.
      rewrite !app_nil_r. split_and!; try done.
      do 3 f_equal; lia.
    + rewrite populate_segment_exec_filler by (done || lia).
      set (st1 := set_full_bond_list _ _).
      destruct (IH (S k) st1 (Some (length (heap st)))) as (na' & st' & Hex & Hh & Hf & Hb & Hv).
      * lia.
      * subst st1; simpl. rewrite length_app; simpl; lia.
      * subst st1; simpl. rewrite length_app; simpl; lia.
      * subst st1; simpl. lia.
      * subst st1; simpl. lia.
      * right. eexists; split; [done|]. subst st1.
        change (deref (set_full_bond_list ?l (set_bond_count ?n ?s)) ?r) with (deref s r).
        rewrite deref_push_atom_new. simpl. rewrite length_app; simpl. split; lia.
      * exists na', st'. split; [done|].
        assert (∀ r, (r < length (heap st))%nat → deref st1 r = deref st r) as Hd.
        { intros r Hr. subst st1.
          change (deref (set_full_bond_list ?l (set_bond_count ?n ?s)) r) with (deref s r).
          by apply deref_push_atom_old. }
        rewrite Hh, Hf, Hb, Hv, !Hd by done. subst st1; simpl.
        replace (m - 0)%nat with (S (m - 1)) by lia.
        cbn [seq fmap list_fmap]. rewrite <- !app_assoc, length_app; simpl.
        replace (length (heap st) + 1)%nat with (S (length (heap st))) by lia.
        split_and!; try done.
        { f_equal. f_equal. unfold chain_filler, make_atom; simpl. f_equal. lia. }
        { f_equal. f_equal. f_equal; lia. }
Qed.

Lemma range_cons n : 1 ≤ n → range n = 0 :: (Z.of_nat <$> seq 1 (Z.to_nat n - 1)).
Proof.
  intros Hn. unfold range.
  replace (Z.to_nat n) with (S (Z.to_nat n - 1)) at 1 by lia. done.
Qed.

Lemma range_snoc n : 1 ≤ n → range n = range (n - 1) ++ [n - 1].
Proof.
  intros Hn. unfold range.
  replace (Z.to_nat n) with (Z.to_nat (n - 1) + 1)%nat by lia.
  rewrite seq_app, fmap_app. simpl. do 2 f_equal. lia.
Qed.

(** C1, as the code has it. A vector-pair of two atoms of the arena whose
    distance [L] has [int(floor(L + float_safety)) = n] gets exactly
    [max(1, n)] bonds, with consecutive bond ids, and [max(1, n) - 1] new
    filler atoms (no point type, no owning cell), the [j]-th at
    [origin.position + (j + 1) * step] for [step] the displacement divided by
    [max(1, n)]. Each bond is written (new end, previous end): the first
    bond's SECOND endpoint [point2] is the origin atom's id and the last
    bond's FIRST endpoint [point1] is the partner atom's id. *)
Theorem populate_vector_chain (o p : ref) (n : Z) st :
  (o < length (heap st))%nat → (p < length (heap st))%nat →
  floor_length (np_subtract (position (deref st p)) (position (deref st o))) = inr n →
  let vector_length := Z.max 1 n in
  let step := np_divide (np_subtract (position (deref st p)) (position (deref st o)))
                        (float_of_Z vector_length) in
  let fillers := chain_filler (atom_count st) (position (deref st o)) step
                   <$> range (vector_length - 1) in
  let new_bonds := chain_bond (bond_count st) (atom_count st) (id (deref st o))
                     (id (deref st p)) vector_length <$> range vector_length in
  ∃ st',
    exec (_populate_vector (o, p)) st = Ok tt st'
    ∧ full_bond_list st' = full_bond_list st ++ new_bonds
    ∧ heap st' = heap st ++ fillers
    ∧ full_atom_list st' = full_atom_list st ++ seq (length (heap st)) (length fillers)
    ∧ Z.of_nat (length new_bonds) = vector_length
    ∧ Z.of_nat (length fillers) = vector_length - 1
    ∧ (∃ b, head new_bonds = Some b ∧ point2 b = id (deref st o))
    ∧ (∃ b, last new_bonds = Some b ∧ point1 b = id (deref st p)).
Proof.
  intros Ho Hp Hn vl step fillers new_bonds.
  assert (1 ≤ vl) as Hvl by (subst vl; lia).
  destruct (populate_loop_exec o p vl step (atom_count st) (bond_count st)
              (Z.to_nat vl) 0 st None) as (na' & st' & Hex & Hh & Hf & Hb & _);
    [lia | done | done | lia | lia | by left |].
  exists st'. unfold _populate_vector. exec_steps.
  cbn [pair_origin pair_partner fst snd]. rewrite Hn.
  replace (if n <? 1 then 1 else n) with vl by (subst vl; destruct (Z.ltb_spec n 1); lia).
  fold step. fold (range vl) in Hex. rewrite exec_bind, Hex. exec_steps.
  assert (length fillers = (Z.to_nat vl - 1)%nat) as Hlen.
  { subst fillers. rewrite length_fmap, length_range. lia. }
  split_and!.
  - done.
  - exact Hb.
  - rewrite Hh. subst fillers. unfold range.
    by replace (Z.to_nat (vl - 1)) with (Z.to_nat vl - 1)%nat by lia.
  - by rewrite Hf, Hlen.
  - subst new_bonds. rewrite length_fmap, length_range. lia.
  - lia.
  - subst new_bonds. rewrite range_cons by done. eexists; split; [done|]. done.
  - subst new_bonds. rewrite range_snoc, fmap_app by done. simpl.
    rewrite last_snoc. eexists; split; [done|]. simpl.
    by assert ((vl - 1 <? vl - 1) = false) as -> by lia.
Qed.

(** Two atoms at distance [sqrt 12], about 3.46: three bonds. *)
Definition chain_example : Lattice :=
  {| heap := [ {| id := 1; position := (0, 0, 0)%float; point_type := Some 1;
                  owning_cell := Some (0, 0, 0); bonds := 1 |};
               {| id := 2; position := (2, 2, 2)%float; point_type := Some 2;
                  owning_cell := Some (0, 0, 0); bonds := 1 |} ];
     full_atom_list := [0; 1]%nat;
     vector_list := [(0, 1)%nat];
     full_bond_list := [];
     atom_count := 2;
     bond_count := 0 |}.

Lemma populate_vector_chain_witness :
  ∃ st',
    exec (_populate_vector (0%nat, 1%nat)) chain_example = Ok tt st'
    ∧ full_bond_list st' = [ {| bond_id := 1; point1 := 3; point2 := 1 |};
                             {| bond_id := 2; point1 := 4; point2 := 3 |};
                             {| bond_id := 3; point1 := 2; point2 := 4 |} ]
    ∧ length (heap st') = 4%nat.
Proof.
  destruct (populate_vector_chain 0 1 3 chain_example)
    as (st' & Hex & Hb & Hh & _); [simpl; lia | simpl; lia | reflexivity |].
  exists st'. split; [exact Hex|]. rewrite Hb, Hh. split; reflexivity.
Defined.

(** C1 as stated fails on the endpoints: in the chain of [chain_example]
    the first bond's first endpoint is the first filler atom (id 3), not the
    origin atom (id 1), and the last bond's second endpoint is the last
    filler atom (id 4), not the partner atom (id 2). *)
Lemma populate_vector_endpoints_counterexample :
  ∃ st' b_first b_last,
    exec (_populate_vector (0%nat, 1%nat)) chain_example = Ok tt st'
    ∧ head (full_bond_list st') = Some b_first
    ∧ last (full_bond_list st') = Some b_last
    ∧ id (deref chain_example 0) = 1 ∧ point1 b_first = 3
    ∧ id (deref chain_example 1) = 2 ∧ point2 b_last = 4.
Proof.
  eexists _, _, _. split; [vm_compute; reflexivity|].
  split; [reflexivity|]. split; [reflexivity|]. done.
Qed.

(** ** Degrees and the vector list (C3, C9) *)

(** How often [vector_list] refers to the atom [r], as origin or as
    partner; a pair of [r] with itself counts twice. *)
Fixpoint degree (r : ref) (vl : list (ref * ref)) : Z :=
  match vl with
  | [] => 0
  | c :: vl' =>
      (if (pair_origin c =? r)%nat then 1 else 0)
      + (if (pair_partner c =? r)%nat then 1 else 0)
      + degree r vl'
  end.

Definition sumZ (l : list Z) : Z := foldr Z.add 0 l.

(** The sum of [atom.bonds] over [full_atom_list]. *)
Definition sum_bonds (st : Lattice) : Z := sumZ (bonds <$> atoms st).

(** The link between the counters and the vector list: the atoms of
    [full_atom_list] are distinct objects, the pairs of [vector_list] refer
    to atoms of [full_atom_list], every atom of the list carries its degree,
    and an object outside the list has a counter that is not negative. *)
Record linked (st : Lattice) : Prop :=
  { linked_nodup : NoDup (full_atom_list st);
    linked_valid : valid_refs st;
    linked_refs : ∀ c, c ∈ vector_list st →
                       pair_origin c ∈ full_atom_list st
                       ∧ pair_partner c ∈ full_atom_list st;
    linked_degree : ∀ r, r ∈ full_atom_list st →
                         bonds (deref st r) = degree r (vector_list st);
    linked_others : ∀ r, 0 ≤ bonds (deref st r) }.

Lemma degree_nonneg r vl : 0 ≤ degree r vl.
Proof.
  induction vl as [|c vl IH]; simpl; [done|].
  destruct (pair_origin c =? r)%nat, (pair_partner c =? r)%nat; lia.
Qed.

Lemma degree_app r vl1 vl2 : degree r (vl1 ++ vl2) = degree r vl1 + degree r vl2.
Proof. induction vl1 as [|c vl1 IH]; simpl; [done|]. rewrite IH. lia. Qed.

Lemma degree_absent r vl :
  (∀ c, c ∈ vl → pair_origin c ≠ r ∧ pair_partner c ≠ r) → degree r vl = 0.
Proof.
  induction vl as [|c vl IH]; intros H; simpl; [done|].
  destruct (H c) as [H1 H2]; [by left|].
  rewrite IH by (intros c' Hc'; apply H; by right).
  destruct (Nat.eqb_spec (pair_origin c) r), (Nat.eqb_spec (pair_partner c) r); done.
Qed.

Lemma sumZ_app l1 l2 : sumZ (l1 ++ l2) = sumZ l1 + sumZ l2.
Proof. unfold sumZ. induction l1 as [|x l1 IH]; simpl; [done|]. rewrite IH. lia. Qed.

Lemma sumZ_plus {A} (f g : A → Z) l :
  sumZ ((λ x, f x + g x) <$> l) = sumZ (f <$> l) + sumZ (g <$> l).
Proof. unfold sumZ. induction l as [|x l IH]; csimpl; [done|]. rewrite IH. lia. Qed.

Lemma sumZ_zero {A} (f : A → Z) l : (∀ x, x ∈ l → f x = 0) → sumZ (f <$> l) = 0.
Proof.
  unfold sumZ. induction l as [|x l IH]; intros H; csimpl; [done|].
  rewrite H by (by left). rewrite IH; [done|]. intros y Hy. apply H. by right.
Qed.

(** An object that occurs once in a list is counted once. *)
Lemma sumZ_indicator (x : ref) l :
  NoDup l → x ∈ l → sumZ ((λ r, if (x =? r)%nat then 1 else 0) <$> l) = 1.
Proof.
  induction 1 as [|y l Hy Hnd IH]; intros Hx; [by apply elem_of_nil in Hx|].
  rewrite fmap_cons. change (sumZ (?a :: ?l)) with (a + sumZ l).
  apply elem_of_cons in Hx as [->|Hx].
  - rewrite Nat.eqb_refl, sumZ_zero; [done|].
    intros r Hr. destruct (Nat.eqb_spec y r); [by subst|done].
  - rewrite IH by done. destruct (Nat.eqb_spec x y); [by subst|done].
Qed.

Lemma sumZ_degree l vl :
  NoDup l → (∀ c, c ∈ vl → pair_origin c ∈ l ∧ pair_partner c ∈ l) →
  sumZ ((λ r, degree r vl) <$> l) = 2 * Z.of_nat (length vl).
Proof.
  intros Hnd. induction vl as [|c vl IH]; intros Hvl.
  - simpl. by apply sumZ_zero.
  - cbn [degree]. rewrite !sumZ_plus, IH by (intros c' Hc'; apply Hvl; by right).
    destruct (Hvl c) as [Ho Hp]; [by left|].
    rewrite !sumZ_indicator by done. simpl length. lia.
Qed.

(** Degree conservation follows from the link. *)
Lemma linked_sum_bonds st :
  linked st → sum_bonds st = 2 * Z.of_nat (length (vector_list st)).
Proof.
  intros [Hnd _ Hrefs Hdeg _]. unfold sum_bonds, atoms.
  rewrite <- (sumZ_degree (full_atom_list st)) by done.
  rewrite <- list_fmap_compose. f_equal.
  apply Forall_fmap_ext_1, Forall_forall. intros r Hr; simpl. by apply Hdeg.
Qed.

Lemma linked_empty : linked empty_lattice.
Proof.
  split; simpl.
  - constructor.
  - constructor.
  - intros c Hc. by apply elem_of_nil in Hc.
  - intros r Hr. by apply elem_of_nil in Hr.
  - intros r. by unfold deref.
Qed.

(** ** Invariants of computations *)

(** [m] keeps [I]: from a state with [I], a result comes with [I]. *)
Definition preserves {A} (I : Lattice → Prop) (m : M A) : Prop :=
  ∀ st a st', I st → exec m st = Ok a st' → I st'.

(** [m] returns from every state. *)
Definition succeeds {A} (m : M A) : Prop :=
  ∀ st, ∃ a st', exec m st = Ok a st'.

Lemma preserves_ret {A} I (a : A) : preserves I (mret a).
Proof. intros st a' st' HI Hex. rewrite exec_ret in Hex. by injection Hex as _ <-. Qed.

Lemma preserves_raise {A} I e : preserves I (raise e : M A).
Proof. intros st a' st' HI Hex. by rewrite exec_raise in Hex. Qed.

Lemma preserves_bind {A B} I (m : M A) (k : A → M B) :
  preserves I m → (∀ a, preserves I (k a)) → preserves I (m ≫= k).
Proof.
  intros Hm Hk st b st' HI Hex. rewrite exec_bind in Hex.
  destruct (exec m st) as [a st1| |] eqn:Hm1; try done.
  eapply Hk; [|exact Hex]. by eapply Hm.
Qed.

Lemma preserves_for_each {A} I (l : list A) (body : A → M unit) :
  (∀ x, preserves I (body x)) → preserves I (for_each l body).
Proof.
  intros Hb. induction l as [|x l IH]; simpl.
  - apply preserves_ret.
  - apply preserves_bind; [apply Hb | by intros _].
Qed.

Lemma preserves_for_fold {A B} I (l : list A) (b : B) (body : B → A → M B) :
  (∀ b x, preserves I (body b x)) → preserves I (for_fold l b body).
Proof.
  intros Hb. revert b. induction l as [|x l IH]; intros b; simpl.
  - apply preserves_ret.
  - apply preserves_bind; [apply Hb | done].
Qed.

Lemma succeeds_ret {A} (a : A) : succeeds (mret a).
Proof. intros st. by exists a, st. Qed.

Lemma succeeds_bind {A B} (m : M A) (k : A → M B) :
  succeeds m → (∀ a, succeeds (k a)) → succeeds (m ≫= k).
Proof.
  intros Hm Hk st. destruct (Hm st) as (a & st1 & Hex).
  destruct (Hk a st1) as (b & st2 & Hex2).
  exists b, st2. by rewrite exec_bind, Hex.
Qed.

Lemma succeeds_for_each {A} (l : list A) (body : A → M unit) :
  (∀ x, succeeds (body x)) → succeeds (for_each l body).
Proof.
  intros Hb. induction l as [|x l IH]; simpl.
  - apply succeeds_ret.
  - apply succeeds_bind; [apply Hb | by intros _].
Qed.

Lemma preserves_next_atom I test : preserves I (next_atom test).
Proof. intros st a st' HI Hex. rewrite exec_next_atom in Hex. by injection Hex as _ <-. Qed.

Lemma preserves_next_coords I pts pid : preserves I (next_coords pts pid).
Proof.
  unfold next_coords. destruct (List.find _ pts); [apply preserves_ret | apply preserves_raise].
Qed.

(** ** The link through Phase 1 and Phase 2 *)

Lemma linked_push_atom s st : linked st → linked (push_atom s st).
Proof.
  intros [Hnd Hv Hrefs Hdeg Hoth].
  assert (length (heap st) ∉ full_atom_list st) as Hfresh.
  { intros Hin. eapply Forall_forall in Hv; [|exact Hin]. simpl in Hv. lia. }
  split.
  - simpl. apply NoDup_app. split_and!; [done| |apply NoDup_singleton].
    intros r Hr ->%list_elem_of_singleton. done.
  - by apply valid_refs_push_atom.
  - simpl. intros c Hc. destruct (Hrefs c Hc). split; apply elem_of_app; by left.
  - simpl. intros r [Hr| ->%list_elem_of_singleton]%elem_of_app.
    + rewrite deref_push_atom_old; [by apply Hdeg|].
      eapply Forall_forall in Hv; [|exact Hr]. done.
    + rewrite deref_push_atom_new. simpl. symmetry. apply degree_absent.
      intros c Hc. destruct (Hrefs c Hc). split; intros Heq; by rewrite Heq in *.
  - intros r. destruct (decide (r < length (heap st))%nat) as [Hr|Hr].
    + by rewrite deref_push_atom_old.
    + destruct (decide (r = length (heap st))) as [->|Hne].
      * by rewrite deref_push_atom_new.
      * unfold deref; simpl. rewrite list_lookup_total_alt, lookup_ge_None_2; [done|].
        rewrite length_app; simpl; lia.
Qed.

Lemma preserves_append_new_atom pos pt oc : preserves linked (append_new_atom pos pt oc).
Proof.
  intros st a st' HI Hex. rewrite append_new_atom_exec in Hex.
  injection Hex as _ <-. by apply linked_push_atom.
Qed.

Lemma preserves_replicate_points pts cell_dims c :
  preserves linked (replicate_points pts cell_dims c).
Proof.
  apply preserves_for_each. intros point.
  apply preserves_bind; [apply preserves_append_new_atom | intros; apply preserves_ret].
Qed.

Lemma preserves_discover_boundary size pts cell_dims symmetric c m conn :
  preserves linked (discover_boundary size pts cell_dims symmetric c m conn).
Proof.
  unfold discover_boundary.
  apply preserves_bind.
  - destruct (negb _); [|apply preserves_ret].
    apply preserves_bind; [apply preserves_next_coords|intros coords].
    apply preserves_bind; [apply preserves_next_atom|intros [r|]].
    + apply preserves_ret.
    + apply preserves_bind; [apply preserves_append_new_atom | intros; apply preserves_ret].
  - intros _. destruct symmetric; [|apply preserves_ret].
    destruct (negb _); [|apply preserves_ret].
    apply preserves_bind; [apply preserves_next_coords|intros coords].
    apply preserves_bind; [apply preserves_next_atom|intros found].
    apply preserves_bind; [|intros; apply preserves_ret].
    destruct found.
    + apply preserves_ret.
    + apply preserves_bind; [apply preserves_append_new_atom | intros; apply preserves_ret].
Qed.

Lemma preserves_phase1 size pts conns cell_dims dangling symmetric :
  preserves linked (phase1 size pts conns cell_dims dangling symmetric).
Proof.
  apply preserves_for_fold. intros m c. unfold phase1_cell.
  apply preserves_bind; [apply preserves_replicate_points|intros _].
  destruct dangling; [|apply preserves_ret].
  apply preserves_for_fold. intros m' conn. apply preserves_discover_boundary.
Qed.

(** The state after a resolved connection: lines 140-142. *)
Definition link_pair (o p : ref) (st : Lattice) : Lattice :=
  set_vector_list (vector_list st ++ [(o, p)])
    (set_heap (alter (add_to_bonds 1) p (alter (add_to_bonds 1) o (heap st))) st).

Lemma resolve_connection_exec c conn st :
  exec (resolve_connection c conn) st
  = Ok tt
      match List.find (λ r, is_atom_of (origin conn) c (deref st r)) (full_atom_list st),
            List.find (λ r, is_atom_of (partner conn) (iv_add c (cell_crossings conn))
                                       (deref st r)) (full_atom_list st) with
      | Some o, Some p => link_pair o p st
      | _, _ => st
      end.
Proof.
  unfold resolve_connection. exec_steps.
  destruct (List.find _ _) as [o|]; [|done].
  destruct (List.find _ _) as [p|]; [|done].
  exec_steps. reflexivity.
Qed.

Lemma bonds_alter d (i j : ref) (h : list Atom) :
  (i < length h)%nat →
  bonds (alter (add_to_bonds d) i h !!! j)
  = bonds (h !!! j) + (if (i =? j)%nat then d else 0).
Proof.
  intros Hi. destruct (Nat.eqb_spec i j) as [->|Hne].
  - by rewrite list_lookup_total_alter_eq.
  - rewrite list_lookup_total_alter_ne by done. lia.
Qed.

Lemma find_elem_of {A} (f : A → bool) l x : List.find f l = Some x → x ∈ l ∧ f x = true.
Proof. intros [Hin Hf]%find_some. split; [by apply list_elem_of_In|done]. Qed.

Lemma linked_link_pair o p st :
  linked st → o ∈ full_atom_list st → p ∈ full_atom_list st → linked (link_pair o p st).
Proof.
  intros [Hnd Hv Hrefs Hdeg Hoth] Ho Hp.
  assert (o < length (heap st))%nat as Hov
    by (eapply Forall_forall in Hv; [|exact Ho]; done).
  assert (p < length (heap st))%nat as Hpv
    by (eapply Forall_forall in Hv; [|exact Hp]; done).
  assert (∀ r, bonds (deref (link_pair o p st) r)
               = bonds (deref st r) + (if (o =? r)%nat then 1 else 0)
                 + (if (p =? r)%nat then 1 else 0)) as Hb.
  { intros r. unfold deref; simpl.
    rewrite !bonds_alter by (by rewrite ?length_alter). lia. }
  split.
  - done.
  - unfold valid_refs; simpl. by rewrite !length_alter.
  - simpl. intros c [Hc| ->%list_elem_of_singleton]%elem_of_app; [by apply Hrefs|done].
  - simpl. intros r Hr. rewrite Hb, degree_app, Hdeg by done. simpl. lia.
  - intros r. rewrite Hb. specialize (Hoth r).
    destruct (o =? r)%nat, (p =? r)%nat; lia.
Qed.

Lemma preserves_resolve_connection c conn : preserves linked (resolve_connection c conn).
Proof.
  intros st a st' HI Hex. rewrite resolve_connection_exec in Hex.
  injection Hex as _ <-.
  match goal with |- linked (match ?x with _ => _ end) => destruct x as [o|] eqn:Ho end;
    [|done].
  match goal with |- linked (match ?x with _ => _ end) => destruct x as [p|] eqn:Hp end;
    [|done].
  apply find_elem_of in Ho as [Ho _]. apply find_elem_of in Hp as [Hp _].
  by apply linked_link_pair.
Qed.

Lemma succeeds_resolve_connection c conn : succeeds (resolve_connection c conn).
Proof. intros st. eexists _, _. apply resolve_connection_exec. Qed.

Lemma preserves_phase2 size conns m : preserves linked (phase2 size conns m).
Proof.
  apply preserves_for_each. intros c. apply preserves_for_each. intros conn.
  apply preserves_resolve_connection.
Qed.

Lemma succeeds_phase2 size conns m : succeeds (phase2 size conns m).
Proof.
  apply succeeds_for_each. intros c. apply succeeds_for_each. intros conn.
  apply succeeds_resolve_connection.
Qed.

(** The build up to the end of Phase 2: lines 85-142. *)
Definition resolve_edges (size : ivec3) (pts : list Point) (conns : list Connection)
    (cell_dims : vec3) (dangling symmetric : bool) : M unit :=
  mirrored_bond_list ← phase1 size pts conns cell_dims dangling symmetric;
  phase2 size conns mirrored_bond_list.

Lemma preserves_resolve_edges size pts conns cell_dims dangling symmetric :
  preserves linked (resolve_edges size pts conns cell_dims dangling symmetric).
Proof.
  apply preserves_bind; [apply preserves_phase1 | intros m; apply preserves_phase2].
Qed.


(** C3. Whenever Phase 1 returns (it raises only when a boundary connection
    names a point id the template lacks), Phase 2 returns as well, and in the
    state it leaves, before pruning, the sum of [bonds] over
    [full_atom_list] is twice the length of [vector_list]. *)
Theorem degree_conservation size pts conns cell_dims dangling symmetric m st1 :
  exec (phase1 size pts conns cell_dims dangling symmetric) empty_lattice = Ok m st1 →
  ∃ st2,
    exec (phase2 size conns m) st1 = Ok tt st2
    ∧ exec (resolve_edges size pts conns cell_dims dangling symmetric) empty_lattice
      = Ok tt st2
    ∧ sum_bonds st2 = 2 * Z.of_nat (length (vector_list st2)).
Proof.
  intros H1. destruct (succeeds_phase2 size conns m st1) as ([] & st2 & H2).
  exists st2. split; [done|].
  assert (exec (resolve_edges size pts conns cell_dims dangling symmetric) empty_lattice
          = Ok tt st2) as H12 by (unfold resolve_edges; by rewrite exec_bind, H1).
  split; [done|]. apply linked_sum_bonds.
  eapply preserves_resolve_edges; [apply linked_empty | exact H12].
Qed.

Lemma degree_conservation_witness :
  ∃ st2,
    exec (phase2 (2, 1, 1) [ {| origin := 1; partner := 2; cell_crossings := (1, 0, 0) |} ]
            [ ({| origin := 2; partner := 1; cell_crossings := (-1, 0, 0) |}, (0, 0, 0)) ])
         (push_atoms [ ((0, 0, 0)%float, Some 1, Some (0, 0, 0));
                       ((0.5, 0.5, 0.5)%float, Some 2, Some (0, 0, 0));
                       ((-1, 0, 0)%float, Some 1, Some (-1, 0, 0));
                       ((1, 0, 0)%float, Some 1, Some (1, 0, 0));
                       ((1.5, 0.5, 0.5)%float, Some 2, Some (1, 0, 0));
                       ((2.5, 0.5, 0.5)%float, Some 2, Some (2, 0, 0)) ] empty_lattice)
    = Ok tt st2
    ∧ exec (resolve_edges (2, 1, 1)
              [ {| point_id := 1; coords := (0, 0, 0)%float |};
                {| point_id := 2; coords := (0.5, 0.5, 0.5)%float |} ]
              [ {| origin := 1; partner := 2; cell_crossings := (1, 0, 0) |} ]
              (1, 1, 1)%float true true) empty_lattice = Ok tt st2
    ∧ sum_bonds st2 = 2 * Z.of_nat (length (vector_list st2)).
Proof.
  apply (degree_conservation (2, 1, 1)
           [ {| point_id := 1; coords := (0, 0, 0)%float |};
             {| point_id := 2; coords := (0.5, 0.5, 0.5)%float |} ]
           [ {| origin := 1; partner := 2; cell_crossings := (1, 0, 0) |} ]
           (1, 1, 1)%float true true).
  vm_compute. reflexivity.
Defined.

(** ** Pruning (C2, C9) *)

(** Running a computation: its trace and its outcome together. *)
Lemma run_bind {A B} (m : M A) (k : A → M B) st t a st1 t' r :
  m st = (t, Ok a st1) → k a st1 = (t', r) → (m ≫= k) st = (t ++ t', r).
Proof. intros Hm Hk. unfold mbind, M_bind. by rewrite Hm, Hk. Qed.

Lemma run_get_bind {B} (k : Lattice → M B) st : (get ≫= k) st = k st st.
Proof. unfold mbind, M_bind, get. by destruct (k st st). Qed.

Lemma run_ret_bind {A B} (a : A) (k : A → M B) st : (mret a ≫= k) st = k a st.
Proof. unfold mbind, M_bind, mret, M_ret. by destruct (k a st). Qed.

Lemma run_add_bonds r d st :
  add_bonds r d st
  = ([set_heap (alter (add_to_bonds d) r (heap st)) st],
     Ok tt (set_heap (alter (add_to_bonds d) r (heap st)) st)).
Proof. done. Qed.

Lemma run_vector_list_remove c l st :
  list_remove pair_eqb c (vector_list st) = Some l →
  vector_list_remove c st = ([set_vector_list l st], Ok tt (set_vector_list l st)).
Proof. intros H. unfold vector_list_remove. by rewrite run_get_bind, H. Qed.

Lemma run_full_atom_list_remove r l st :
  list_remove Nat.eqb r (full_atom_list st) = Some l →
  full_atom_list_remove r st = ([set_full_atom_list l st], Ok tt (set_full_atom_list l st)).
Proof. intros H. unfold full_atom_list_remove. by rewrite run_get_bind, H. Qed.

(** No pair of the list refers to [d]. *)
Definition unreferenced (d : ref) (vl : list (ref * ref)) : Prop :=
  ∀ c, c ∈ vl → pair_origin c ≠ d ∧ pair_partner c ≠ d.

Lemma degree_zero_unreferenced d vl : degree d vl = 0 → unreferenced d vl.
Proof.
  induction vl as [|c vl IH]; intros Hd c' Hc'; [by apply elem_of_nil in Hc'|].
  simpl in Hd. pose proof (degree_nonneg d vl).
  destruct (Nat.eqb_spec (pair_origin c) d), (Nat.eqb_spec (pair_partner c) d); try lia.
  apply elem_of_cons in Hc' as [->|Hc']; [done|]. apply IH; [lia|done].
Qed.

(** An atom of degree 1 is named by exactly one pair, at one end. *)
Lemma degree_one_split d vl :
  degree d vl = 1 →
  ∃ l1 c l2,
    vl = l1 ++ c :: l2 ∧ unreferenced d l1 ∧ unreferenced d l2
    ∧ ((pair_origin c = d ∧ pair_partner c ≠ d) ∨ (pair_origin c ≠ d ∧ pair_partner c = d)).
Proof.
  induction vl as [|c vl IH]; intros Hd; [done|].
  simpl in Hd. pose proof (degree_nonneg d vl).
  destruct (Nat.eqb_spec (pair_origin c) d) as [Ho|Ho],
           (Nat.eqb_spec (pair_partner c) d) as [Hp|Hp]; try lia.
  - exists [], c, vl. split_and!; [done| |by apply degree_zero_unreferenced; lia|by left].
    intros c' Hc'. by apply elem_of_nil in Hc'.
  - exists [], c, vl. split_and!; [done| |by apply degree_zero_unreferenced; lia|by right].
    intros c' Hc'. by apply elem_of_nil in Hc'.
  - destruct IH as (l1 & c' & l2 & -> & H1 & H2 & Hc'); [lia|].
    exists (c :: l1), c', l2. split_and!; try done.
    intros c'' [->|Hc'']%elem_of_cons; [done|by apply H1].
Qed.

Lemma pair_eqb_eq c c' : pair_eqb c c' = true ↔ c = c'.
Proof.
  destruct c as [a b], c' as [a' b']. unfold pair_eqb; simpl.
  rewrite andb_true_iff, !Nat.eqb_eq. split; [by intros [-> ->]|by intros [= -> ->]].
Qed.

Lemma list_remove_first {A} (eqb : A → A → bool) x l1 l2 :
  (∀ y, y ∈ l1 → eqb y x = false) → eqb x x = true →
  list_remove eqb x (l1 ++ x :: l2) = Some (l1 ++ l2).
Proof.
  intros H1 Hx. induction l1 as [|y l1 IH]; simpl.
  - by rewrite Hx.
  - rewrite H1 by (by left). rewrite IH; [done|]. intros z Hz. apply H1. by right.
Qed.

Lemma list_remove_elem_of (x : ref) l :
  x ∈ l → ∃ l1 l2, l = l1 ++ x :: l2 ∧ (x ∉ l1) ∧ list_remove Nat.eqb x l = Some (l1 ++ l2).
Proof.
  induction l as [|y l IH]; intros Hx; [by apply elem_of_nil in Hx|].
  destruct (decide (y = x)) as [->|Hne].
  - exists [], l. simpl. rewrite Nat.eqb_refl. split_and!; [done| |done].
    intros H. by apply elem_of_nil in H.
  - apply elem_of_cons in Hx as [?|Hx]; [done|].
    destruct (IH Hx) as (l1 & l2 & -> & Hn & Hr).
    exists (y :: l1), l2. simpl. rewrite Hr.
    destruct (Nat.eqb_spec y x); [done|]. split_and!; [done| |done].
    intros [?|?]%elem_of_cons; done.
Qed.

(** The scan over a list that does not name the dangler changes nothing. *)
Lemma prune_scan_unreferenced d : ∀ fuel i st,
  unreferenced d (vector_list st) →
  (length (vector_list st) - i < fuel)%nat →
  prune_scan fuel d i st = ([], Ok tt st).
Proof.
  induction fuel as [|fuel IH]; intros i st Hun Hfuel; [lia|].
  cbn [prune_scan]. rewrite run_get_bind.
  destruct (vector_list st !! i) as [c|] eqn:Hc; [|done].
  destruct (Hun c) as [Ho Hp]; [by eapply list_elem_of_lookup_2|].
  apply Nat.eqb_neq in Ho, Hp. rewrite Ho, Hp, !run_ret_bind.
  apply IH; [done|]. apply lookup_lt_Some in Hc. lia.
Qed.

(** The scan over a list that names the dangler once, at one end of the
    pair [c]: the atom [e] at the other end loses one bond, then [c] is
    removed. *)
Lemma prune_scan_single d l1 c l2 e : ∀ fuel i st,
  vector_list st = l1 ++ c :: l2 →
  unreferenced d l1 → unreferenced d l2 →
  (pair_origin c = d ∧ pair_partner c = e ∨ pair_partner c = d ∧ pair_origin c = e) →
  e ≠ d →
  (i ≤ length l1)%nat →
  (length (vector_list st) - i < fuel)%nat →
  let st1 := set_heap (alter (add_to_bonds (-1)) e (heap st)) st in
  let st2 := set_vector_list (l1 ++ l2) st1 in
  prune_scan fuel d i st = ([st1; st2], Ok tt st2).
Proof.
  induction fuel as [|fuel IH]; intros i st Hvl H1 H2 Hc Hed Hi Hfuel st1 st2; [lia|].
  assert (list_remove pair_eqb c (l1 ++ c :: l2) = Some (l1 ++ l2)) as Hrm.
  { apply list_remove_first; [|by apply pair_eqb_eq].
    intros y Hy. destruct (pair_eqb y c) eqn:Heq; [|done].
    apply pair_eqb_eq in Heq as ->. destruct (H1 c Hy) as [Hno Hnp].
    by destruct Hc as [[? _]|[? _]]. }
  assert (unreferenced d (l1 ++ l2)) as H12.
  { intros y [Hy|Hy]%elem_of_app; [by apply H1|by apply H2]. }
  cbn [prune_scan]. rewrite run_get_bind.
  destruct (decide (i = length l1)) as [->|Hne].
  - rewrite Hvl, list_lookup_middle by done.
    assert (prune_scan fuel d (S (length l1)) st2 = ([], Ok tt st2)) as Hrest.
    { apply prune_scan_unreferenced; [done|]. subst st2 st1; simpl.
      rewrite Hvl in Hfuel. rewrite length_app in *; simpl in *. lia. }
    destruct Hc as [[Ho Hp]|[Hp Ho]].
    + rewrite Ho, Hp, Nat.eqb_refl.
      assert ((e =? d)%nat = false) as -> by by apply Nat.eqb_neq.
      eapply (run_bind _ _ _ [st1; st2]); [|rewrite run_ret_bind; exact Hrest].
      eapply (run_bind _ _ _ [st1] _ _ [st2]); [apply run_add_bonds|].
      apply run_vector_list_remove. subst st1; simpl. by rewrite Hvl.
    + rewrite Ho, Hp, Nat.eqb_refl.
      assert ((e =? d)%nat = false) as -> by by apply Nat.eqb_neq.
      rewrite run_ret_bind.
      eapply (run_bind _ _ _ [st1; st2]); [|exact Hrest].
      eapply (run_bind _ _ _ [st1] _ _ [st2]); [apply run_add_bonds|].
      apply run_vector_list_remove. subst st1; simpl. by rewrite Hvl.
  - assert (i < length l1)%nat as Hlt by lia.
    destruct (lookup_lt_is_Some_2 l1 i Hlt) as [c' Hc'].
    rewrite Hvl, lookup_app_l, Hc' by done.
    destruct (H1 c') as [Ho Hp]; [by eapply list_elem_of_lookup_2|].
    apply Nat.eqb_neq in Ho, Hp. rewrite Ho, Hp, !run_ret_bind.
    assert (length (vector_list st) = (length l1 + S (length l2))%nat)
      by (by rewrite Hvl, length_app).
    apply IH; try done; lia.
Qed.

(** No object has a negative counter. *)
Definition nonneg_bonds (st : Lattice) : Prop := ∀ r, 0 ≤ bonds (deref st r).

(** No atom of [full_atom_list] has exactly one bond. *)
Definition no_dangler (st : Lattice) : Prop :=
  ∀ a, a ∈ atoms st → bonds a ≠ 1.

Lemma find_none_no_dangler st :
  List.find (λ r, bonds (deref st r) =? 1) (full_atom_list st) = None → no_dangler st.
Proof.
  intros Hf a (r & -> & Hr)%list_elem_of_fmap Hb.
  eapply find_none in Hf; [|by apply list_elem_of_In]. simpl in Hf. lia.
Qed.

Lemma run_next_atom_bind {B} test (k : option ref → M B) st :
  (next_atom test ≫= k) st
  = k (List.find (λ r, test (deref st r)) (full_atom_list st)) st.
Proof. unfold mbind, M_bind, next_atom, get. simpl. by destruct (k _ st). Qed.

Lemma run_prune_step_break st :
  List.find (λ r, bonds (deref st r) =? 1) (full_atom_list st) = None →
  prune_step st = ([], Ok false st).
Proof.
  intros Hf. unfold prune_step. by rewrite run_next_atom_bind, Hf.
Qed.

(** One round of the loop on a dangler [d]: three writes, after which the
    link holds again. *)
Lemma run_prune_step_remove st d :
  linked st →
  List.find (λ r, bonds (deref st r) =? 1) (full_atom_list st) = Some d →
  ∃ st1 st2 st3,
    prune_step st = ([st1; st2; st3], Ok true st3)
    ∧ nonneg_bonds st1 ∧ nonneg_bonds st2 ∧ linked st3
    ∧ (length (full_atom_list st3) < length (full_atom_list st))%nat.
Proof.
  intros [Hnd Hv Hrefs Hdeg Hoth] Hf.
  apply find_elem_of in Hf as Hd. destruct Hd as [Hd Hb1].
  assert (degree d (vector_list st) = 1) as Hdeg1 by (rewrite <- Hdeg by done; lia).
  destruct (degree_one_split _ _ Hdeg1) as (l1 & c & l2 & Hvl & H1 & H2 & Hc).
  set (e := if (pair_origin c =? d)%nat then pair_partner c else pair_origin c).
  assert ((pair_origin c = d ∧ pair_partner c = e ∨ pair_partner c = d ∧ pair_origin c = e)
          ∧ e ≠ d) as [Hce Hed].
  { subst e. destruct Hc as [[Ho Hp]|[Ho Hp]].
    - rewrite Ho, Nat.eqb_refl. split; [by left|done].
    - apply Nat.eqb_neq in Ho as Ho'. rewrite Ho'. split; [by right|done]. }
  assert (e ∈ full_atom_list st) as He.
  { destruct (Hrefs c) as [Hco Hcp]; [rewrite Hvl; apply elem_of_app; right; by left|].
    by destruct Hce as [[_ <-]|[_ <-]]. }
  assert (e < length (heap st))%nat as Hev
    by (eapply Forall_forall in Hv; [|exact He]; done).
  assert (∀ r, degree r (vector_list st)
               = degree r (l1 ++ l2) + (if (pair_origin c =? r)%nat then 1 else 0)
                 + (if (pair_partner c =? r)%nat then 1 else 0)) as Hsplit.
  { intros r. rewrite Hvl, !degree_app. simpl. lia. }
  destruct (list_remove_elem_of d (full_atom_list st) Hd) as (f1 & f2 & Hfal & Hnf1 & Hrm).
  set (st1 := set_heap (alter (add_to_bonds (-1)) e (heap st)) st).
  set (st2 := set_vector_list (l1 ++ l2) st1).
  set (st3 := set_full_atom_list (f1 ++ f2) st2).
  assert (∀ r, bonds (deref st1 r) = bonds (deref st r) + (if (e =? r)%nat then -1 else 0))
    as Hb.
  { intros r. unfold deref; simpl. by rewrite bonds_alter. }
  assert (nonneg_bonds st1) as Hn1.
  { intros r. rewrite Hb. specialize (Hoth r).
    destruct (Nat.eqb_spec e r) as [<-|]; [|lia].
    rewrite Hdeg, Hsplit by done. pose proof (degree_nonneg e (l1 ++ l2)).
    destruct Hce as [[_ Hp]|[_ Ho]].
    - rewrite Hp, Nat.eqb_refl. destruct (pair_origin c =? e)%nat; lia.
    - rewrite Ho, Nat.eqb_refl. destruct (pair_partner c =? e)%nat; lia. }
  exists st1, st2, st3. split_and!; [| done | done | |].
  - unfold prune_step. rewrite run_next_atom_bind, Hf, run_get_bind.
    eapply (run_bind _ _ _ [st1; st2] _ _ [st3]).
    + apply (prune_scan_single d l1 c l2 e); [done..|lia|lia].
    + eapply (run_bind _ _ _ [st3] _ _ []); [|done].
      by apply run_full_atom_list_remove.
  - rewrite Hfal in Hnd. apply NoDup_app in Hnd as (Hnd1 & Hnd12 & Hnd2).
    apply NoDup_cons in Hnd2 as [Hnf2 Hnd2].
    assert (∀ r, r ∈ f1 ++ f2 → r ∈ full_atom_list st ∧ r ≠ d) as Hsub.
    { intros r Hr. split.
      - rewrite Hfal. apply elem_of_app in Hr as [?|?]; apply elem_of_app; [by left|].
        right. by right.
      - intros ->. by apply elem_of_app in Hr as [?|?]. }
    split.
    + simpl. apply NoDup_app. split_and!; [done| |done].
      intros r Hr1 Hr2. apply (Hnd12 r Hr1). by right.
    + unfold valid_refs; simpl. rewrite length_alter.
      apply Forall_forall. intros r Hr. destruct (Hsub r Hr) as [Hr' _].
      eapply Forall_forall in Hv; [|exact Hr']. done.
    + simpl. intros c' Hc'.
      assert (c' ∈ vector_list st) as Hin.
      { rewrite Hvl. apply elem_of_app in Hc' as [?|?]; apply elem_of_app; [by left|].
        right. by right. }
      assert (pair_origin c' ≠ d ∧ pair_partner c' ≠ d) as [Hod Hpd].
      { apply elem_of_app in Hc' as [?|?]; [by apply H1|by apply H2]. }
      destruct (Hrefs c' Hin) as [Ho Hp]. rewrite Hfal in Ho, Hp.
      split.
      * apply elem_of_app in Ho as [?|[?|?]%elem_of_cons]; apply elem_of_app;
          [by left|done|by right].
      * apply elem_of_app in Hp as [?|[?|?]%elem_of_cons]; apply elem_of_app;
          [by left|done|by right].
    + simpl. intros r Hr. destruct (Hsub r Hr) as [Hr' Hrd].
      change (deref st3 r) with (deref st1 r). rewrite Hb, Hdeg, Hsplit by done.
      destruct Hce as [[Ho Hp]|[Hp Ho]]; rewrite Ho, Hp.
      * assert ((d =? r)%nat = false) as -> by (apply Nat.eqb_neq; congruence).
        destruct (e =? r)%nat; lia.
      * assert ((d =? r)%nat = false) as -> by (apply Nat.eqb_neq; congruence).
        destruct (e =? r)%nat; lia.
    + exact Hn1.
  - subst st3; simpl. rewrite Hfal, !length_app; simpl. lia.
Qed.

(** A round of the loop returns, keeps the link, and writes only states
    without negative counters. *)
Lemma run_prune_step st :
  linked st →
  ∃ tr continue st',
    prune_step st = (tr, Ok continue st')
    ∧ Forall nonneg_bonds tr ∧ linked st'
    ∧ (if continue : bool
       then (length (full_atom_list st') < length (full_atom_list st))%nat
       else st' = st ∧ no_dangler st).
Proof.
  intros Hl.
  destruct (List.find (λ r, bonds (deref st r) =? 1) (full_atom_list st)) as [d|] eqn:Hf.
  - destruct (run_prune_step_remove st d Hl Hf) as (st1 & st2 & st3 & Hr & H1 & H2 & H3 & Hlt).
    exists [st1; st2; st3], true, st3. split_and!; try done.
    repeat constructor; try done. exact (linked_others st3 H3).
  - exists [], false, st. rewrite run_prune_step_break by done.
    split_and!; try done. by apply find_none_no_dangler.
Qed.

Lemma run_prune_loop : ∀ fuel st,
  linked st → (length (full_atom_list st) < fuel)%nat →
  ∃ tr st',
    prune_loop fuel st = (tr, Ok tt st')
    ∧ Forall nonneg_bonds tr ∧ linked st' ∧ no_dangler st'.
Proof.
  induction fuel as [|fuel IH]; intros st Hl Hfuel; [lia|].
  destruct (run_prune_step st Hl) as (tr & continue & st1 & Hr & Htr & Hl1 & Hc).
  cbn [prune_loop]. destruct continue.
  - destruct (IH st1 Hl1) as (tr' & st' & Hr' & Htr' & Hl' & Hnd); [lia|].
    exists (tr ++ tr'), st'. split_and!; try done.
    + by eapply run_bind.
    + by apply Forall_app.
  - destruct Hc as [-> Hnd]. exists (tr ++ []), st. split_and!; try done.
    + by eapply run_bind.
    + by rewrite app_nil_r.
Qed.

Lemma run_prune_vectors st :
  linked st →
  ∃ tr st',
    _prune_vectors st = (tr, Ok tt st')
    ∧ Forall nonneg_bonds tr ∧ linked st' ∧ no_dangler st'.
Proof.
  intros Hl. unfold _prune_vectors. rewrite run_get_bind.
  apply run_prune_loop; [done|lia].
Qed.

(** C2. From the state Phase 2 leaves, the pruning loop terminates without
    an exception; in the state it ends in, every atom of [full_atom_list]
    has no bond or at least two, so none has exactly one; and in the state
    it starts from and in every state written during the loop no [Atom]
    object, in the list or removed from it, has a negative [bonds]. *)
Theorem prune_terminal size pts conns cell_dims dangling symmetric st2 :
  exec (resolve_edges size pts conns cell_dims dangling symmetric) empty_lattice = Ok tt st2 →
  ∃ st',
    exec _prune_vectors st2 = Ok tt st'
    ∧ (∀ a, a ∈ atoms st' → bonds a = 0 ∨ 2 ≤ bonds a)
    ∧ (∀ a, a ∈ atoms st' → bonds a ≠ 1)
    ∧ nonneg_bonds st2
    ∧ Forall nonneg_bonds (trace _prune_vectors st2).
Proof.
  intros H12.
  assert (linked st2) as Hl
    by (eapply preserves_resolve_edges; [apply linked_empty | exact H12]).
  destruct (run_prune_vectors st2 Hl) as (tr & st' & Hr & Htr & Hl' & Hnd).
  exists st'. unfold exec, trace. rewrite Hr. simpl. split_and!; try done.
  - intros a Ha. pose proof (Hnd a Ha) as Hne.
    apply list_elem_of_fmap in Ha as (r & -> & Hr').
    pose proof (linked_others st' Hl' r). lia.
  - exact (linked_others st2 Hl).
Qed.

Lemma prune_terminal_witness :
  ∃ st',
    exec _prune_vectors
      (link_pair 0 1 (push_atoms [ ((0, 0, 0)%float, Some 1, Some (0, 0, 0));
                                   ((0.5, 0.5, 0.5)%float, Some 2, Some (0, 0, 0)) ]
                        empty_lattice)) = Ok tt st'
    ∧ (∀ a, a ∈ atoms st' → bonds a = 0 ∨ 2 ≤ bonds a)
    ∧ (∀ a, a ∈ atoms st' → bonds a ≠ 1)
    ∧ nonneg_bonds
        (link_pair 0 1 (push_atoms [ ((0, 0, 0)%float, Some 1, Some (0, 0, 0));
                                     ((0.5, 0.5, 0.5)%float, Some 2, Some (0, 0, 0)) ]
                          empty_lattice))
    ∧ Forall nonneg_bonds
        (trace _prune_vectors
           (link_pair 0 1 (push_atoms [ ((0, 0, 0)%float, Some 1, Some (0, 0, 0));
                                        ((0.5, 0.5, 0.5)%float, Some 2, Some (0, 0, 0)) ]
                             empty_lattice))).
Proof.
  apply (prune_terminal (1, 1, 1)
           [ {| point_id := 1; coords := (0, 0, 0)%float |};
             {| point_id := 2; coords := (0.5, 0.5, 0.5)%float |} ]
           [ {| origin := 1; partner := 2; cell_crossings := (0, 0, 0) |} ]
           (1, 1, 1)%float false true).
  vm_compute. reflexivity.
Defined.

(** The link of C9: every atom of [full_atom_list] carries as [bonds] the
    number of times [vector_list] names it. *)
Definition degree_link (st : Lattice) : Prop :=
  ∀ r, r ∈ full_atom_list st → bonds (deref st r) = degree r (vector_list st).

(** The first [k] rounds of the loop of [_prune_vectors], fewer when it
    breaks before. *)
Fixpoint prune_rounds (k : nat) : M unit :=
  match k with
  | O => mret tt
  | S k' => continue ← prune_step; if continue : bool then prune_rounds k' else mret tt
  end.

Lemma run_prune_rounds : ∀ k st,
  linked st → ∃ tr st', prune_rounds k st = (tr, Ok tt st') ∧ linked st'.
Proof.
  induction k as [|k IH]; intros st Hl; [by exists [], st|].
  destruct (run_prune_step st Hl) as (tr & continue & st1 & Hr & Htr & Hl1 & Hc).
  cbn [prune_rounds]. destruct continue.
  - destruct (IH st1 Hl1) as (tr' & st' & Hr' & Hl').
    exists (tr ++ tr'), st'. split; [by eapply run_bind|done].
  - exists (tr ++ []), st1. split; [by eapply run_bind|done].
Qed.

(** C9. In the state Phase 2 leaves, and in the state after any number of
    rounds of the pruning loop from there (each of which returns), every
    atom of [full_atom_list] has [bonds] equal to the number of times
    [vector_list] names it as origin or as partner. *)
Theorem degree_link_maintained size pts conns cell_dims dangling symmetric st2 :
  exec (resolve_edges size pts conns cell_dims dangling symmetric) empty_lattice = Ok tt st2 →
  degree_link st2
  ∧ ∀ k, ∃ st', exec (prune_rounds k) st2 = Ok tt st' ∧ degree_link st'.
Proof.
  intros H12.
  assert (linked st2) as Hl
    by (eapply preserves_resolve_edges; [apply linked_empty | exact H12]).
  split; [exact (linked_degree st2 Hl)|]. intros k.
  destruct (run_prune_rounds k st2 Hl) as (tr & st' & Hr & Hl').
  exists st'. unfold exec. rewrite Hr. split; [done|exact (linked_degree st' Hl')].
Qed.

Lemma degree_link_maintained_witness :
  degree_link
    (link_pair 0 1 (push_atoms [ ((0, 0, 0)%float, Some 1, Some (0, 0, 0));
                                 ((0.5, 0.5, 0.5)%float, Some 2, Some (0, 0, 0)) ]
                      empty_lattice))
  ∧ ∀ k, ∃ st',
      exec (prune_rounds k)
        (link_pair 0 1 (push_atoms [ ((0, 0, 0)%float, Some 1, Some (0, 0, 0));
                                     ((0.5, 0.5, 0.5)%float, Some 2, Some (0, 0, 0)) ]
                          empty_lattice)) = Ok tt st'
      ∧ degree_link st'.
Proof.
  apply (degree_link_maintained (1, 1, 1)
           [ {| point_id := 1; coords := (0, 0, 0)%float |};
             {| point_id := 2; coords := (0.5, 0.5, 0.5)%float |} ]
           [ {| origin := 1; partner := 2; cell_crossings := (0, 0, 0) |} ]
           (1, 1, 1)%float false true).
  vm_compute. reflexivity.
Defined.

(** ** The prune flag (C4) *)

Lemma no_dangler_find_none st :
  no_dangler st →
  List.find (λ r, bonds (deref st r) =? 1) (full_atom_list st) = None.
Proof.
  intros Hnd. destruct (List.find _ _) as [d|] eqn:Hf; [|done].
  apply find_elem_of in Hf as [Hd Hb]. exfalso.
  apply (Hnd (deref st d)); [|lia]. unfold atoms. by apply list_elem_of_fmap_2.
Qed.

Lemma exec_prune_vectors_no_dangler st :
  no_dangler st → exec _prune_vectors st = Ok tt st.
Proof.
  intros Hnd. unfold exec, _prune_vectors. rewrite run_get_bind. cbn [prune_loop].
  erewrite run_bind; [|by apply run_prune_step_break, no_dangler_find_none|done]. done.
Qed.

Lemma exec_build_lists size pts conns cell_dims dangling symmetric prune st2 :
  exec (resolve_edges size pts conns cell_dims dangling symmetric) empty_lattice = Ok tt st2 →
  exec (build_lists size pts conns cell_dims dangling symmetric prune) empty_lattice
  = exec ((if prune then _prune_vectors else mret tt) ;; populate_vectors) st2.
Proof.
  unfold resolve_edges, build_lists. rewrite !exec_bind.
  destruct (exec (phase1 _ _ _ _ _ _) _) as [m st1| |]; try done.
  rewrite exec_bind. intros ->. cbn beta iota. by rewrite exec_bind.
Qed.

(** C4, as the code has it. The build prunes whenever [prune] is set,
    whatever [dangling] is. The flag is without effect exactly on the builds
    that have nothing to prune: when no atom has one bond after Phase 2, the
    builds with [prune = True] and [prune = False] end alike (same outcome,
    same atom list, same bond list), in particular with [dangling = False]. *)
Theorem prune_flag_without_dangler size pts conns cell_dims dangling symmetric st2 :
  exec (resolve_edges size pts conns cell_dims dangling symmetric) empty_lattice = Ok tt st2 →
  no_dangler st2 →
  exec (build_lists size pts conns cell_dims dangling symmetric true) empty_lattice
  = exec (build_lists size pts conns cell_dims dangling symmetric false) empty_lattice.
Proof.
  intros H12 Hnd. rewrite !(exec_build_lists _ _ _ _ _ _ _ st2) by done.
  by rewrite !exec_bind, exec_prune_vectors_no_dangler, exec_ret.
Qed.

(** Two points joined by two connections: both atoms have two bonds. *)
Lemma prune_flag_without_dangler_witness :
  exec (build_lists (1, 1, 1)
          [ {| point_id := 1; coords := (0, 0, 0)%float |};
            {| point_id := 2; coords := (0.5, 0.5, 0.5)%float |} ]
          [ {| origin := 1; partner := 2; cell_crossings := (0, 0, 0) |};
            {| origin := 2; partner := 1; cell_crossings := (0, 0, 0) |} ]
          (1, 1, 1)%float false true true) empty_lattice
  = exec (build_lists (1, 1, 1)
          [ {| point_id := 1; coords := (0, 0, 0)%float |};
            {| point_id := 2; coords := (0.5, 0.5, 0.5)%float |} ]
          [ {| origin := 1; partner := 2; cell_crossings := (0, 0, 0) |};
            {| origin := 2; partner := 1; cell_crossings := (0, 0, 0) |} ]
          (1, 1, 1)%float false true false) empty_lattice.
Proof.
  eapply prune_flag_without_dangler.
  - vm_compute. reflexivity.
  - apply find_none_no_dangler. vm_compute. reflexivity.
Defined.

(** The template of the specification's scenario: two points, one
    connection inside the cell. *)
Definition scenario_points : list Point :=
  [ {| point_id := 1; coords := (0, 0, 0)%float |};
    {| point_id := 2; coords := (0.5, 0.5, 0.5)%float |} ].
Definition scenario_connections : list Connection :=
  [ {| origin := 1; partner := 2; cell_crossings := (0, 0, 0) |} ].

(** C4 as stated fails: with [dangling = False] on a 2 by 1 by 1 grid the
    build without pruning ends with 4 atoms and 2 bonds, the build with
    pruning with 2 atoms and no bond. *)
Lemma prune_flag_counterexample :
  ∃ st_keep st_prune,
    exec (build_lists (2, 1, 1) scenario_points scenario_connections (1, 1, 1)%float
            false true false) empty_lattice = Ok tt st_keep
    ∧ exec (build_lists (2, 1, 1) scenario_points scenario_connections (1, 1, 1)%float
              false true true) empty_lattice = Ok tt st_prune
    ∧ id <$> atoms st_keep = [1; 2; 3; 4]
    ∧ id <$> atoms st_prune = [2; 4]
    ∧ length (full_bond_list st_keep) = 2%nat
    ∧ full_bond_list st_prune = [].
Proof.
  eexists _, _. split; [vm_compute; reflexivity|]. split; [vm_compute; reflexivity|].
  split_and!; reflexivity.
Qed.

(** ** Phase 1 with one connection across the +x face (C7) *)

(** Membership in the grid, decided on the coordinates. *)
Definition in_grid (size c : ivec3) : bool :=
  let '(nx, ny, nz) := size in
  let '(x, y, z) := c in
  (0 <=? x) && (x <? nx) && (0 <=? y) && (y <? ny) && (0 <=? z) && (z <? nz).

Lemma iv_eqb_eq u v : iv_eqb u v = true ↔ u = v.
Proof.
  destruct u as [[x y] z], v as [[a b] c]. unfold iv_eqb.
  rewrite !andb_true_iff, !Z.eqb_eq. split; [by intros [[-> ->] ->]|by intros [= -> -> ->]].
Qed.

Lemma iv_eqb_refl u : iv_eqb u u = true.
Proof. by apply iv_eqb_eq. Qed.

Lemma In_range n x : In x (range n) ↔ 0 ≤ x < n.
Proof.
  unfold range. rewrite <- list_elem_of_In, list_elem_of_fmap. split.
  - intros (k & -> & Hk). apply list_elem_of_In, in_seq in Hk. lia.
  - intros Hx. exists (Z.to_nat x). split; [lia|]. apply list_elem_of_In, in_seq. lia.
Qed.

Lemma In_cell_list nx ny nz x y z :
  In (x, y, z) (cell_list (nx, ny, nz)) ↔ (0 ≤ x < nx ∧ 0 ≤ y < ny ∧ 0 ≤ z < nz).
Proof.
  unfold cell_list, product. rewrite in_flat_map. split.
  - intros (x' & Hx & Hin). apply in_flat_map in Hin as (y' & Hy & Hin).
    apply in_map_iff in Hin as (z' & Heq & Hz). injection Heq as <- <- <-.
    apply In_range in Hx, Hy, Hz. done.
  - intros (Hx & Hy & Hz). exists x. split; [by apply In_range|].
    apply in_flat_map. exists y. split; [by apply In_range|].
    apply in_map_iff. exists z. split; [done|by apply In_range].
Qed.

Lemma cell_in_grid size c : cell_in c (cell_list size) = in_grid size c.
Proof.
  destruct size as [[nx ny] nz], c as [[x y] z].
  apply eq_true_iff_eq. unfold cell_in, in_grid.
  rewrite existsb_exists, !andb_true_iff, !Z.leb_le, !Z.ltb_lt. split.
  - intros (c' & Hin & <-%iv_eqb_eq). apply In_cell_list in Hin. lia.
  - intros H. exists (x, y, z). split; [apply In_cell_list; lia|apply iv_eqb_refl].
Qed.

(** No atom of the list is tagged with the cell [c]. *)
Definition vacant (c : ivec3) (st : Lattice) : Prop :=
  ∀ a, a ∈ atoms st → owning_cell a ≠ Some c.

Lemma vacant_find pt c st :
  vacant c st →
  List.find (λ r, is_atom_of pt c (deref st r)) (full_atom_list st) = None.
Proof.
  intros Hv. destruct (List.find _ _) as [r|] eqn:Hf; [|done].
  apply find_elem_of in Hf as [Hr Hm]. exfalso.
  apply (Hv (deref st r)); [unfold atoms; by apply list_elem_of_fmap_2|].
  unfold is_atom_of in Hm.
  destruct (point_type (deref st r)); [|done].
  destruct (owning_cell (deref st r)) as [oc|]; [|done].
  apply andb_true_iff in Hm as [_ ->%iv_eqb_eq]. done.
Qed.

Lemma elem_of_atoms_from a first l :
  a ∈ atoms_from first l → ∃ s, s ∈ l ∧ owning_cell a = s.2 ∧ point_type a = s.1.2.
Proof.
  revert first. induction l as [|s l IH]; intros first Ha; [by apply elem_of_nil in Ha|].
  simpl in Ha. apply elem_of_cons in Ha as [->|Ha].
  - exists s. split; [by left|done].
  - destruct (IH _ Ha) as (s' & Hs' & Ho). exists s'. split; [by right|done].
Qed.

Lemma vacant_push_atoms c l st :
  valid_refs st → vacant c st → (∀ s, s ∈ l → s.2 ≠ Some c) →
  vacant c (push_atoms l st).
Proof.
  intros Hv Hvac Hl a Ha.
  destruct (atoms_push_atoms l st Hv) as (Hat & _ & _). rewrite Hat in Ha.
  apply elem_of_app in Ha as [Ha|Ha]; [by apply Hvac|].
  apply elem_of_atoms_from in Ha as (s & Hs & -> & _). by apply Hl.
Qed.

Lemma valid_refs_push_atoms l st : valid_refs st → valid_refs (push_atoms l st).
Proof. intros Hv. by destruct (atoms_push_atoms l st Hv) as (_ & H & _). Qed.

Lemma exec_next_coords pts pid item st :
  List.find (λ item, point_id item =? pid) pts = Some item →
  exec (next_coords pts pid) st = Ok (coords item) st.
Proof. intros H. unfold next_coords. by rewrite H. Qed.

Section OneCrossing.
Variable size : ivec3.
Variable pts : list Point.
Variable cell_dims : vec3.
Variable conn : Connection.
Variables partner_point origin_point : Point.
Hypothesis crossing : cell_crossings conn = (1, 0, 0).
Hypothesis partner_found :
  List.find (λ item, point_id item =? partner conn) pts = Some partner_point.
Hypothesis origin_found :
  List.find (λ item, point_id item =? origin conn) pts = Some origin_point.

(** The boundary atom beyond the +x face that the cell [c] asks for. *)
Definition plus_specs (c : ivec3) : list atom_spec :=
  let target_cell := iv_add c (1, 0, 0) in
  if in_grid size target_cell then []
  else [ (np_add (np_multiply (ivec_to_vec target_cell) cell_dims) (coords partner_point),
          Some (partner conn), Some target_cell) ].

(** The mirrored boundary atom before the -x face. *)
Definition minus_specs (c : ivec3) : list atom_spec :=
  let mirrored_target_cell := iv_subtract c (1, 0, 0) in
  if in_grid size mirrored_target_cell then []
  else [ (np_add (np_multiply (ivec_to_vec mirrored_target_cell) cell_dims)
                 (coords origin_point),
          Some (origin conn), Some mirrored_target_cell) ].

Definition mirrored_of (c : ivec3) : list (Connection * ivec3) :=
  if in_grid size (iv_subtract c (1, 0, 0)) then []
  else [ ({| origin := partner conn; partner := origin conn;
             cell_crossings := (-1, 0, 0) |}, c) ].

(** All atoms Phase 1 makes for the cell [c]. *)
Definition crossing_specs (c : ivec3) : list atom_spec :=
  cell_specs pts cell_dims c ++ plus_specs c ++ minus_specs c.

Lemma shifted_cells_differ (c : ivec3) : iv_add c (1, 0, 0) ≠ iv_subtract c (1, 0, 0).
Proof. destruct c as [[x y] z]. simpl. intros [= H]. lia. Qed.

Lemma discover_boundary_exec c m st :
  valid_refs st →
  (in_grid size (iv_add c (1, 0, 0)) = false → vacant (iv_add c (1, 0, 0)) st) →
  (in_grid size (iv_subtract c (1, 0, 0)) = false → vacant (iv_subtract c (1, 0, 0)) st) →
  exec (discover_boundary size pts cell_dims true c m conn) st
  = Ok (m ++ mirrored_of c) (push_atoms (plus_specs c ++ minus_specs c) st).
Proof.
  intros Hv Hplus Hminus. unfold discover_boundary, plus_specs, minus_specs, mirrored_of.
  rewrite crossing, !cell_in_grid, exec_bind.
  assert (vacant (iv_subtract c (1, 0, 0))
            (push_atoms (plus_specs c) st) ∨ in_grid size (iv_subtract c (1, 0, 0)) = true)
    as Hminus'.
  { destruct (in_grid size (iv_subtract c (1, 0, 0))) eqn:Hg; [by right|left].
    apply vacant_push_atoms; [done|by apply Hminus|].
    unfold plus_specs. intros s Hs. destruct (in_grid size (iv_add c (1, 0, 0)));
      [by apply elem_of_nil in Hs|].
    apply list_elem_of_singleton in Hs as ->. simpl.
    intros [= H]. by apply shifted_cells_differ in H. }
  unfold plus_specs in Hminus'.
  destruct (in_grid size (iv_add c (1, 0, 0))) eqn:Hg1; simpl negb; cbn iota.
  - rewrite exec_ret. simpl app.
    destruct (in_grid size (iv_subtract c (1, 0, 0))) eqn:Hg2; simpl negb; cbn iota.
    + rewrite exec_ret. by rewrite app_nil_r.
    + rewrite exec_bind, (exec_next_coords _ _ _ _ origin_found).
      rewrite exec_bind, exec_next_atom, vacant_find by (by apply Hminus).
      by exec_steps.
  - rewrite exec_bind, (exec_next_coords _ _ _ _ partner_found).
    rewrite exec_bind, exec_next_atom, vacant_find by (by apply Hplus).
    exec_steps.
    destruct (in_grid size (iv_subtract c (1, 0, 0))) eqn:Hg2; simpl negb; cbn iota.
    + by rewrite exec_ret, app_nil_r.
    + destruct Hminus' as [Hvac|?]; [|done].
      rewrite exec_bind, (exec_next_coords _ _ _ _ origin_found).
      rewrite exec_bind, exec_next_atom, vacant_find by done.
      by exec_steps.
Qed.

End OneCrossing.

Lemma in_grid_true nx ny nz x y z :
  in_grid (nx, ny, nz) (x, y, z) = true ↔ 0 ≤ x < nx ∧ 0 ≤ y < ny ∧ 0 ≤ z < nz.
Proof. unfold in_grid. rewrite !andb_true_iff, !Z.leb_le, !Z.ltb_lt. lia. Qed.

Lemma in_grid_false nx ny nz x y z :
  in_grid (nx, ny, nz) (x, y, z) = false ↔ ¬ (0 ≤ x < nx ∧ 0 ≤ y < ny ∧ 0 ≤ z < nz).
Proof. by rewrite <- not_true_iff_false, in_grid_true. Qed.

(** The cells the atoms made for the cell [c] are tagged with. *)
Lemma crossing_specs_owner size pts cell_dims conn pp op c s :
  s ∈ crossing_specs size pts cell_dims conn pp op c →
  s.2 = Some c
  ∨ (s.2 = Some (iv_add c (1, 0, 0)) ∧ in_grid size (iv_add c (1, 0, 0)) = false)
  ∨ (s.2 = Some (iv_subtract c (1, 0, 0)) ∧ in_grid size (iv_subtract c (1, 0, 0)) = false).
Proof.
  unfold crossing_specs, cell_specs, plus_specs, minus_specs.
  intros [Hs|[Hs|Hs]%elem_of_app]%elem_of_app.
  - apply list_elem_of_In, in_map_iff in Hs as (p & <- & _). by left.
  - destruct (in_grid size (iv_add c (1, 0, 0))); [by apply elem_of_nil in Hs|].
    apply list_elem_of_singleton in Hs as ->. right; by left.
  - destruct (in_grid size (iv_subtract c (1, 0, 0))); [by apply elem_of_nil in Hs|].
    apply list_elem_of_singleton in Hs as ->. right; by right.
Qed.

(** The atoms of one cell leave the boundary cells of another cell vacant. *)
Lemma crossing_specs_elsewhere size pts cell_dims conn pp op c c' s :
  s ∈ crossing_specs size pts cell_dims conn pp op c →
  in_grid size c = true → in_grid size c' = true → c ≠ c' →
  (in_grid size (iv_add c' (1, 0, 0)) = false → s.2 ≠ Some (iv_add c' (1, 0, 0)))
  ∧ (in_grid size (iv_subtract c' (1, 0, 0)) = false
     → s.2 ≠ Some (iv_subtract c' (1, 0, 0))).
Proof.
  intros Hs Hc Hc' Hne. apply crossing_specs_owner in Hs.
  destruct size as [[nx ny] nz], c as [[x y] z], c' as [[x' y'] z'].
  simpl iv_add in *. simpl iv_subtract in *.
  rewrite !in_grid_true in *. rewrite !in_grid_false in *.
  split; intros Hout Heq; destruct Hs as [Hs|[[Hs Hg]|[Hs Hg]]];
    rewrite Hs in Heq; injection Heq as H1 H2 H3;
    first [lia | apply Hne; f_equal; [f_equal|]; lia].
Qed.

Section OneCrossingFold.
Variable size : ivec3.
Variable pts : list Point.
Variable cell_dims : vec3.
Variable conn : Connection.
Variables partner_point origin_point : Point.
Hypothesis crossing : cell_crossings conn = (1, 0, 0).
Hypothesis partner_found :
  List.find (λ item, point_id item =? partner conn) pts = Some partner_point.
Hypothesis origin_found :
  List.find (λ item, point_id item =? origin conn) pts = Some origin_point.

Abbreviation specs := (crossing_specs size pts cell_dims conn partner_point origin_point).

(** The boundary cells of [c] that lie outside the grid are vacant. *)
Definition boundary_vacant (c : ivec3) (st : Lattice) : Prop :=
  (in_grid size (iv_add c (1, 0, 0)) = false → vacant (iv_add c (1, 0, 0)) st)
  ∧ (in_grid size (iv_subtract c (1, 0, 0)) = false → vacant (iv_subtract c (1, 0, 0)) st).

Lemma phase1_cell_exec c m st :
  valid_refs st → boundary_vacant c st →
  exec (phase1_cell size pts [conn] cell_dims true true m c) st
  = Ok (m ++ mirrored_of size conn c) (push_atoms (specs c) st).
Proof.
  intros Hv [Hplus Hminus]. unfold phase1_cell.
  rewrite exec_bind, replicate_points_exec. cbn [for_fold].
  rewrite exec_bind.
  rewrite (discover_boundary_exec size pts cell_dims conn partner_point origin_point);
    try done.
  - rewrite exec_ret. unfold crossing_specs.
    by rewrite (push_atoms_app (cell_specs pts cell_dims c)).
  - by apply valid_refs_push_atoms.
  - intros Hg. apply vacant_push_atoms; [done|by apply Hplus|].
    intros s Hs. apply list_elem_of_In, in_map_iff in Hs as (p & <- & _). simpl.
    destruct c as [[x y] z]. simpl. intros [= H]. lia.
  - intros Hg. apply vacant_push_atoms; [done|by apply Hminus|].
    intros s Hs. apply list_elem_of_In, in_map_iff in Hs as (p & <- & _). simpl.
    destruct c as [[x y] z]. simpl. intros [= H]. lia.
Qed.

Lemma phase1_fold_exec : ∀ cells m st,
  valid_refs st → NoDup cells →
  (∀ c, c ∈ cells → in_grid size c = true ∧ boundary_vacant c st) →
  exec (for_fold cells m (phase1_cell size pts [conn] cell_dims true true)) st
  = Ok (m ++ flat_map (mirrored_of size conn) cells) (push_atoms (flat_map specs cells) st).
Proof.
  induction cells as [|c cells IH]; intros m st Hv Hnd Hcells.
  - simpl. by rewrite app_nil_r.
  - apply NoDup_cons in Hnd as [Hc Hnd].
    destruct (Hcells c) as [Hg Hvac]; [by left|].
    cbn [for_fold flat_map]. rewrite exec_bind, phase1_cell_exec by done.
    rewrite IH, push_atoms_app, <- app_assoc; [done|by apply valid_refs_push_atoms|done|].
    intros c' Hc'. destruct (Hcells c') as [Hg' [Hp' Hm']]; [by right|].
    split; [done|]. split; intros Hout.
    + apply vacant_push_atoms; [done|by apply Hp'|]. intros s Hs.
      eapply crossing_specs_elsewhere; try done. by intros ->.
    + apply vacant_push_atoms; [done|by apply Hm'|]. intros s Hs.
      eapply crossing_specs_elsewhere; try done. by intros ->.
Qed.

End OneCrossingFold.

(** *** Counting the atoms on a face *)

(** [atom.owning_cell] has x index [k]. *)
Definition on_face (k : Z) (a : Atom) : bool :=
  match owning_cell a with
  | Some (x, _, _) => x =? k
  | None => false
  end.

Definition count_face (k : Z) (st : Lattice) : nat :=
  length (List.filter (on_face k) (atoms st)).

Definition spec_on_face (k : Z) (s : atom_spec) : bool :=
  match s.2 with
  | Some (x, _, _) => x =? k
  | None => false
  end.

Lemma filter_atoms_from k first l :
  length (List.filter (on_face k) (atoms_from first l))
  = length (List.filter (spec_on_face k) l).
Proof.
  revert first. induction l as [|s l IH]; intros first; [done|].
  cbn [atoms_from List.filter].
  change (on_face k (make_atom first s)) with (spec_on_face k s).
  destruct (spec_on_face k s); simpl; by rewrite IH.
Qed.

Lemma list_sum_cons {A} (f : A → nat) x l :
  list_sum (map f (x :: l)) = (f x + list_sum (map f l))%nat.
Proof. done. Qed.

Lemma length_filter_flat_map {A B} (P : B → bool) (f : A → list B) l :
  length (List.filter P (flat_map f l))
  = list_sum (map (λ x, length (List.filter P (f x))) l).
Proof.
  induction l as [|x l IH]; [done|].
  rewrite list_sum_cons. cbn [flat_map]. by rewrite List.filter_app, length_app, IH.
Qed.

Lemma list_sum_indicator {A} (P : A → bool) l :
  list_sum (map (λ x, if P x then 1 else 0)%nat l) = length (List.filter P l).
Proof.
  induction l as [|x l IH]; [done|].
  rewrite list_sum_cons, IH. cbn [List.filter]. by destruct (P x).
Qed.

Lemma list_sum_ext {A} (f g : A → nat) l :
  (∀ x, In x l → f x = g x) → list_sum (map f l) = list_sum (map g l).
Proof.
  intros H. induction l as [|x l IH]; [done|].
  rewrite !list_sum_cons, H by (by left). rewrite IH; [done|].
  intros y Hy. apply H. by right.
Qed.

Lemma length_filter_none {A} (P : A → bool) l :
  (∀ x, In x l → P x = false) → length (List.filter P l) = 0%nat.
Proof.
  intros H. induction l as [|x l IH]; [done|].
  cbn [List.filter]. rewrite H by (by left). apply IH. intros y Hy. apply H. by right.
Qed.

(** A value that occurs in a duplicate-free list is met once. *)
Lemma length_filter_eqb k l :
  List.NoDup l → In k l → length (List.filter (λ x, x =? k) l) = 1%nat.
Proof.
  induction 1 as [|x l Hx Hnd IH]; intros Hk; [done|].
  cbn [List.filter]. destruct (Z.eqb_spec x k) as [->|Hne].
  - simpl. f_equal. apply length_filter_none.
    intros y Hy. apply Z.eqb_neq. by intros ->.
  - apply IH. by destruct Hk.
Qed.

Lemma NoDup_range n : List.NoDup (range n).
Proof.
  unfold range. apply NoDup_ListNoDup, NoDup_fmap; [apply Nat2Z.inj'|].
  apply NoDup_ListNoDup, seq_NoDup.
Qed.

(** The cells of the grid with x index [k]: one per pair of the other two
    indices. *)
Lemma count_cells_x nx ny nz k :
  0 ≤ k < nx →
  length (List.filter (λ c : ivec3, c.1.1 =? k) (cell_list (nx, ny, nz)))
  = (Z.to_nat ny * Z.to_nat nz)%nat.
Proof.
  intros Hk. unfold cell_list, product. rewrite length_filter_flat_map.
  rewrite (list_sum_ext _ (λ x : Z, if x =? k then (Z.to_nat ny * Z.to_nat nz)%nat else 0%nat)).
  - transitivity (list_sum (map (λ x : Z, if (x =? k)%Z then 1%nat else 0%nat) (range nx))
                  * (Z.to_nat ny * Z.to_nat nz))%nat.
    + induction (range nx) as [|x l IH]; [done|].
      rewrite !list_sum_cons, Nat.mul_add_distr_r, <- IH. destruct (x =? k); lia.
    + rewrite list_sum_indicator, length_filter_eqb;
        [lia | apply NoDup_range | by apply In_range].
  - intros x _. rewrite length_filter_flat_map.
    rewrite (list_sum_ext _ (λ y : Z, if x =? k then Z.to_nat nz else 0%nat)).
    + destruct (x =? k).
      * rewrite <- (length_range ny). induction (range ny) as [|y l IH]; [done|].
        rewrite list_sum_cons, IH. cbn [length]. lia.
      * induction (range ny) as [|y l IH]; [done|]. by rewrite list_sum_cons, IH.
    + intros y _. destruct (x =? k) eqn:Hx.
      * rewrite <- (length_range nz). induction (range nz) as [|z l IH]; [done|].
        cbn [map List.filter]. simpl fst. rewrite Hx. simpl. by rewrite IH.
      * apply length_filter_none. intros c (z & <- & _)%in_map_iff. done.
Qed.

Lemma NoDup_flat_map {A B} (f : A → list B) l :
  NoDup l → (∀ x, NoDup (f x)) →
  (∀ x x' y, In y (f x) → In y (f x') → x = x') →
  NoDup (flat_map f l).
Proof.
  intros Hl Hf Hinj. induction Hl as [|x l Hx Hl IH]; [constructor|].
  cbn [flat_map]. apply NoDup_app. split_and!; [apply Hf| |done].
  intros y Hy Hy'. apply list_elem_of_In in Hy, Hy'.
  apply in_flat_map in Hy' as (x' & Hx' & Hy').
  rewrite (Hinj x x' y Hy Hy') in Hx. by apply list_elem_of_In in Hx'.
Qed.

Lemma NoDup_cell_list size : NoDup (cell_list size).
Proof.
  destruct size as [[nx ny] nz]. unfold cell_list, product.
  apply NoDup_flat_map; [apply NoDup_ListNoDup, NoDup_range| |].
  - intros x. apply NoDup_flat_map; [apply NoDup_ListNoDup, NoDup_range| |].
    + intros y. apply (NoDup_fmap_2 (λ z, (x, y, z))).
      apply NoDup_ListNoDup, NoDup_range.
    + intros y y' c (z & <- & _)%in_map_iff (z' & [= -> _] & _)%in_map_iff. done.
  - intros x x' c (y & _ & (z & <- & _)%in_map_iff)%in_flat_map
      (y' & _ & (z' & [= -> _ _] & _)%in_map_iff)%in_flat_map. done.
Qed.

Lemma find_point_exists pts pid :
  (∃ p, p ∈ pts ∧ point_id p = pid) →
  ∃ item, List.find (λ item, point_id item =? pid) pts = Some item.
Proof.
  intros (p & Hp & Hid). destruct (List.find _ pts) as [item|] eqn:Hf; [by eexists|].
  eapply find_none in Hf; [|by apply list_elem_of_In]. simpl in Hf. lia.
Qed.

Ltac eqb_cases :=
  repeat match goal with
         | |- context [Z.eqb ?a ?b] => destruct (Z.eqb_spec a b)
         | H : context [Z.eqb ?a ?b] |- _ => destruct (Z.eqb_spec a b)
         end.

(** Of the atoms made for a cell of the grid, the one tagged with x index
    [nx] exists when the cell is in the last layer, the one tagged with x
    index [-1] when it is in the first; they carry the partner's and the
    origin's point id. *)
Lemma crossing_specs_faces nx ny nz pts cell_dims conn pp op c :
  0 < nx → in_grid (nx, ny, nz) c = true →
  let specs := crossing_specs (nx, ny, nz) pts cell_dims conn pp op c in
  length (List.filter (spec_on_face nx) specs) = (if c.1.1 =? nx - 1 then 1%nat else 0%nat)
  ∧ length (List.filter (spec_on_face (-1)) specs) = (if c.1.1 =? 0 then 1%nat else 0%nat)
  ∧ (∀ s, s ∈ specs → spec_on_face nx s = true → s.1.2 = Some (partner conn))
  ∧ (∀ s, s ∈ specs → spec_on_face (-1) s = true → s.1.2 = Some (origin conn)).
Proof.
  intros Hnx Hc specs. subst specs. destruct c as [[x y] z].
  apply in_grid_true in Hc as Hc'.
  assert (∀ k, (k = nx ∨ k = -1) →
            ∀ s, In s (cell_specs pts cell_dims (x, y, z)) → spec_on_face k s = false)
    as Hbase.
  { intros k Hk s (p & <- & _)%in_map_iff. unfold spec_on_face; cbn [snd]. lia. }
  unfold crossing_specs, plus_specs, minus_specs. cbn [iv_add iv_subtract fst].
  destruct (in_grid (nx, ny, nz) (x + 1, y + 0, z + 0)) eqn:Hg1;
    [apply in_grid_true in Hg1 | apply in_grid_false in Hg1];
  (destruct (in_grid (nx, ny, nz) (x - 1, y - 0, z - 0)) eqn:Hg2;
    [apply in_grid_true in Hg2 | apply in_grid_false in Hg2]);
  rewrite !List.filter_app, !length_app, !(length_filter_none _ (cell_specs _ _ _))
    by (apply Hbase; lia);
  cbn [List.filter spec_on_face snd fst length app];
  (split_and!;
   [ eqb_cases; cbn [length]; lia
   | eqb_cases; cbn [length]; lia
   | intros s [Hs|Hs]%elem_of_app Hf;
     [ apply list_elem_of_In, (Hbase nx) in Hs; [congruence|lia] |];
     repeat (apply elem_of_cons in Hs as [->|Hs]); try (by apply elem_of_nil in Hs);
     cbn [spec_on_face snd fst] in *; try done; lia
   | intros s [Hs|Hs]%elem_of_app Hf;
     [ apply list_elem_of_In, (Hbase (-1)) in Hs; [congruence|lia] |];
     repeat (apply elem_of_cons in Hs as [->|Hs]); try (by apply elem_of_nil in Hs);
     cbn [spec_on_face snd fst] in *; try done; lia ]).
Qed.

(** C7, as the code has it. For a template whose single connection crosses
    (1, 0, 0) and names point ids the template has, on a grid of positive
    size with [dangling = True] and [symmetric = True], Phase 1 returns and
    leaves [ny * nz] atoms tagged with a cell of x index [nx], each an
    instance of the partner point, and [ny * nz] atoms tagged with a cell of
    x index [-1], each an instance of the origin point: both faces get
    boundary atoms, in equal number. *)
Theorem symmetric_boundary_faces nx ny nz pts cell_dims conn :
  0 < nx → 0 < ny → 0 < nz →
  cell_crossings conn = (1, 0, 0) →
  (∃ p, p ∈ pts ∧ point_id p = origin conn) →
  (∃ p, p ∈ pts ∧ point_id p = partner conn) →
  ∃ mirrored_bond_list st,
    exec (phase1 (nx, ny, nz) pts [conn] cell_dims true true) empty_lattice
    = Ok mirrored_bond_list st
    ∧ Z.of_nat (count_face nx st) = ny * nz
    ∧ Z.of_nat (count_face (-1) st) = ny * nz
    ∧ (0 < count_face nx st)%nat
    ∧ count_face nx st = count_face (-1) st
    ∧ (∀ a, a ∈ atoms st → on_face nx a = true → point_type a = Some (partner conn))
    ∧ (∀ a, a ∈ atoms st → on_face (-1) a = true → point_type a = Some (origin conn)).
Proof.
  intros Hnx Hny Hnz Hcross Ho Hp.
  destruct (find_point_exists _ _ Ho) as [op Hop].
  destruct (find_point_exists _ _ Hp) as [pp Hpp].
  set (size := (nx, ny, nz)).
  set (specs := crossing_specs size pts cell_dims conn pp op).
  assert (∀ c, In c (cell_list size) → in_grid size c = true) as Hgrid.
  { intros c Hc. rewrite <- cell_in_grid. apply existsb_exists.
    exists c. split; [done|apply iv_eqb_refl]. }
  assert (exec (phase1 size pts [conn] cell_dims true true) empty_lattice
          = Ok ([] ++ flat_map (mirrored_of size conn) (cell_list size))
               (push_atoms (flat_map specs (cell_list size)) empty_lattice)) as Hex.
  { unfold phase1. apply (phase1_fold_exec size pts cell_dims conn pp op); try done.
    - constructor.
    - apply NoDup_cell_list.
    - intros c Hc%list_elem_of_In. split; [by apply Hgrid|].
      split; intros _ a Ha; by apply elem_of_nil in Ha. }
  destruct (atoms_push_atoms (flat_map specs (cell_list size)) empty_lattice)
    as (Hat & _ & _); [constructor|].
  change (atoms empty_lattice) with (@nil Atom) in Hat.
  change (atom_count empty_lattice + 1) with 1 in Hat. rewrite app_nil_l in Hat.
  assert (∀ k, (k = nx ∨ k = -1) →
            count_face k (push_atoms (flat_map specs (cell_list size)) empty_lattice)
            = length (List.filter (λ c : ivec3, c.1.1 =? (if k =? nx then nx - 1 else 0))
                                  (cell_list size))) as Hcount.
  { intros k Hk. unfold count_face. rewrite Hat, filter_atoms_from, length_filter_flat_map.
    rewrite <- list_sum_indicator. apply list_sum_ext. intros c Hc.
    destruct (crossing_specs_faces nx ny nz pts cell_dims conn pp op c Hnx (Hgrid c Hc))
      as (H1 & H2 & _).
    destruct Hk as [->| ->].
    - by rewrite Z.eqb_refl.
    - assert ((-1 =? nx) = false) as -> by lia. done. }
  eexists _, _. split; [exact Hex|].
  rewrite !Hcount by lia. rewrite Z.eqb_refl.
  assert ((-1 =? nx) = false) as -> by lia.
  subst size. rewrite !count_cells_x by lia.
  split_and!; try lia.
  - intros a Ha Hf. rewrite Hat in Ha.
    apply elem_of_atoms_from in Ha as (s & Hs & Hown & ->).
    apply list_elem_of_In, in_flat_map in Hs as (c & Hc & Hs).
    destruct (crossing_specs_faces nx ny nz pts cell_dims conn pp op c Hnx (Hgrid c Hc))
      as (_ & _ & H3 & _).
    apply H3; [by apply list_elem_of_In|]. unfold on_face in Hf. unfold spec_on_face.
    by rewrite <- Hown.
  - intros a Ha Hf. rewrite Hat in Ha.
    apply elem_of_atoms_from in Ha as (s & Hs & Hown & ->).
    apply list_elem_of_In, in_flat_map in Hs as (c & Hc & Hs).
    destruct (crossing_specs_faces nx ny nz pts cell_dims conn pp op c Hnx (Hgrid c Hc))
      as (_ & _ & _ & H4).
    apply H4; [by apply list_elem_of_In|]. unfold on_face in Hf. unfold spec_on_face.
    by rewrite <- Hown.
Qed.

Lemma symmetric_boundary_faces_witness :
  ∃ mirrored_bond_list st,
    exec (phase1 (2, 3, 1)
            [ {| point_id := 1; coords := (0, 0, 0)%float |};
              {| point_id := 2; coords := (0.5, 0.5, 0.5)%float |} ]
            [ {| origin := 1; partner := 2; cell_crossings := (1, 0, 0) |} ]
            (1, 1, 1)%float true true) empty_lattice
    = Ok mirrored_bond_list st
    ∧ Z.of_nat (count_face 2 st) = 3 * 1
    ∧ Z.of_nat (count_face (-1) st) = 3 * 1
    ∧ (0 < count_face 2 st)%nat
    ∧ count_face 2 st = count_face (-1) st
    ∧ (∀ a, a ∈ atoms st → on_face 2 a = true → point_type a = Some 2)
    ∧ (∀ a, a ∈ atoms st → on_face (-1) a = true → point_type a = Some 1).
Proof.
  apply (symmetric_boundary_faces 2 3 1
           [ {| point_id := 1; coords := (0, 0, 0)%float |};
             {| point_id := 2; coords := (0.5, 0.5, 0.5)%float |} ]
           (1, 1, 1)%float
           {| origin := 1; partner := 2; cell_crossings := (1, 0, 0) |});
    [lia | lia | lia | reflexivity | |].
  - exists {| point_id := 1; coords := (0, 0, 0)%float |}. split; [by left|reflexivity].
  - exists {| point_id := 2; coords := (0.5, 0.5, 0.5)%float |}.
    split; [right; by left|reflexivity].
Defined.

(** C7 as stated fails on a template whose connection names a point id the
    template lacks: here the partner id 2. Phase 1 replicates the one
    point, reaches the boundary connection and raises [StopIteration]; no
    boundary atom exists on either face, and the build raises as well. *)
Lemma symmetric_boundary_counterexample :
  ∃ st,
    exec (phase1 (1, 1, 1) [ {| point_id := 1; coords := (0, 0, 0)%float |} ]
            [ {| origin := 1; partner := 2; cell_crossings := (1, 0, 0) |} ]
            (1, 1, 1)%float true true) empty_lattice
    = Raise StopIteration st
    ∧ count_face 1 st = 0%nat ∧ count_face (-1) st = 0%nat
    ∧ exec (build_lists (1, 1, 1) [ {| point_id := 1; coords := (0, 0, 0)%float |} ]
              [ {| origin := 1; partner := 2; cell_crossings := (1, 0, 0) |} ]
              (1, 1, 1)%float true true false) empty_lattice
      = Raise StopIteration st.
Proof.
  eexists. split; [vm_compute; reflexivity|]. split_and!; reflexivity.
Qed.

(** ** The template across a build (C6) *)

(** The cell is left with its connections and its dimensions, and with
    every point rescaled. *)
Lemma Lattice_init_cell cell size scale dangling symmetric prune :
  let cell' := (Lattice_init cell size scale dangling symmetric prune).1 in
  connections cell' = connections cell
  ∧ dims cell' = dims cell
  ∧ points cell' = scale_point scale <$> points cell.
Proof. done. Qed.

(** C6 fails in the code. A build with scale 2 of the scenario template
    leaves the second point of the cell at (1, 1, 1) instead of
    (0.5, 0.5, 0.5), while the cell's dimensions stay (1, 1, 1): the
    constructor rescales the cell's own [Point] objects. *)
Theorem Lattice_init_rescales_template :
  let cell := {| points := scenario_points; connections := scenario_connections;
                 dims := (1, 1, 1)%float |} in
  let cell' := (Lattice_init cell (1, 1, 1) 2 false true false).1 in
  coords <$> points cell = [ (0, 0, 0)%float; (0.5, 0.5, 0.5)%float ]
  ∧ coords <$> points cell' = [ (0, 0, 0)%float; (1, 1, 1)%float ]
  ∧ points cell' ≠ points cell
  ∧ dims cell' = (1, 1, 1)%float.
Proof.
  split_and!; [reflexivity | reflexivity | | reflexivity].
  intros H. by apply (f_equal (fmap coords)) in H.
Qed.

(** ** A missing template file (C5) *)

(** C5 fails in the code. With no file at the path, [_import_cell] prints
    its warning and assigns nothing; [Cell.__init__] then reads
    [self.points] and raises [AttributeError]: no cell is constructed. *)
Theorem Cell_init_missing_template point_list connection_list dimensions path :
  Cell_init (λ _, None) point_list connection_list dimensions (Some path)
  = ([ "Geometry template does not exist"%string ], inl AttributeError).
Proof. reflexivity. Qed.

(** With the file in place the construction returns the pickled geometry. *)
Lemma Cell_init_template_found fs point_list connection_list dimensions path pts conns d :
  fs path = Some (pts, conns, d) →
  ∃ out, Cell_init fs point_list connection_list dimensions (Some path)
         = (out, inr {| attr_points := Some pts; attr_connections := Some conns;
                        attr_dims := Some d |}).
Proof.
  intros Hfs. unfold Cell_init, _import_cell. rewrite Hfs. cbn [attr_points attr_dims].
  assert (∀ l, ∃ out, check_points (Some d) l = (out, None)) as Hcheck.
  { induction l as [|p l [out IH]]; [by exists []|]. cbn [check_points]. rewrite IH.
    by eexists. }
  destruct (Hcheck pts) as [out ->]. by eexists.
Qed.

(** ** The writer on an empty atom list (C10) *)

Lemma bounding_box_nonempty atom_list :
  atom_list ≠ [] →
  ∀ axes boxmin boxmax, ∃ r, bounding_box atom_list axes boxmin boxmax = inr r.
Proof.
  intros Hne. destruct atom_list as [|a atom_list]; [done|].
  induction axes as [|i axes IH]; intros boxmin boxmax; [by eexists|].
  cbn [bounding_box fmap list_fmap python_max python_min]. apply IH.
Qed.

Lemma phase1_empty_template size cell_dims dangling symmetric st :
  exec (phase1 size [] [] cell_dims dangling symmetric) st = Ok [] st.
Proof.
  unfold phase1. generalize (cell_list size) as cells.
  induction cells as [|c cells IH]; [done|].
  cbn [for_fold]. rewrite exec_bind. unfold phase1_cell at 1.
  rewrite exec_bind, replicate_points_exec. cbn [cell_specs map push_atoms fold_left].
  by destruct dangling.
Qed.

Lemma phase2_empty_template size st : exec (phase2 size [] []) st = Ok tt st.
Proof.
  unfold phase2. generalize (cell_list size) as cells.
  induction cells as [|c cells IH]; [done|].
  cbn [for_each]. by rewrite exec_bind.
Qed.

Lemma build_empty_template size cell_dims dangling symmetric prune :
  exec (build_lists size [] [] cell_dims dangling symmetric prune) empty_lattice
  = Ok tt empty_lattice.
Proof.
  rewrite (exec_build_lists _ _ _ _ _ _ _ empty_lattice).
  - rewrite exec_bind. destruct prune; [|done].
    rewrite exec_prune_vectors_no_dangler; [done|].
    intros a Ha. by apply elem_of_nil in Ha.
  - unfold resolve_edges. by rewrite exec_bind, phase1_empty_template, phase2_empty_template.
Qed.

(** C10. The writer raises [ValueError], in the bounding box and before it
    opens the file, exactly when the lattice's atom list is empty; on any
    other lattice it writes its file. The build over a template without
    points and connections ends with an empty atom list, so the writer
    raises on its lattice. *)
Theorem writer_needs_atoms format_float lattice filename :
  match full_atom_list lattice with
  | [] => LammpsDataWriter_init format_float lattice filename = inl ValueError
  | _ :: _ => ∃ data_file_lines,
      LammpsDataWriter_init format_float lattice filename = inr (filename, data_file_lines)
  end
  ∧ ∀ size cell_dims dangling symmetric prune,
      ∃ st, exec (build_lists size [] [] cell_dims dangling symmetric prune) empty_lattice
            = Ok tt st
            ∧ LammpsDataWriter_init format_float st filename = inl ValueError.
Proof.
  split.
  - unfold LammpsDataWriter_init, atoms.
    destruct (full_atom_list lattice) as [|r l]; [done|].
    destruct (bounding_box_nonempty (deref lattice <$> r :: l)) with
      (axes := [0; 1; 2]%nat) (boxmin := @nil float) (boxmax := @nil float)
      as [[boxmin boxmax] ->]; [done|]. by eexists.
  - intros. exists empty_lattice. split; [apply build_empty_template|done].
Qed.

(** ** The fuel of the pruning loops is enough on every state

    The loops of [_prune_vectors] are given as many rounds as they can need:
    from no state at all do they run out of them. *)

Lemma list_remove_length {A} (eqb : A → A → bool) x l l' :
  list_remove eqb x l = Some l' → length l = S (length l').
Proof.
  revert l'. induction l as [|y l IH]; intros l' H; [done|].
  simpl in H. destruct (eqb y x); [by injection H as <-|].
  destruct (list_remove eqb x l) as [l''|]; [|done].
  injection H as <-. simpl. f_equal. by apply IH.
Qed.

(** An outcome that is no loss of fuel and, when a result, comes with the
    same atom list and a vector list that is no longer. *)
Definition settles {A} (st : Lattice) (out : outcome A) : Prop :=
  match out with
  | Ok _ st' =>
      full_atom_list st' = full_atom_list st
      ∧ (length (vector_list st') ≤ length (vector_list st))%nat
  | Raise _ _ => True
  | OutOfFuel => False
  end.

Lemma settles_remove_block (b : bool) r c st :
  settles st (exec (if b then add_bonds r (-1) ;; vector_list_remove c else mret tt) st).
Proof.
  destruct b; [|by simpl].
  rewrite exec_bind, exec_add_bonds. unfold vector_list_remove.
  rewrite exec_bind, exec_get. cbn [vector_list set_heap].
  destruct (list_remove pair_eqb c (vector_list st)) as [l|] eqn:Hl; [|done].
  rewrite exec_put. apply list_remove_length in Hl. simpl. split; [done|lia].
Qed.

Lemma settles_prune_scan d : ∀ fuel i st,
  (length (vector_list st) - i < fuel)%nat → settles st (exec (prune_scan fuel d i) st).
Proof.
  induction fuel as [|fuel IH]; intros i st Hfuel; [lia|].
  cbn [prune_scan]. rewrite exec_bind, exec_get.
  destruct (vector_list st !! i) as [c|] eqn:Hc; [|by simpl].
  apply lookup_lt_Some in Hc. rewrite exec_bind.
  pose proof (settles_remove_block (pair_origin c =? d)%nat (pair_partner c) c st) as H1.
  destruct (exec (if (pair_origin c =? d)%nat then _ else _) st) as [[] st1| |]; try done.
  destruct H1 as [Hf1 Hl1]. rewrite exec_bind.
  pose proof (settles_remove_block (pair_partner c =? d)%nat (pair_origin c) c st1) as H2.
  destruct (exec (if (pair_partner c =? d)%nat then _ else _) st1) as [[] st2| |]; try done.
  destruct H2 as [Hf2 Hl2].
  pose proof (IH (S i) st2) as H3.
  destruct (exec (prune_scan fuel d (S i)) st2) as [[] st3| |]; simpl in *.
  - destruct H3 as [Hf3 Hl3]; [lia|]. split; [congruence|lia].
  - done.
  - apply H3. lia.
Qed.

Lemma prune_loop_fuel : ∀ fuel st,
  (length (full_atom_list st) < fuel)%nat → exec (prune_loop fuel) st ≠ OutOfFuel.
Proof.
  induction fuel as [|fuel IH]; intros st Hfuel; [lia|].
  cbn [prune_loop]. rewrite exec_bind. unfold prune_step at 1.
  rewrite exec_bind, exec_next_atom.
  destruct (List.find _ (full_atom_list st)) as [d|] eqn:Hf; [|done].
  apply find_elem_of in Hf as [Hd _].
  rewrite exec_bind, exec_get, exec_bind.
  pose proof (settles_prune_scan d (S (length (vector_list st))) 0 st) as Hs.
  destruct (exec (prune_scan _ d 0) st) as [[] st1| |]; simpl in Hs; try done.
  2:{ exfalso. apply Hs. lia. }
  destruct Hs as [Hfal _]; [lia|].
  rewrite exec_bind. unfold full_atom_list_remove. rewrite exec_bind, exec_get.
  destruct (list_remove_elem_of d (full_atom_list st1)) as (l1 & l2 & Hl & _ & ->);
    [by rewrite Hfal|].
  rewrite exec_put, exec_ret. apply IH. simpl.
  rewrite <- Hfal, Hl, !length_app in *. simpl in *. lia.
Qed.

Lemma prune_vectors_fuel st : exec _prune_vectors st ≠ OutOfFuel.
Proof.
  unfold _prune_vectors. rewrite exec_bind, exec_get. apply prune_loop_fuel. lia.
Qed.

(** ** The scenario of the specification

    Two points at (0, 0, 0) and (0.5, 0.5, 0.5), one connection inside the
    cell, a 2 by 1 by 1 grid, no dangling bonds: four atoms, two
    vector-pairs, one bond each, no filler atom. *)
Lemma scenario_build :
  ∃ st,
    (Lattice_init {| points := scenario_points; connections := scenario_connections;
                     dims := (1, 1, 1)%float |} (2, 1, 1) 1 false true false).2.2
    = Ok tt st
    ∧ id <$> atoms st = [1; 2; 3; 4]
    ∧ vector_list st = [(0, 1); (2, 3)]%nat
    ∧ full_bond_list st = [ {| bond_id := 1; point1 := 2; point2 := 1 |};
                            {| bond_id := 2; point1 := 4; point2 := 3 |} ].
Proof. eexists. split; [vm_compute; reflexivity|]. split_and!; reflexivity. Qed.

(** * The other methods *)

(** ** Cell.py: editing and saving a cell

    These methods run on a constructed cell, all of whose attributes are
    set. A method that prints returns its output with the cell it leaves. *)

(** [Connection(origin, partner, cell_crossings)]: [None] stands for
    (0, 0, 0). *)
Definition Connection_init (origin_id partner_id : Z) (crossings : option ivec3)
    : Connection :=
  {| origin := origin_id; partner := partner_id;
     cell_crossings := match crossings with Some c => c | None => (0, 0, 0) end |}.

Definition number_of_points (self : Cell) : Z := Z.of_nat (length (points self)).

Definition number_of_connections (self : Cell) : Z := Z.of_nat (length (connections self)).

(** [pickle.dump((self.points, self.connections, self.dims), geometry)] on
    the file opened for writing at [filename]: the file system afterwards. *)
Definition write_cell (fs : string → option (list Point * list Connection * vec3))
    (filename : string) (self : Cell)
    : string → option (list Point * list Connection * vec3) :=
  λ path, if String.eqb path filename
          then Some (points self, connections self, dims self)
          else fs path.

Definition add_point (self : Cell) (x y z : float) (new_id : option Z)
    : list string * Cell :=
  let new_id := match new_id with Some i => i | None => number_of_points self + 1 end in
  let self' := {| points := points self ++ [ {| point_id := new_id; coords := (x, y, z) |} ];
                  connections := connections self; dims := dims self |} in
  (if all_less_equal (x, y, z) (dims self') then []
   else [ ("Warning: New point " ++ str_of_int new_id
           ++ " falls outside current cell dimensions.")%string ],
   self').

(** [next((point for point in self.points if point.point_id == i), None)
    is not None] *)
Definition point_exists (self : Cell) (i : Z) : bool :=
  match List.find (λ point, point_id point =? i) (points self) with
  | Some _ => true
  | None => false
  end.

Definition add_connection (self : Cell) (origin_id partner_id : Z)
    (cell_offset : option ivec3) : list string * Cell :=
  let self' := {| points := points self;
                  connections := connections self
                                 ++ [Connection_init origin_id partner_id cell_offset];
                  dims := dims self |} in
  let origin_exists := point_exists self' origin_id in
  let partner_exists := point_exists self' partner_id in
  (if negb (origin_exists && partner_exists)
   then [ "Warning: at least one connected point does not currently exist"%string ]
   else [],
   self').

(** [set_cell_dims(x_new, y_new, z_new, rescale)] *)
Definition set_cell_dims (self : Cell) (x_new y_new z_new : float) (rescale : bool)
    : list string * Cell :=
  let new_dims := (x_new, y_new, z_new) in
  if rescale then
    let scaling_factors := vzip PrimFloat.div new_dims (dims self) in
    ([ "Rescaling particle positions"%string ],
     {| points := (λ point, {| point_id := point_id point;
                               coords := np_multiply (coords point) scaling_factors |})
                  <$> points self;
        connections := connections self; dims := new_dims |})
  else ([], {| points := points self; connections := connections self; dims := new_dims |}).





(** Saving a cell changes the file at that path only: a template at
    another path is imported as before. *)
Theorem write_cell_other_path fs filename cell other point_list connection_list dimensions :
  other ≠ filename →
  Cell_init (write_cell fs filename cell) point_list connection_list dimensions (Some other)
  = Cell_init fs point_list connection_list dimensions (Some other).
Proof.
  intros Hne. unfold Cell_init, _import_cell, write_cell.
  by apply String.eqb_neq in Hne as ->.
Qed.

Lemma write_cell_other_path_witness :
  Cell_init (write_cell (λ _, None) "a.pickle"
               {| points := []; connections := []; dims := (1, 1, 1)%float |})
            None None (1, 1, 1)%float (Some "b.pickle"%string)
  = Cell_init (λ _, None) None None (1, 1, 1)%float (Some "b.pickle"%string).
Proof. apply write_cell_other_path. by intros [=]. Defined.


(** A script that adds points one after the other without naming an id. *)
Fixpoint add_points (self : Cell) (coordinates : list vec3) : Cell :=
  match coordinates with
  | [] => self
  | (x, y, z) :: rest => add_points (add_point self x y z None).2 rest
  end.

Lemma add_points_ids coordinates : ∀ self,
  point_id <$> points (add_points self coordinates)
  = (point_id <$> points self)
    ++ ((λ k, Z.of_nat k + 1) <$> seq (length (points self)) (length coordinates)).
Proof.
  induction coordinates as [|[[x y] z] rest IH]; intros self.
  - simpl. by rewrite app_nil_r.
  - cbn [add_points length seq]. rewrite IH. cbn [add_point snd points number_of_points].
    rewrite fmap_app, <- app_assoc, length_app. cbn [length fmap list_fmap app].
    by replace (length (points self) + 1)%nat with (S (length (points self))) by lia.
Qed.

(** X3. Points added to a cell without points, none with an id of its
    own, get the ids 1, 2, ... in the order of their creation and keep the
    coordinates given. *)
Theorem add_points_contiguous self coordinates :
  points self = [] →
  point_id <$> points (add_points self coordinates)
  = (λ k, Z.of_nat k + 1) <$> seq 0 (length coordinates).
Proof. intros Hp. by rewrite add_points_ids, Hp. Qed.

Lemma add_points_contiguous_witness :
  point_id <$> points (add_points {| points := []; connections := [];
                                     dims := (1, 1, 1)%float |}
                                  [ (0, 0, 0)%float; (0.5, 0.5, 0.5)%float ])
  = (λ k, Z.of_nat k + 1) <$> seq 0 2.
Proof. by apply add_points_contiguous. Defined.

Lemma point_exists_iff self i :
  point_exists self i = true ↔ ∃ point, point ∈ points self ∧ point_id point = i.
Proof.
  unfold point_exists. destruct (List.find _ _) as [p|] eqn:Hf.
  - apply find_elem_of in Hf as [Hp Hid]. split; [|done]. intros _. exists p. split; [done|lia].
  - split; [done|]. intros (p & Hp & Hid).
    eapply find_none in Hf; [|by apply list_elem_of_In]. simpl in Hf. lia.
Qed.

(** X4. [add_connection] always appends the connection, with crossing
    (0, 0, 0) when none is given, and leaves points and dimensions; it
    prints its warning exactly when the origin id or the partner id is the
    id of no point of the cell. *)
Theorem add_connection_warns self origin_id partner_id cell_offset :
  let '(out, self') := add_connection self origin_id partner_id cell_offset in
  connections self'
  = connections self
    ++ [ {| origin := origin_id; partner := partner_id;
            cell_crossings := default (0, 0, 0) cell_offset |} ]
  ∧ points self' = points self
  ∧ dims self' = dims self
  ∧ (out = [] ↔ (∃ point, point ∈ points self ∧ point_id point = origin_id)
               ∧ (∃ point, point ∈ points self ∧ point_id point = partner_id))
  ∧ (out = [] ∨ out = [ "Warning: at least one connected point does not currently exist"%string ]).
Proof.
  unfold add_connection. split_and!; [by destruct cell_offset|done|done| |].
  - rewrite <- !(point_exists_iff self).
    change (point_exists {| points := points self; connections := ?c; dims := ?d |})
      with (point_exists self).
    destruct (point_exists self origin_id), (point_exists self partner_id); simpl;
      split; try done; intros [? ?]; done.
  - destruct (negb _); [by right|by left].
Qed.

Lemma set_cell_dims_keeps self x_new y_new z_new rescale :
  let self' := (set_cell_dims self x_new y_new z_new rescale).2 in
  dims self' = (x_new, y_new, z_new)
  ∧ connections self' = connections self
  ∧ point_id <$> points self' = point_id <$> points self
  ∧ (rescale = false → points self' = points self).
Proof.
  unfold set_cell_dims. destruct rescale; simpl; split_and!; try done.
  by rewrite <- list_fmap_compose.
Qed.

(** ** Lattice.py: what a build can do to the state

    Every change of state of [build_lists] is one of a few updates. Phase 1
    and Phase 2 make a template or boundary atom or link two atoms of the
    list; pruning takes a bond from a counter, a pair from the vector list
    or an atom from the atom list; chain discretization makes a filler atom
    or adds a bond numbered by the next [bond_count]. *)

(** The state after [self.bond_count += 1] and the [append] of line 174. *)
Definition bond_append (bond_origin bond_partner : Z) (st : Lattice) : Lattice :=
  set_full_bond_list
    (full_bond_list st ++
       [ {| bond_id := bond_count st + 1; point1 := bond_origin; point2 := bond_partner |} ])
    (set_bond_count (bond_count st + 1) st).

Inductive grow_update : Lattice → Lattice → Prop :=
  | grow_push pos pt oc st : grow_update st (push_atom (pos, Some pt, Some oc) st)
  | grow_link o p st :
      o ∈ full_atom_list st → p ∈ full_atom_list st → grow_update st (link_pair o p st).

Inductive prune_update : Lattice → Lattice → Prop :=
  | prune_unbond e st :
      prune_update st (set_heap (alter (add_to_bonds (-1)) e (heap st)) st)
  | prune_unpair c l st :
      list_remove pair_eqb c (vector_list st) = Some l →
      prune_update st (set_vector_list l st)
  | prune_unlist d l st :
      list_remove Nat.eqb d (full_atom_list st) = Some l →
      prune_update st (set_full_atom_list l st).

Inductive chain_update : Lattice → Lattice → Prop :=
  | chain_push pos st : chain_update st (push_atom (pos, None, None) st)
  | chain_bond_append bond_origin bond_partner st :
      chain_update st (bond_append bond_origin bond_partner st).

Inductive update : Lattice → Lattice → Prop :=
  | update_grow st st' : grow_update st st' → update st st'
  | update_prune st st' : prune_update st st' → update st st'
  | update_chain st st' : chain_update st st' → update st st'.

(** [m] changes the state by updates of the kind [R] only. *)
Definition by_updates {A} (R : Lattice → Lattice → Prop) (m : M A) : Prop :=
  ∀ st a st', exec m st = Ok a st' → rtc R st st'.

Lemma by_ret {A} R (a : A) : by_updates R (mret a).
Proof. intros st a' st' [= _ <-]. done. Qed.

Lemma by_raise {A} R e : by_updates R (raise e : M A).
Proof. by intros st a st' Hex. Qed.

Lemma by_bind {A B} R (m : M A) (k : A → M B) :
  by_updates R m → (∀ a, by_updates R (k a)) → by_updates R (m ≫= k).
Proof.
  intros Hm Hk st b st' Hex. rewrite exec_bind in Hex.
  destruct (exec m st) as [a st1| |] eqn:Hm1; try done.
  etrans; [by eapply Hm|by eapply Hk].
Qed.

(** After [get], the rest is run from the state it was given. *)
Lemma by_get_bind {B} R (k : Lattice → M B) :
  (∀ s b st', exec (k s) s = Ok b st' → rtc R s st') → by_updates R (get ≫= k).
Proof. intros Hk st b st' Hex. rewrite exec_bind, exec_get in Hex. by eapply Hk. Qed.

Lemma by_get_then {B} R (k : Lattice → M B) :
  (∀ s, by_updates R (k s)) → by_updates R (get ≫= k).
Proof. intros Hk. apply by_get_bind. intros s b st' Hex. by eapply Hk. Qed.

Lemma by_for_each {A} R (l : list A) (body : A → M unit) :
  (∀ x, by_updates R (body x)) → by_updates R (for_each l body).
Proof.
  intros Hb. induction l as [|x l IH]; simpl; [apply by_ret|].
  apply by_bind; [apply Hb | by intros _].
Qed.

Lemma by_for_fold {A B} R (l : list A) (b : B) (body : B → A → M B) :
  (∀ b x, by_updates R (body b x)) → by_updates R (for_fold l b body).
Proof.
  intros Hb. revert b. induction l as [|x l IH]; intros b; simpl; [apply by_ret|].
  apply by_bind; [apply Hb | done].
Qed.

Lemma by_mono {A} (R R' : Lattice → Lattice → Prop) (m : M A) :
  (∀ st st', R st st' → R' st st') → by_updates R m → by_updates R' m.
Proof. intros Hsub Hm st a st' Hex. eapply rtc_subrel; [exact Hsub|by eapply Hm]. Qed.

Lemma by_next_atom R test : by_updates R (next_atom test).
Proof. intros st a st' Hex. rewrite exec_next_atom in Hex. by injection Hex as _ <-. Qed.

Lemma by_next_coords R pts pid : by_updates R (next_coords pts pid).
Proof. unfold next_coords. destruct (List.find _ pts); [apply by_ret|apply by_raise]. Qed.

Lemma by_append_template_atom pos pt oc :
  by_updates grow_update (append_new_atom pos (Some pt) (Some oc)).
Proof.
  intros st a st' Hex. rewrite append_new_atom_exec in Hex. injection Hex as _ <-.
  apply rtc_once. constructor.
Qed.

Lemma by_discover_boundary size pts cell_dims symmetric c m conn :
  by_updates grow_update (discover_boundary size pts cell_dims symmetric c m conn).
Proof.
  unfold discover_boundary. apply by_bind.
  - destruct (negb _); [|apply by_ret].
    apply by_bind; [apply by_next_coords|intros coords].
    apply by_bind; [apply by_next_atom|intros [r|]]; [apply by_ret|].
    apply by_bind; [apply by_append_template_atom|intros; apply by_ret].
  - intros _. destruct symmetric; [|apply by_ret].
    destruct (negb _); [|apply by_ret].
    apply by_bind; [apply by_next_coords|intros coords].
    apply by_bind; [apply by_next_atom|intros found].
    apply by_bind; [|intros; apply by_ret].
    destruct found; [apply by_ret|].
    apply by_bind; [apply by_append_template_atom|intros; apply by_ret].
Qed.

Lemma by_discover_boundaries size pts conns cell_dims (dangling symmetric : bool) c m :
  by_updates grow_update
    (if dangling
     then for_fold conns m (discover_boundary size pts cell_dims symmetric c)
     else mret m).
Proof.
  destruct dangling; [|apply by_ret].
  apply by_for_fold. intros m' conn. apply by_discover_boundary.
Qed.

Lemma by_phase1_cell size pts conns cell_dims dangling symmetric m c :
  by_updates grow_update (phase1_cell size pts conns cell_dims dangling symmetric m c).
Proof.
  unfold phase1_cell. apply by_bind; [|intros _; apply by_discover_boundaries].
  apply by_for_each. intros point.
  apply by_bind; [apply by_append_template_atom|intros; apply by_ret].
Qed.

Lemma by_phase1 size pts conns cell_dims dangling symmetric :
  by_updates grow_update (phase1 size pts conns cell_dims dangling symmetric).
Proof. apply by_for_fold. intros m c. apply by_phase1_cell. Qed.

Lemma by_resolve_connection c conn : by_updates grow_update (resolve_connection c conn).
Proof.
  intros st a st' Hex. rewrite resolve_connection_exec in Hex. injection Hex as _ <-.
  destruct (List.find _ _) as [o|] eqn:Ho; [|done].
  destruct (List.find (λ r, is_atom_of (partner conn) _ _) _) as [p|] eqn:Hp; [|done].
  apply find_elem_of in Ho as [Ho _]. apply find_elem_of in Hp as [Hp _].
  apply rtc_once. by constructor.
Qed.

Lemma by_phase2 size conns m : by_updates grow_update (phase2 size conns m).
Proof.
  apply by_for_each. intros c. apply by_for_each. intros conn. apply by_resolve_connection.
Qed.

Lemma by_resolve_edges size pts conns cell_dims dangling symmetric :
  by_updates grow_update (resolve_edges size pts conns cell_dims dangling symmetric).
Proof. apply by_bind; [apply by_phase1|intros m; apply by_phase2]. Qed.

Lemma by_remove_block (b : bool) r c :
  by_updates prune_update
    (if b then add_bonds r (-1) ;; vector_list_remove c else mret tt).
Proof.
  destruct b; [|apply by_ret]. apply by_bind.
  - intros st a st' Hex. rewrite exec_add_bonds in Hex. injection Hex as _ <-.
    apply rtc_once. constructor.
  - intros _. apply by_get_bind. intros s b st' Hex.
    destruct (list_remove pair_eqb c (vector_list s)) as [l|] eqn:Hl; [|done].
    rewrite exec_put in Hex. injection Hex as _ <-. apply rtc_once. by econstructor.
Qed.

Lemma by_prune_scan d : ∀ fuel i, by_updates prune_update (prune_scan fuel d i).
Proof.
  induction fuel as [|fuel IH]; intros i; [by intros st a st' Hex|].
  cbn [prune_scan]. apply by_get_then. intros s.
  destruct (vector_list s !! i) as [c|]; [|apply by_ret].
  apply by_bind; [apply by_remove_block|intros _].
  apply by_bind; [apply by_remove_block|intros _]. apply IH.
Qed.

Lemma by_full_atom_list_remove d : by_updates prune_update (full_atom_list_remove d).
Proof.
  apply by_get_bind. intros s b st' Hex.
  destruct (list_remove Nat.eqb d (full_atom_list s)) as [l|] eqn:Hl; [|done].
  rewrite exec_put in Hex. injection Hex as _ <-. apply rtc_once. by econstructor.
Qed.

Lemma by_prune_step : by_updates prune_update prune_step.
Proof.
  apply by_bind; [apply by_next_atom|intros [d|]]; [|apply by_ret].
  apply by_get_then. intros s.
  apply by_bind; [apply by_prune_scan|intros _].
  apply by_bind; [apply by_full_atom_list_remove|intros _]. apply by_ret.
Qed.

Lemma by_prune_vectors : by_updates prune_update _prune_vectors.
Proof.
  apply by_get_then. intros s. generalize (S (length (full_atom_list s))) as fuel.
  clear. induction fuel as [|fuel IH]; [by intros st a st' Hex|].
  cbn [prune_loop]. apply by_bind; [apply by_prune_step|intros [|]]; [apply IH|apply by_ret].
Qed.

Lemma populate_segment_updates atoms vl step na i st na' st' :
  exec (populate_segment atoms vl step na i) st = Ok na' st' →
  ∃ bond_origin bond_partner,
    st' = bond_append bond_origin bond_partner st
    ∨ ∃ pos, st' = bond_append bond_origin bond_partner (push_atom (pos, None, None) st).
Proof.
  unfold populate_segment. intros Hex.
  destruct (i <? vl - 1); destruct (i =? 0);
    repeat (autorewrite with exec in Hex; cbn beta iota zeta in Hex).
  - injection Hex as _ <-. eexists _, _. right. by eexists.
  - injection Hex as _ <-. eexists _, _. right. by eexists.
  - injection Hex as _ <-. eexists _, _. by left.
  - destruct na as [r|]; repeat (autorewrite with exec in Hex; cbn beta iota zeta in Hex);
      [|done].
    injection Hex as _ <-. eexists _, _. by left.
Qed.

Lemma by_populate_segment atoms vl step na i :
  by_updates chain_update (populate_segment atoms vl step na i).
Proof.
  intros st na' st' Hex.
  apply populate_segment_updates in Hex as (bo & bp & [->|[pos ->]]).
  - apply rtc_once. constructor.
  - eapply rtc_l; [apply chain_push|]. apply rtc_once. constructor.
Qed.

Lemma by_populate_vector atoms : by_updates chain_update (_populate_vector atoms).
Proof.
  unfold _populate_vector. apply by_get_then. intros s. cbn beta zeta.
  destruct (floor_length _) as [e|n]; [apply by_raise|].
  apply by_bind; [|intros; apply by_ret].
  apply by_for_fold. intros na i. apply by_populate_segment.
Qed.

Lemma by_populate_vectors : by_updates chain_update populate_vectors.
Proof.
  apply by_get_then. intros s. apply by_for_each. intros atoms. apply by_populate_vector.
Qed.

Lemma by_build_lists size pts conns cell_dims dangling symmetric prune :
  by_updates update (build_lists size pts conns cell_dims dangling symmetric prune).
Proof.
  apply by_bind; [eapply by_mono; [apply update_grow|apply by_phase1]|intros m].
  apply by_bind; [eapply by_mono; [apply update_grow|apply by_phase2]|intros _].
  apply by_bind; [|intros _; eapply by_mono; [apply update_chain|apply by_populate_vectors]].
  destruct prune; [|apply by_ret].
  eapply by_mono; [apply update_prune|apply by_prune_vectors].
Qed.

(** ** Atom ids (the arena and the counter) *)

(** The atoms of the list are distinct objects of the arena, the object
    made as the [k]-th has id [k], and [atom_count] counts the objects. *)
Record numbered (st : Lattice) : Prop :=
  { numbered_nodup : NoDup (full_atom_list st);
    numbered_valid : valid_refs st;
    numbered_ids : ∀ r, (r < length (heap st))%nat → id (deref st r) = Z.of_nat r + 1;
    numbered_count : atom_count st = Z.of_nat (length (heap st)) }.

Lemma deref_alter_id f (r r' : ref) st :
  (∀ a, id (f a) = id a) →
  id (alter f r (heap st) !!! r') = id (deref st r').
Proof.
  intros Hf. unfold deref. rewrite list_lookup_total_alter.
  case_decide as H; [|done]. destruct H as [-> _]. apply Hf.
Qed.

Lemma list_remove_sublist {A} (eqb : A → A → bool) x l l' :
  list_remove eqb x l = Some l' → sublist l' l.
Proof.
  revert l'. induction l as [|y l IH]; intros l' H; [done|].
  simpl in H. destruct (eqb y x).
  - injection H as <-. by apply sublist_cons.
  - destruct (list_remove eqb x l) as [l''|]; [|done]. injection H as <-.
    apply sublist_skip. by apply IH.
Qed.

Lemma sublist_elem {A} (l' l : list A) x : sublist l' l → x ∈ l' → x ∈ l.
Proof.
  induction 1 as [|y l1 l2 _ IH|y l1 l2 _ IH]; [done| |].
  - intros [->|?]%elem_of_cons; [by left|right; by apply IH].
  - intros ?. right. by apply IH.
Qed.

Lemma sublist_all {A} (P : A → Prop) (l' l : list A) :
  sublist l' l → Forall P l → Forall P l'.
Proof.
  intros Hs Hl. apply Forall_forall. intros x Hx.
  eapply Forall_forall in Hl; [done|]. by eapply sublist_elem.
Qed.

Lemma numbered_alter f r st :
  (∀ a, id (f a) = id a) → numbered st → numbered (set_heap (alter f r (heap st)) st).
Proof.
  intros Hf [Hnd Hv Hids Hc]. split.
  - done.
  - unfold valid_refs. simpl. by rewrite length_alter.
  - simpl. intros r' Hr'. rewrite length_alter in Hr'.
    unfold deref at 1. simpl. rewrite deref_alter_id by done. by apply Hids.
  - simpl. by rewrite length_alter.
Qed.

Lemma numbered_other_fields st vl bl bc :
  numbered st → numbered (set_full_bond_list bl (set_bond_count bc (set_vector_list vl st))).
Proof. intros [Hnd Hv Hids Hc]. by split. Qed.

Lemma numbered_push_atom s st : numbered st → numbered (push_atom s st).
Proof.
  intros [Hnd Hv Hids Hc]. split.
  - simpl. apply NoDup_app. split_and!; [done| |apply NoDup_singleton].
    intros r Hr ->%list_elem_of_singleton.
    eapply Forall_forall in Hv; [|exact Hr]. simpl in Hv. lia.
  - by apply valid_refs_push_atom.
  - simpl. intros r Hr. rewrite length_app in Hr; simpl in Hr.
    destruct (decide (r = length (heap st))) as [->|Hne].
    + rewrite deref_push_atom_new. simpl. lia.
    + rewrite deref_push_atom_old by lia. apply Hids. lia.
  - simpl. rewrite length_app; simpl. lia.
Qed.

Lemma numbered_update st st' : numbered st → update st st' → numbered st'.
Proof.
  intros Hn Hup. destruct Hup as [? ? Hg|? ? Hp|? ? Hc].
  - destruct Hg as [pos pt oc st|o p st Ho Hp]; [by apply numbered_push_atom|].
    apply (numbered_alter (add_to_bonds 1) o) in Hn; [|done].
    apply (numbered_alter (add_to_bonds 1) p) in Hn; [|done].
    destruct Hn as [Hnd Hv Hids Hc]. by split.
  - destruct Hp as [e st|c l st Hl|d l st Hl].
    + by apply numbered_alter.
    + destruct Hn as [Hnd Hv Hids Hc]. by split.
    + apply list_remove_sublist in Hl. destruct Hn as [Hnd Hv Hids Hc]. split; simpl; try done.
      * by eapply sublist_NoDup.
      * unfold valid_refs; simpl. by eapply sublist_all.
  - destruct Hc as [pos st|bo bp st]; [by apply numbered_push_atom|].
    destruct Hn as [Hnd Hv Hids Hc]. by split.
Qed.

Lemma numbered_updates st st' : numbered st → rtc update st st' → numbered st'.
Proof. intros Hn Hr. induction Hr; [done|]. eauto using numbered_update. Qed.

Lemma numbered_empty : numbered empty_lattice.
Proof. split; simpl; [constructor|constructor|intros r Hr; lia|done]. Qed.

Lemma numbered_ids_unique st : numbered st → NoDup (id <$> atoms st).
Proof.
  intros [Hnd Hv Hids _]. unfold atoms. rewrite <- list_fmap_compose.
  apply NoDup_fmap_2_strong; [|done].
  intros r r' Hr Hr' Heq. simpl in Heq.
  eapply Forall_forall in Hr; [|exact Hv]. eapply Forall_forall in Hr'; [|exact Hv].
  simpl in Hr, Hr'. rewrite !Hids in Heq by done. lia.
Qed.

(** X5. When a build returns, the atoms of its atom list have pairwise
    distinct ids, each between 1 and [atom_count], and [atom_count] is the
    number of atoms the build has made, pruned ones included. *)
Theorem build_ids_unique size pts conns cell_dims dangling symmetric prune st :
  exec (build_lists size pts conns cell_dims dangling symmetric prune) empty_lattice
  = Ok tt st →
  NoDup (id <$> atoms st)
  ∧ (∀ a, a ∈ atoms st → 1 ≤ id a ≤ atom_count st)
  ∧ atom_count st = Z.of_nat (length (heap st))
  ∧ (length (atoms st) ≤ length (heap st))%nat.
Proof.
  intros Hex. apply by_build_lists in Hex.
  pose proof (numbered_updates _ _ numbered_empty Hex) as Hn.
  split_and!.
  - by apply numbered_ids_unique.
  - destruct Hn as [Hnd Hv Hids Hc]. intros a (r & -> & Hr)%list_elem_of_fmap.
    eapply Forall_forall in Hr; [|exact Hv]. simpl in Hr. rewrite Hids by done. lia.
  - apply Hn.
  - destruct Hn as [Hnd Hv Hids Hc]. unfold atoms. rewrite length_fmap.
    assert (full_atom_list st ⊆ seq 0 (length (heap st))) as Hsub.
    { intros r Hr. eapply Forall_forall in Hr; [|exact Hv]. simpl in Hr.
      apply list_elem_of_In, in_seq. lia. }
    apply NoDup_submseteq in Hsub; [|done].
    apply submseteq_length in Hsub. by rewrite length_seq in Hsub.
Qed.

Lemma build_ids_unique_witness :
  ∃ st,
    exec (build_lists (2, 1, 1) scenario_points scenario_connections (4, 4, 4)%float
            false true true) empty_lattice = Ok tt st
    ∧ NoDup (id <$> atoms st)
    ∧ (∀ a, a ∈ atoms st → 1 ≤ id a ≤ atom_count st)
    ∧ atom_count st = Z.of_nat (length (heap st))
    ∧ (length (atoms st) ≤ length (heap st))%nat.
Proof.
  eexists. split; [vm_compute; reflexivity|].
  apply (build_ids_unique (2, 1, 1) scenario_points scenario_connections (4, 4, 4)%float
           false true true).
  vm_compute. reflexivity.
Defined.

(** ** What pruning leaves alone *)

(** The fields of an atom that are set once, at its creation. *)
Definition same_atom (a a' : Atom) : Prop :=
  id a' = id a ∧ position a' = position a ∧ point_type a' = point_type a
  ∧ owning_cell a' = owning_cell a.

Record pruned (st st' : Lattice) : Prop :=
  { pruned_atoms : sublist (full_atom_list st') (full_atom_list st);
    pruned_pairs : sublist (vector_list st') (vector_list st);
    pruned_heap : length (heap st') = length (heap st);
    pruned_fields : ∀ r, same_atom (deref st r) (deref st' r);
    pruned_bonds : ∀ r, bonds (deref st' r) ≤ bonds (deref st r);
    pruned_bond_list : full_bond_list st' = full_bond_list st;
    pruned_atom_count : atom_count st' = atom_count st;
    pruned_bond_count : bond_count st' = bond_count st }.

Lemma pruned_refl st : pruned st st.
Proof. by split. Qed.

Lemma pruned_trans st1 st2 st3 : pruned st1 st2 → pruned st2 st3 → pruned st1 st3.
Proof.
  intros [Ha Hp Hh Hf Hb Hbl Hac Hbc] [Ha' Hp' Hh' Hf' Hb' Hbl' Hac' Hbc'].
  split.
  - by etrans.
  - by etrans.
  - congruence.
  - intros r. destruct (Hf r) as (? & ? & ? & ?), (Hf' r) as (? & ? & ? & ?).
    unfold same_atom. split_and!; congruence.
  - intros r. specialize (Hb r). specialize (Hb' r). lia.
  - congruence.
  - congruence.
  - congruence.
Qed.

Lemma pruned_update st st' : prune_update st st' → pruned st st'.
Proof.
  intros [e st0|c l st0 Hl|d l st0 Hl].
  - split; simpl; try done.
    + by rewrite length_alter.
    + intros r. unfold deref; simpl. rewrite list_lookup_total_alter.
      case_decide as H; [|done]. by destruct H as [-> _].
    + intros r. unfold deref; simpl. rewrite list_lookup_total_alter.
      case_decide as H; [|lia]. destruct H as [-> _]. simpl. lia.
  - split; simpl; try done; try (by eapply list_remove_sublist).
  - split; simpl; try done; try (by eapply list_remove_sublist).
Qed.

Lemma pruned_updates st st' : rtc prune_update st st' → pruned st st'.
Proof.
  induction 1 as [|st1 st2 st3 H12 _ IH]; [apply pruned_refl|].
  eapply pruned_trans; [by apply pruned_update|done].
Qed.

(** X6. From any state, when [_prune_vectors] returns it has only taken
    away: the atom list and the vector list it leaves are sublists, in the
    same order, of the ones it found; no atom object has changed its id,
    position, point type or owning cell, and no [bonds] counter has grown;
    the bond list and the two counters of the lattice are untouched. *)
Theorem prune_only_removes st st' :
  exec _prune_vectors st = Ok tt st' →
  sublist (full_atom_list st') (full_atom_list st)
  ∧ sublist (vector_list st') (vector_list st)
  ∧ (∀ r, same_atom (deref st r) (deref st' r) ∧ bonds (deref st' r) ≤ bonds (deref st r))
  ∧ full_bond_list st' = full_bond_list st
  ∧ atom_count st' = atom_count st
  ∧ bond_count st' = bond_count st.
Proof.
  intros Hex. apply by_prune_vectors, pruned_updates in Hex.
  destruct Hex as [Ha Hp Hh Hf Hb Hbl Hac Hbc]. by split_and!.
Qed.

Lemma prune_only_removes_witness :
  ∃ st',
    exec _prune_vectors chain_example = Ok tt st'
    ∧ sublist (full_atom_list st') (full_atom_list chain_example)
    ∧ sublist (vector_list st') (vector_list chain_example)
    ∧ (∀ r, same_atom (deref chain_example r) (deref st' r)
            ∧ bonds (deref st' r) ≤ bonds (deref chain_example r))
    ∧ full_bond_list st' = full_bond_list chain_example
    ∧ atom_count st' = atom_count chain_example
    ∧ bond_count st' = bond_count chain_example.
Proof.
  eexists. split; [vm_compute; reflexivity|].
  apply prune_only_removes. vm_compute. reflexivity.
Defined.

(** ** What chain discretization adds *)

(** [a], [a + 1], ..., [n] numbers in all. *)
Fixpoint count_from (a : Z) (n : nat) : list Z :=
  match n with
  | O => []
  | S n' => a :: count_from (a + 1) n'
  end.

Lemma count_from_app a n m :
  count_from a (n + m) = count_from a n ++ count_from (a + Z.of_nat n) m.
Proof.
  revert a. induction n as [|n IH]; intros a.
  - simpl. f_equal. lia.
  - simpl. rewrite IH. do 3 f_equal. lia.
Qed.

Lemma length_count_from a n : length (count_from a n) = n.
Proof. revert a. induction n as [|n IH]; intros a; simpl; [done|by rewrite IH]. Qed.

Lemma elem_of_count_from a n x : x ∈ count_from a n ↔ a ≤ x < a + Z.of_nat n.
Proof.
  revert a. induction n as [|n IH]; intros a; simpl.
  - rewrite elem_of_nil. lia.
  - rewrite elem_of_cons, IH. lia.
Qed.

(** A filler atom: no point type, no owning cell, no bond counted. *)
Definition is_filler (a : Atom) : Prop :=
  point_type a = None ∧ owning_cell a = None ∧ bonds a = 0.

(** [st'] is [st] with filler atoms and bonds added at the end: the atoms
    numbered on from [atom_count], the bonds from [bond_count]. *)
Definition chained (st st' : Lattice) : Prop :=
  ∃ fillers new_bonds,
    heap st' = heap st ++ fillers
    ∧ Forall is_filler fillers
    ∧ id <$> fillers = count_from (atom_count st + 1) (length fillers)
    ∧ full_atom_list st' = full_atom_list st ++ seq (length (heap st)) (length fillers)
    ∧ atom_count st' = atom_count st + Z.of_nat (length fillers)
    ∧ full_bond_list st' = full_bond_list st ++ new_bonds
    ∧ bond_id <$> new_bonds = count_from (bond_count st + 1) (length new_bonds)
    ∧ bond_count st' = bond_count st + Z.of_nat (length new_bonds)
    ∧ vector_list st' = vector_list st.

Lemma chained_refl st : chained st st.
Proof.
  exists [], []. simpl. rewrite !app_nil_r. split_and!; try done; lia.
Qed.

Lemma chained_trans st1 st2 st3 : chained st1 st2 → chained st2 st3 → chained st1 st3.
Proof.
  intros (f & b & Hh & Hf & Hid & Hl & Hac & Hbl & Hbid & Hbc & Hv)
         (f' & b' & Hh' & Hf' & Hid' & Hl' & Hac' & Hbl' & Hbid' & Hbc' & Hv').
  exists (f ++ f'), (b ++ b'). rewrite !length_app. split_and!.
  - by rewrite Hh', Hh, app_assoc.
  - by apply Forall_app.
  - rewrite fmap_app, count_from_app, Hid, Hid', Hac. do 2 f_equal. lia.
  - rewrite Hl', Hl, Hh, length_app, <- app_assoc, seq_app. done.
  - rewrite Hac', Hac. lia.
  - by rewrite Hbl', Hbl, app_assoc.
  - rewrite fmap_app, count_from_app, Hbid, Hbid', Hbc. do 2 f_equal. lia.
  - rewrite Hbc', Hbc. lia.
  - congruence.
Qed.

Lemma chained_update st st' : chain_update st st' → chained st st'.
Proof.
  intros [pos st0|bo bp st0].
  - exists [make_atom (atom_count st0 + 1) (pos, None, None)], []. simpl.
    rewrite !app_nil_r. split_and!; try done; try lia.
    by repeat constructor.
  - exists [], [ {| bond_id := bond_count st0 + 1; point1 := bo; point2 := bp |} ]. simpl.
    rewrite !app_nil_r. split_and!; try done; lia.
Qed.

Lemma chained_updates st st' : rtc chain_update st st' → chained st st'.
Proof.
  induction 1 as [|st1 st2 st3 H12 _ IH]; [apply chained_refl|].
  eapply chained_trans; [by apply chained_update|done].
Qed.

(** X7. From any state, when [_populate_vector] returns it has only added
    at the end: the atom objects there were are as they were, bonds
    included; the new atoms are fillers (no point type, no owning cell, no
    bond counted) with the ids following [atom_count], and the atom list is
    the old one followed by them; the bond list is the old one followed by
    new bonds with the ids following [bond_count]; both counters have grown
    by the numbers added, and the vector list is the same. *)
Theorem populate_vector_only_appends atoms_pair st st' :
  exec (_populate_vector atoms_pair) st = Ok tt st' →
  ∃ fillers new_bonds,
    heap st' = heap st ++ fillers
    ∧ Forall is_filler fillers
    ∧ id <$> fillers = count_from (atom_count st + 1) (length fillers)
    ∧ full_atom_list st' = full_atom_list st ++ seq (length (heap st)) (length fillers)
    ∧ atom_count st' = atom_count st + Z.of_nat (length fillers)
    ∧ full_bond_list st' = full_bond_list st ++ new_bonds
    ∧ bond_id <$> new_bonds = count_from (bond_count st + 1) (length new_bonds)
    ∧ bond_count st' = bond_count st + Z.of_nat (length new_bonds)
    ∧ vector_list st' = vector_list st.
Proof. intros Hex. by apply by_populate_vector, chained_updates in Hex. Qed.

Lemma populate_vector_only_appends_witness :
  ∃ st' fillers new_bonds,
    exec (_populate_vector (0%nat, 1%nat)) chain_example = Ok tt st'
    ∧ heap st' = heap chain_example ++ fillers
    ∧ Forall is_filler fillers
    ∧ id <$> fillers = count_from (atom_count chain_example + 1) (length fillers)
    ∧ full_atom_list st'
      = full_atom_list chain_example ++ seq (length (heap chain_example)) (length fillers)
    ∧ atom_count st' = atom_count chain_example + Z.of_nat (length fillers)
    ∧ full_bond_list st' = full_bond_list chain_example ++ new_bonds
    ∧ bond_id <$> new_bonds = count_from (bond_count chain_example + 1) (length new_bonds)
    ∧ bond_count st' = bond_count chain_example + Z.of_nat (length new_bonds)
    ∧ vector_list st' = vector_list chain_example.
Proof.
  assert (∃ st', exec (_populate_vector (0%nat, 1%nat)) chain_example = Ok tt st')
    as [st' Hex] by (eexists; vm_compute; reflexivity).
  destruct (populate_vector_only_appends (0%nat, 1%nat) chain_example st' Hex)
    as (f & b & H).
  exists st', f, b. split; [exact Hex|exact H].
Defined.

(** ** The three stages of a build *)

Lemma build_lists_stages size pts conns cell_dims dangling symmetric prune st :
  exec (build_lists size pts conns cell_dims dangling symmetric prune) empty_lattice
  = Ok tt st →
  ∃ st2 st3,
    exec (resolve_edges size pts conns cell_dims dangling symmetric) empty_lattice
    = Ok tt st2
    ∧ exec (if prune then _prune_vectors else mret tt) st2 = Ok tt st3
    ∧ exec populate_vectors st3 = Ok tt st.
Proof.
  intros Hex. unfold build_lists in Hex. rewrite exec_bind in Hex.
  destruct (exec (phase1 _ _ _ _ _ _) _) as [m st1| |] eqn:H1; try done.
  rewrite exec_bind in Hex.
  destruct (exec (phase2 _ _ _) st1) as [[] st2| |] eqn:H2; try done.
  rewrite exec_bind in Hex.
  destruct (exec (if prune then _ else _) st2) as [[] st3| |] eqn:H3; try done.
  exists st2, st3. split_and!; [|done|done].
  unfold resolve_edges. by rewrite exec_bind, H1.
Qed.

(** The state before chain discretization: reached by the updates of
    Phase 1, Phase 2 and pruning, and linked. *)
Lemma build_lists_before_chains size pts conns cell_dims dangling symmetric
    (prune : bool) st2 st3 :
  exec (resolve_edges size pts conns cell_dims dangling symmetric) empty_lattice
  = Ok tt st2 →
  exec (if prune then _prune_vectors else mret tt) st2 = Ok tt st3 →
  rtc grow_update empty_lattice st2 ∧ pruned st2 st3 ∧ linked st3.
Proof.
  intros H2 H3. split; [by apply by_resolve_edges in H2|].
  assert (linked st2) as Hl
    by (eapply preserves_resolve_edges; [apply linked_empty | exact H2]).
  destruct prune.
  - split; [by apply by_prune_vectors, pruned_updates in H3|].
    destruct (run_prune_vectors st2 Hl) as (tr & st' & Hr & _ & Hl' & _).
    unfold exec in H3. rewrite Hr in H3. by injection H3 as <-.
  - injection H3 as <-. split; [apply pruned_refl|done].
Qed.

Lemma grow_updates_bond_list st st' :
  rtc grow_update st st' →
  full_bond_list st' = full_bond_list st ∧ bond_count st' = bond_count st.
Proof.
  induction 1 as [|st1 st2 st3 H12 _ [IH1 IH2]]; [done|].
  rewrite IH1, IH2. by destruct H12.
Qed.

(** X8. When a build returns, the bonds of its bond list are numbered
    1, 2, ..., in the order of the list, and [bond_count] is their number. *)
Theorem build_bond_ids size pts conns cell_dims dangling symmetric prune st :
  exec (build_lists size pts conns cell_dims dangling symmetric prune) empty_lattice
  = Ok tt st →
  bond_id <$> full_bond_list st = count_from 1 (length (full_bond_list st))
  ∧ bond_count st = Z.of_nat (length (full_bond_list st)).
Proof.
  intros Hex. apply build_lists_stages in Hex as (st2 & st3 & H2 & H3 & H4).
  destruct (build_lists_before_chains _ _ _ _ _ _ _ _ _ H2 H3) as (Hg & Hp & _).
  apply grow_updates_bond_list in Hg as [Hb2 Hc2]. simpl in Hb2, Hc2.
  assert (full_bond_list st3 = [] ∧ bond_count st3 = 0) as [Hb3 Hc3].
  { rewrite (pruned_bond_list _ _ Hp), (pruned_bond_count _ _ Hp). done. }
  apply by_populate_vectors, chained_updates in H4
    as (f & b & _ & _ & _ & _ & _ & Hbl & Hbid & Hbc & _).
  rewrite Hbl, Hb3, Hbc, Hc3. simpl. rewrite Hbid, Hc3. split; [done|lia].
Qed.

Lemma build_bond_ids_witness :
  ∃ st,
    exec (build_lists (2, 1, 1) scenario_points scenario_connections (4, 4, 4)%float
            false true false) empty_lattice = Ok tt st
    ∧ bond_id <$> full_bond_list st = count_from 1 (length (full_bond_list st))
    ∧ bond_count st = Z.of_nat (length (full_bond_list st)).
Proof.
  eexists. split; [vm_compute; reflexivity|].
  apply (build_bond_ids (2, 1, 1) scenario_points scenario_connections (4, 4, 4)%float
           false true false).
  vm_compute. reflexivity.
Defined.

(** ** Pruning twice *)

(** X9. Pruning is idempotent on a build: from the state Phase 2 leaves,
    pruning a second time changes nothing, so two runs of [_prune_vectors]
    end as one does. *)
Theorem prune_idempotent size pts conns cell_dims dangling symmetric st2 :
  exec (resolve_edges size pts conns cell_dims dangling symmetric) empty_lattice = Ok tt st2 →
  exec (_prune_vectors ;; _prune_vectors) st2 = exec _prune_vectors st2.
Proof.
  intros H2.
  assert (linked st2) as Hl
    by (eapply preserves_resolve_edges; [apply linked_empty | exact H2]).
  destruct (run_prune_vectors st2 Hl) as (tr & st' & Hr & _ & _ & Hnd).
  rewrite exec_bind. unfold exec at 1 3. rewrite Hr. simpl.
  by apply exec_prune_vectors_no_dangler.
Qed.

Lemma prune_idempotent_witness :
  exec (_prune_vectors ;; _prune_vectors)
    (link_pair 0 1 (push_atoms [ ((0, 0, 0)%float, Some 1, Some (0, 0, 0));
                                 ((0.5, 0.5, 0.5)%float, Some 2, Some (0, 0, 0)) ]
                      empty_lattice))
  = exec _prune_vectors
      (link_pair 0 1 (push_atoms [ ((0, 0, 0)%float, Some 1, Some (0, 0, 0));
                                   ((0.5, 0.5, 0.5)%float, Some 2, Some (0, 0, 0)) ]
                        empty_lattice)).
Proof.
  apply (prune_idempotent (1, 1, 1) scenario_points scenario_connections
           (1, 1, 1)%float false true).
  vm_compute. reflexivity.
Defined.

(** ** Counting bonds and filler atoms *)

Lemma populate_segment_effect atoms vl step na i st na' st' :
  exec (populate_segment atoms vl step na i) st = Ok na' st' →
  ∃ bond_origin bond_partner pos,
    st' = bond_append bond_origin bond_partner
            (if i <? vl - 1 then push_atom (pos, None, None) st else st).
Proof.
  unfold populate_segment. intros Hex.
  destruct (i <? vl - 1); destruct (i =? 0);
    repeat (autorewrite with exec in Hex; cbn beta iota zeta in Hex).
  - injection Hex as _ <-. by eexists _, _, _.
  - injection Hex as _ <-. by eexists _, _, _.
  - injection Hex as _ <-. by eexists _, _, (0, 0, 0)%float.
  - destruct na as [r|]; repeat (autorewrite with exec in Hex; cbn beta iota zeta in Hex);
      [|done].
    injection Hex as _ <-. by eexists _, _, (0, 0, 0)%float.
Qed.

(** The loop of [_populate_vector] from round [k] on, [m] rounds: [m]
    bonds, and a filler atom in every round but the last. *)
Lemma populate_loop_counts atoms vl step : ∀ (m k : nat) na st na' st',
  Z.of_nat (k + m) = vl →
  exec (for_fold (Z.of_nat <$> seq k m) na (populate_segment atoms vl step)) st
  = Ok na' st' →
  length (full_bond_list st') = (length (full_bond_list st) + m)%nat
  ∧ length (full_atom_list st') = (length (full_atom_list st) + (m - 1))%nat.
Proof.
  induction m as [|m IH]; intros k na st na' st' Hvl Hex.
  - injection Hex as _ <-. lia.
  - cbn [seq fmap list_fmap for_fold] in Hex. rewrite exec_bind in Hex.
    destruct (exec (populate_segment _ _ _ _ _) st) as [na1 st1| |] eqn:H1; try done.
    apply populate_segment_effect in H1 as (bo & bp & pos & ->).
    apply IH in Hex as [Hb Hf]; [|lia]. rewrite Hb, Hf.
    destruct (Z.ltb_spec (Z.of_nat k) (vl - 1)); simpl; rewrite !length_app; simpl; lia.
Qed.

Lemma populate_vector_counts atoms_pair st st' :
  exec (_populate_vector atoms_pair) st = Ok tt st' →
  (length (full_bond_list st') + length (full_atom_list st)
   = length (full_bond_list st) + length (full_atom_list st') + 1)%nat.
Proof.
  unfold _populate_vector. rewrite exec_bind, exec_get. cbn beta zeta.
  destruct (floor_length _) as [e|n]; [done|].
  set (vl := if n <? 1 then 1 else n).
  assert (1 ≤ vl) as Hvl by (subst vl; destruct (Z.ltb_spec n 1); lia).
  rewrite exec_bind.
  destruct (exec (for_fold _ _ _) st) as [na' st1| |] eqn:Hl; try done.
  rewrite exec_ret. intros [= <-].
  apply (populate_loop_counts _ _ _ _ 0%nat) in Hl as [Hb Hf]; [|lia].
  lia.
Qed.

Lemma populate_pairs_counts : ∀ (l : list (ref * ref)) st st',
  exec (for_each l _populate_vector) st = Ok tt st' →
  (length (full_bond_list st') + length (full_atom_list st)
   = length (full_bond_list st) + length (full_atom_list st') + length l)%nat.
Proof.
  induction l as [|c l IH]; intros st st' Hex.
  - injection Hex as <-. simpl. lia.
  - cbn [for_each] in Hex. rewrite exec_bind in Hex.
    destruct (exec (_populate_vector c) st) as [[] st1| |] eqn:H1; try done.
    apply populate_vector_counts in H1. apply IH in Hex. simpl. lia.
Qed.

(** [atom.owning_cell] is [None]: the atoms the writer gives type 2. *)
Definition unowned (a : Atom) : bool :=
  match owning_cell a with
  | Some _ => false
  | None => true
  end.

(** Every atom of the list has an owning cell. *)
Definition owned (st : Lattice) : Prop :=
  valid_refs st ∧ ∀ r, r ∈ full_atom_list st → unowned (deref st r) = false.

Lemma owned_grow st st' : owned st → grow_update st st' → owned st'.
Proof.
  intros Hown Hup. destruct Hup as [pos pt oc st0|o p st0 Hor Hpr];
    destruct Hown as [Hv Ho].
  - split; [by apply valid_refs_push_atom|]. simpl.
    intros r [Hr| ->%list_elem_of_singleton]%elem_of_app.
    + rewrite deref_push_atom_old; [by apply Ho|].
      eapply Forall_forall in Hv; [|exact Hr]. done.
    + by rewrite deref_push_atom_new.
  - split; [unfold valid_refs; simpl; by rewrite !length_alter|]. simpl.
    intros r Hr. specialize (Ho r Hr). unfold deref, unowned in *. simpl.
    rewrite !list_lookup_total_alter. repeat case_decide; try done;
      repeat match goal with H : _ ∧ _ |- _ => destruct H as [-> _] end; done.
Qed.

Lemma owned_grows st st' : owned st → rtc grow_update st st' → owned st'.
Proof. intros Ho Hr. induction Hr; [done|]. eauto using owned_grow. Qed.

Lemma owned_pruned st st' : owned st → pruned st st' → owned st'.
Proof.
  intros [Hv Ho] [Ha _ Hh Hf _ _ _ _]. split.
  - unfold valid_refs. rewrite Hh. by eapply sublist_all.
  - intros r Hr. destruct (Hf r) as (_ & _ & _ & Hoc). unfold unowned. rewrite Hoc.
    apply Ho. by eapply sublist_elem.
Qed.

Lemma atoms_chained st st' fillers :
  valid_refs st →
  heap st' = heap st ++ fillers →
  full_atom_list st' = full_atom_list st ++ seq (length (heap st)) (length fillers) →
  atoms st' = atoms st ++ fillers.
Proof.
  intros Hv Hh Hl. unfold atoms, deref. rewrite Hl, Hh, fmap_app. f_equal.
  - apply Forall_fmap_ext_1. eapply Forall_impl; [exact Hv|].
    intros r Hr; simpl. by apply deref_app_l.
  - apply list_eq. intros i. rewrite list_lookup_fmap.
    destruct (decide (i < length fillers)%nat) as [Hi|Hi].
    + rewrite lookup_seq_lt by done. simpl.
      rewrite list_lookup_total_alt, lookup_app_r by lia.
      replace (length (heap st) + i - length (heap st))%nat with i by lia.
      by destruct (lookup_lt_is_Some_2 fillers i Hi) as [a ->].
    + rewrite lookup_seq_ge, lookup_ge_None_2 by lia. done.
Qed.

(** X10. When a build returns, its bond list has as many bonds as its
    atom list has atoms without owning cell (the fillers) and its vector
    list has pairs, together: every vector pair gets one bond more than it
    gets filler atoms. *)
Theorem build_bond_count size pts conns cell_dims dangling symmetric prune st :
  exec (build_lists size pts conns cell_dims dangling symmetric prune) empty_lattice
  = Ok tt st →
  length (full_bond_list st)
  = (length (List.filter unowned (atoms st)) + length (vector_list st))%nat.
Proof.
  intros Hex. apply build_lists_stages in Hex as (st2 & st3 & H2 & H3 & H4).
  destruct (build_lists_before_chains _ _ _ _ _ _ _ _ _ H2 H3) as (Hg & Hp & Hl).
  assert (owned st3) as [Hv Ho].
  { eapply owned_pruned; [|exact Hp]. eapply owned_grows; [|exact Hg].
    split; [constructor|]. intros r Hr. by apply elem_of_nil in Hr. }
  assert (full_bond_list st3 = []) as Hb3.
  { rewrite (pruned_bond_list _ _ Hp). by apply grow_updates_bond_list in Hg as [-> _]. }
  pose proof H4 as Hc. unfold populate_vectors in Hc. rewrite exec_bind, exec_get in Hc.
  apply populate_pairs_counts in Hc. rewrite Hb3 in Hc. simpl in Hc.
  apply by_populate_vectors, chained_updates in H4
    as (f & b & Hh & Hf & _ & Hfl & _ & _ & _ & _ & Hvl).
  rewrite (atoms_chained st3 st f) by done.
  rewrite List.filter_app, length_app, Hvl.
  rewrite Hfl, length_app, length_seq in Hc.
  assert (length (List.filter unowned (atoms st3)) = 0%nat) as ->.
  { apply length_filter_none. intros a (r & -> & Hr)%list_elem_of_In%list_elem_of_fmap.
    by apply Ho. }
  assert (length (List.filter unowned f) = length f) as ->.
  { clear -Hf. induction Hf as [|a f (_ & Ha & _) _ IH]; [done|].
    cbn [List.filter]. unfold unowned at 1. rewrite Ha. simpl. by rewrite IH. }
  lia.
Qed.

Lemma build_bond_count_witness :
  ∃ st,
    exec (build_lists (2, 1, 1) scenario_points scenario_connections (4, 4, 4)%float
            false true false) empty_lattice = Ok tt st
    ∧ length (full_bond_list st)
      = (length (List.filter unowned (atoms st)) + length (vector_list st))%nat.
Proof.
  eexists. split; [vm_compute; reflexivity|].
  apply (build_bond_count (2, 1, 1) scenario_points scenario_connections (4, 4, 4)%float
           false true false).
  vm_compute. reflexivity.
Defined.

(** ** Bond endpoints *)

(** What [_populate_vector] leaves on a pair of objects of the arena, when
    it returns. *)
Lemma populate_vector_result o p st st' :
  (o < length (heap st))%nat → (p < length (heap st))%nat →
  exec (_populate_vector (o, p)) st = Ok tt st' →
  ∃ vl step,
    1 ≤ vl
    ∧ heap st' = heap st ++
        (chain_filler (atom_count st) (position (deref st o)) step
           <$> (Z.of_nat <$> seq 0 (Z.to_nat vl - 1)))
    ∧ full_atom_list st' = full_atom_list st ++ seq (length (heap st)) (Z.to_nat vl - 1)
    ∧ full_bond_list st' = full_bond_list st ++
        (chain_bond (bond_count st) (atom_count st) (id (deref st o)) (id (deref st p)) vl
           <$> (Z.of_nat <$> seq 0 (Z.to_nat vl))).
Proof.
  intros Ho Hp Hex. unfold _populate_vector in Hex.
  rewrite exec_bind, exec_get in Hex. cbn beta zeta in Hex.
  cbn [pair_origin pair_partner fst snd] in Hex.
  destruct (floor_length _) as [e|n]; [done|].
  set (vl := if n <? 1 then 1 else n) in *.
  assert (1 ≤ vl) as Hvl by (subst vl; destruct (Z.ltb_spec n 1); lia).
  set (step := np_divide _ _) in *.
  destruct (populate_loop_exec o p vl step (atom_count st) (bond_count st)
              (Z.to_nat vl) 0 st None) as (na' & st1 & Hl & Hh & Hf & Hb & _);
    [lia | done | done | lia | lia | by left |].
  unfold range in Hex. rewrite exec_bind, Hl, exec_ret in Hex. injection Hex as <-.
  by exists vl, step.
Qed.






(** ** Writing the lattice of a build *)











(** ** How a build can end *)















(** ** A boundary connection to an unknown point *)

Lemma cell_list_first nx ny nz :
  0 < nx → 0 < ny → 0 < nz → ∃ cells, cell_list (nx, ny, nz) = (0, 0, 0) :: cells.
Proof.
  intros Hx Hy Hz. unfold cell_list, product.
  rewrite (range_cons nx), (range_cons ny), (range_cons nz) by lia.
  cbn [flat_map map app]. by eexists.
Qed.

Lemma find_point_absent pts pid :
  (∀ p, p ∈ pts → point_id p ≠ pid) →
  List.find (λ item, point_id item =? pid) pts = None.
Proof.
  intros H. destruct (List.find _ pts) as [item|] eqn:Hf; [|done].
  apply find_elem_of in Hf as [Hin Heq]. apply H in Hin. lia.
Qed.

(** X14. With [dangling = True] on a grid with a cell, a template whose
    first connection leaves the grid from the cell (0, 0, 0) and names a
    partner id that no template point has makes the build raise
    [StopIteration] in the first cell, whatever [symmetric] and [prune]
    are: it stops with the atoms of the cell (0, 0, 0) in the atom list and
    nothing else. *)
Theorem build_unknown_partner nx ny nz pts conn conns cell_dims symmetric prune :
  0 < nx → 0 < ny → 0 < nz →
  in_grid (nx, ny, nz) (cell_crossings conn) = false →
  (∀ p, p ∈ pts → point_id p ≠ partner conn) →
  exec (build_lists (nx, ny, nz) pts (conn :: conns) cell_dims true symmetric prune)
       empty_lattice
  = Raise StopIteration (push_atoms (cell_specs pts cell_dims (0, 0, 0)) empty_lattice).
Proof.
  intros Hx Hy Hz Hout Hids.
  destruct (cell_list_first nx ny nz) as [cells Hcells]; try done.
  assert (cell_in (iv_add (0, 0, 0) (cell_crossings conn)) (cell_list (nx, ny, nz)) = false)
    as Hci.
  { rewrite cell_in_grid. by destruct (cell_crossings conn) as [[a b] c]. }
  unfold build_lists. rewrite exec_bind. unfold phase1 at 1. rewrite Hcells at 1.
  cbn [for_fold]. rewrite exec_bind. unfold phase1_cell at 1.
  rewrite exec_bind, replicate_points_exec. cbn [for_fold]. rewrite exec_bind.
  unfold discover_boundary at 1. rewrite exec_bind, Hci. cbn [negb].
  rewrite exec_bind. unfold next_coords. by rewrite find_point_absent.
Qed.

Lemma build_unknown_partner_witness :
  exec (build_lists (2, 1, 1) scenario_points
          [ {| origin := 1; partner := 3; cell_crossings := (0, 1, 0) |} ]
          (4, 4, 4)%float true false false) empty_lattice
  = Raise StopIteration
      (push_atoms (cell_specs scenario_points (4, 4, 4)%float (0, 0, 0)) empty_lattice).
Proof.
  apply (build_unknown_partner 2 1 1 scenario_points
           {| origin := 1; partner := 3; cell_crossings := (0, 1, 0) |} []
           (4, 4, 4)%float false false); [lia|lia|lia|reflexivity|].
  intros p [->|[->|[]%elem_of_nil]%elem_of_cons]%elem_of_cons; simpl; lia.
Defined.

(** ** What the pairs of the vector list join *)







Lemma same_atom_link_pair o p st r : same_atom (deref st r) (deref (link_pair o p st) r).
Proof.
  unfold link_pair, deref; simpl. rewrite !list_lookup_total_alter.
  repeat case_decide; destruct_and?; simplify_eq; by split_and!.
Qed.














(** ** One atom for a point of a cell *)

(** What the lookups of lines 104, 115, 133 and 136 compare. *)
Definition tag (a : Atom) : option Z * option ivec3 := (point_type a, owning_cell a).

Definition tags (st : Lattice) : list (option Z * option ivec3) := tag <$> atoms st.

(** No two atoms of the list carry the same tag, and no atom is tagged
    with a cell of [rem], the cells the first pass has yet to visit. *)
Record tagged (rem : list ivec3) (st : Lattice) : Prop :=
  { tagged_valid : valid_refs st;
    tagged_nodup : NoDup (tags st);
    tagged_vacant : ∀ c, c ∈ rem → vacant c st }.

Lemma tags_push_atom s st :
  valid_refs st → tags (push_atom s st) = tags st ++ [(s.1.2, s.2)].
Proof. intros Hv. unfold tags. by rewrite atoms_push_atom, fmap_app. Qed.

Lemma find_none_tag pt c st :
  List.find (λ r, is_atom_of pt c (deref st r)) (full_atom_list st) = None →
  (Some pt, Some c) ∉ tags st.
Proof.
  intros Hf (a & Ha & (r & -> & Hr)%list_elem_of_fmap)%list_elem_of_fmap.
  eapply find_none in Hf; [|by apply list_elem_of_In]. simpl in Hf.
  unfold tag in Ha. injection Ha as Hpt Hoc. unfold is_atom_of in Hf.
  rewrite <- Hpt, <- Hoc, Z.eqb_refl, iv_eqb_refl in Hf. done.
Qed.

Lemma vacant_tag pt c st : vacant c st → (pt, Some c) ∉ tags st.
Proof.
  intros Hvac (a & Ha & Hin)%list_elem_of_fmap. injection Ha as _ Hoc.
  by apply (Hvac a Hin).
Qed.

Lemma tagged_push rem pos pt c st :
  tagged rem st → (Some pt, Some c) ∉ tags st → c ∉ rem →
  tagged rem (push_atom (pos, Some pt, Some c) st).
Proof.
  intros [Hv Hnd Hvac] Hfresh Hc. split.
  - by apply valid_refs_push_atom.
  - rewrite tags_push_atom by done. apply NoDup_app. split_and!; [done| |apply NoDup_singleton].
    intros t Ht ->%list_elem_of_singleton. done.
  - intros c' Hc' a. rewrite atoms_push_atom by done.
    intros [Ha| ->%list_elem_of_singleton]%elem_of_app; [by apply (Hvac c')|].
    simpl. intros [= ->]. done.
Qed.

Lemma tagged_push_specs rem cell_dims c : ∀ pts st,
  NoDup (point_id <$> pts) → c ∉ rem → tagged rem st →
  (∀ p, p ∈ pts → (Some (point_id p), Some c) ∉ tags st) →
  tagged rem (push_atoms (cell_specs pts cell_dims c) st).
Proof.
  induction pts as [|p pts IH]; intros st Hnd Hc Ht Hfresh; [done|].
  rewrite fmap_cons in Hnd. apply NoDup_cons in Hnd as [Hp Hnd].
  cbn [cell_specs map push_atoms fold_left].
  apply IH; [done|done| |].
  - apply tagged_push; [done| |done]. apply Hfresh. by left.
  - intros p' Hp'. rewrite tags_push_atom by exact (tagged_valid _ _ Ht). simpl.
    intros [Hin|Heq%list_elem_of_singleton]%elem_of_app.
    + apply (Hfresh p'); [by right|done].
    + injection Heq as Heq. apply Hp. rewrite <- Heq. by apply list_elem_of_fmap_2.
Qed.

Lemma preserves_from_next_atom {B} I test (k : option ref → M B) :
  (∀ st b st', I st →
     exec (k (List.find (λ r, test (deref st r)) (full_atom_list st))) st = Ok b st' →
     I st') →
  preserves I (next_atom test ≫= k).
Proof.
  intros H st b st' HI Hex. rewrite exec_bind, exec_next_atom in Hex. by eapply H.
Qed.

Lemma outside_rem size (rem : list ivec3) c :
  (∀ c', c' ∈ rem → In c' (cell_list size)) →
  cell_in c (cell_list size) = false → c ∉ rem.
Proof.
  intros Hrem Hout Hc. apply Hrem in Hc.
  assert (cell_in c (cell_list size) = true); [|congruence].
  apply existsb_exists. exists c. split; [done|apply iv_eqb_refl].
Qed.

Lemma tagged_discover_boundary size pts cell_dims symmetric c m conn rem :
  (∀ c', c' ∈ rem → In c' (cell_list size)) →
  preserves (tagged rem) (discover_boundary size pts cell_dims symmetric c m conn).
Proof.
  intros Hrem. unfold discover_boundary. apply preserves_bind.
  - destruct (cell_in _ _) eqn:Hout; cbn [negb]; [apply preserves_ret|].
    apply preserves_bind; [apply preserves_next_coords|intros coords].
    apply preserves_from_next_atom. intros st b st' Ht Hex.
    destruct (List.find _ _) as [r|] eqn:Hf.
    + rewrite exec_ret in Hex. by injection Hex as _ <-.
    + rewrite exec_bind, append_new_atom_exec, exec_ret in Hex. injection Hex as _ <-.
      apply tagged_push; [done|by apply find_none_tag|by eapply outside_rem].
  - intros _. destruct symmetric; [|apply preserves_ret].
    destruct (cell_in _ _) eqn:Hout; cbn [negb]; [apply preserves_ret|].
    apply preserves_bind; [apply preserves_next_coords|intros coords].
    apply preserves_from_next_atom. intros st b st' Ht Hex.
    rewrite exec_bind in Hex.
    destruct (List.find _ _) as [r|] eqn:Hf.
    + rewrite !exec_ret in Hex. by injection Hex as _ <-.
    + rewrite exec_bind, append_new_atom_exec, !exec_ret in Hex. injection Hex as _ <-.
      apply tagged_push; [done|by apply find_none_tag|by eapply outside_rem].
Qed.

Lemma tagged_phase1_fold size pts conns cell_dims dangling symmetric :
  NoDup (point_id <$> pts) →
  ∀ cells m st m' st',
    NoDup cells → (∀ c, c ∈ cells → In c (cell_list size)) →
    tagged cells st →
    exec (for_fold cells m (phase1_cell size pts conns cell_dims dangling symmetric)) st
    = Ok m' st' →
    tagged [] st'.
Proof.
  intros Hpts. induction cells as [|c cells IH]; intros m st m' st' Hnd Hin Ht Hex.
  - by injection Hex as _ <-.
  - apply NoDup_cons in Hnd as [Hc Hnd].
    cbn [for_fold] in Hex. rewrite exec_bind in Hex.
    destruct (exec (phase1_cell _ _ _ _ _ _ _ _) st) as [m1 sta| |] eqn:H1; try done.
    apply (IH m1 sta m' st'); [done|intros c' Hc'; apply Hin; by right| |done].
    unfold phase1_cell in H1. rewrite exec_bind, replicate_points_exec in H1.
    assert (tagged cells (push_atoms (cell_specs pts cell_dims c) st)) as Hta.
    { apply tagged_push_specs; [done|done| |].
      - destruct Ht as [Hv Hn Hvac]. split; [done|done|].
        intros c' Hc'. apply Hvac. by right.
      - intros p _. apply vacant_tag. apply (tagged_vacant _ _ Ht). by left. }
    revert Hta H1. generalize (push_atoms (cell_specs pts cell_dims c) st) as stb.
    intros stb Hta H1.
    destruct dangling.
    + eapply (preserves_for_fold (tagged cells)); [|exact Hta|exact H1].
      intros m2 conn. apply tagged_discover_boundary. intros c' Hc'. apply Hin. by right.
    + rewrite exec_ret in H1. by injection H1 as _ <-.
Qed.

Lemma tags_link_pair o p st : tags (link_pair o p st) = tags st.
Proof.
  unfold tags, atoms. change (full_atom_list (link_pair o p st)) with (full_atom_list st).
  rewrite <- !list_fmap_compose. apply list_fmap_ext. intros i r _. simpl.
  destruct (same_atom_link_pair o p st r) as (_ & _ & Hpt & Hoc).
  unfold tag. by rewrite Hpt, Hoc.
Qed.

Lemma tags_phase2 size conns m :
  preserves (λ st, NoDup (tags st)) (phase2 size conns m).
Proof.
  apply preserves_for_each. intros c. apply preserves_for_each. intros conn.
  intros st a st' Hnd Hex. rewrite resolve_connection_exec in Hex. injection Hex as _ <-.
  destruct (List.find _ _) as [o|]; [|done].
  destruct (List.find _ _) as [p|]; [|done]. by rewrite tags_link_pair.
Qed.

Lemma tags_pruned st st' : pruned st st' → sublist (tags st') (tags st).
Proof.
  intros [Ha _ _ Hf _ _ _ _]. unfold tags, atoms. rewrite <- !list_fmap_compose.
  rewrite (list_fmap_ext (tag ∘ deref st') (tag ∘ deref st)); [by apply fmap_sublist|].
  intros i r _. simpl.
  destruct (Hf r) as (_ & _ & Hpt & Hoc). unfold tag. by rewrite Hpt, Hoc.
Qed.

(** X16. When the template points have pairwise distinct ids and a build
    returns, no two atoms of its atom list that belong to a cell carry the
    same point type and owning cell: every lookup of an atom by point type
    and cell has at most one atom to find. *)
Theorem build_tags_unique size pts conns cell_dims dangling symmetric prune st :
  NoDup (point_id <$> pts) →
  exec (build_lists size pts conns cell_dims dangling symmetric prune) empty_lattice
  = Ok tt st →
  ∀ i j a a',
    atoms st !! i = Some a → atoms st !! j = Some a' →
    owning_cell a ≠ None →
    point_type a = point_type a' → owning_cell a = owning_cell a' →
    i = j.
Proof.
  intros Hpts Hex. apply build_lists_stages in Hex as (st2 & st3 & H2 & H3 & H4).
  destruct (build_lists_before_chains _ _ _ _ _ _ _ _ _ H2 H3) as (_ & Hp & Hl).
  assert (NoDup (tags st2)) as Hnd2.
  { unfold resolve_edges in H2. rewrite exec_bind in H2.
    destruct (exec (phase1 _ _ _ _ _ _) _) as [m st1| |] eqn:H1; try done.
    eapply tags_phase2; [|exact H2]. apply tagged_nodup with (rem := []).
    eapply tagged_phase1_fold; [exact Hpts|apply NoDup_cell_list| | |exact H1].
    - intros c Hc. by apply list_elem_of_In.
    - split; [constructor|constructor|]. intros c _ a Ha. by apply elem_of_nil in Ha. }
  assert (NoDup (tags st3)) as Hnd3
    by (eapply sublist_NoDup; [exact Hnd2|by apply tags_pruned]).
  apply by_populate_vectors, chained_updates in H4
    as (f & b & Hh & Hf & _ & Hfl & _).
  pose proof (atoms_chained st3 st f (linked_valid st3 Hl) Hh Hfl) as Ha.
  assert (∀ k x, atoms st !! k = Some x → owning_cell x ≠ None →
                 tags st3 !! k = Some (tag x)) as Hold.
  { intros k x Hk Hoc. rewrite Ha in Hk. apply lookup_app_Some in Hk as [Hk|[_ Hk]].
    - unfold tags. by rewrite list_lookup_fmap, Hk.
    - apply list_elem_of_lookup_2 in Hk. eapply Forall_forall in Hf; [|exact Hk].
      by destruct Hf as (_ & ? & _). }
  intros i j a a' Hi Hj Hoc Hpt Hoc'.
  apply Hold in Hi; [|done]. apply Hold in Hj; [|congruence].
  assert (tag a' = tag a) as Heq by (unfold tag; congruence). rewrite Heq in Hj.
  by eapply NoDup_lookup.
Qed.

Lemma build_tags_unique_witness :
  ∃ st,
    exec (build_lists (2, 1, 1) scenario_points
            [ {| origin := 1; partner := 2; cell_crossings := (1, 0, 0) |} ]
            (4, 4, 4)%float true true false) empty_lattice = Ok tt st
    ∧ ∀ i j a a',
        atoms st !! i = Some a → atoms st !! j = Some a' →
        owning_cell a ≠ None →
        point_type a = point_type a' → owning_cell a = owning_cell a' →
        i = j.
Proof.
  eexists. split; [vm_compute; reflexivity|].
  apply (build_tags_unique (2, 1, 1) scenario_points
           [ {| origin := 1; partner := 2; cell_crossings := (1, 0, 0) |} ]
           (4, 4, 4)%float true true false).
  - apply NoDup_cons. split; [|apply NoDup_singleton].
    intros Hin%list_elem_of_singleton. done.
  - vm_compute. reflexivity.
Defined.

(** ** Atom ids without pruning *)

(** The atom list holds every object of the arena, in the order of
    creation. *)
Definition dense (st : Lattice) : Prop :=
  full_atom_list st = seq 0 (length (heap st)).

Lemma dense_push_atom s st : dense st → dense (push_atom s st).
Proof.
  unfold dense; simpl. intros ->. by rewrite length_app, Nat.add_1_r, seq_S.
Qed.

Lemma dense_grows st st' : dense st → rtc grow_update st st' → dense st'.
Proof.
  intros Hd Hr. induction Hr as [|st1 st2 st3 H12 _ IH]; [done|]. apply IH.
  destruct H12; [by apply dense_push_atom|].
  unfold dense, link_pair in *; simpl. by rewrite !length_alter.
Qed.

Lemma dense_chains st st' : dense st → rtc chain_update st st' → dense st'.
Proof.
  intros Hd Hr. induction Hr as [|st1 st2 st3 H12 _ IH]; [done|]. apply IH.
  destruct H12; [by apply dense_push_atom|done].
Qed.

Lemma fmap_seq_count_from k n :
  (λ r : nat, Z.of_nat r + 1) <$> seq k n = count_from (Z.of_nat k + 1) n.
Proof.
  revert k. induction n as [|n IH]; intros k; [done|].
  cbn [seq fmap list_fmap count_from]. f_equal.
  rewrite (IH (S k)). f_equal. lia.
Qed.

(** X17. When a build without pruning returns, the atoms of its atom list
    carry the ids 1, 2, ..., in the order of the list, and [atom_count] is
    their number. *)
Theorem build_ids_contiguous size pts conns cell_dims dangling symmetric st :
  exec (build_lists size pts conns cell_dims dangling symmetric false) empty_lattice
  = Ok tt st →
  id <$> atoms st = count_from 1 (length (atoms st))
  ∧ atom_count st = Z.of_nat (length (atoms st)).
Proof.
  intros Hex.
  pose proof (numbered_updates _ _ numbered_empty (by_build_lists _ _ _ _ _ _ _ _ _ _ Hex))
    as [_ _ Hids Hc].
  apply build_lists_stages in Hex as (st2 & st3 & H2 & H3 & H4).
  injection H3 as <-.
  assert (dense st) as Hd.
  { eapply dense_chains; [|by apply by_populate_vectors in H4].
    eapply dense_grows; [|by apply by_resolve_edges in H2]. done. }
  unfold atoms. rewrite Hd, length_fmap, length_seq. split; [|done].
  rewrite <- list_fmap_compose, <- (fmap_seq_count_from 0).
  apply list_fmap_ext. intros i r [-> Hi]%lookup_seq. simpl. by apply Hids.
Qed.

Lemma build_ids_contiguous_witness :
  ∃ st,
    exec (build_lists (2, 1, 1) scenario_points scenario_connections (4, 4, 4)%float
            false true false) empty_lattice = Ok tt st
    ∧ id <$> atoms st = count_from 1 (length (atoms st))
    ∧ atom_count st = Z.of_nat (length (atoms st)).
Proof.
  eexists. split; [vm_compute; reflexivity|].
  apply (build_ids_contiguous (2, 1, 1) scenario_points scenario_connections
           (4, 4, 4)%float false true).
  vm_compute. reflexivity.
Defined.

(** ** Where the atoms of cells are *)












(** ** The bond ends of an atom *)

(** How often the id [x] is an endpoint of a bond of the list. *)
Definition bond_ends (x : Z) (bl : list Bond) : Z :=
  sumZ ((λ b, (if point1 b =? x then 1 else 0) + (if point2 b =? x then 1 else 0)) <$> bl).

Lemma bond_ends_app x bl1 bl2 : bond_ends x (bl1 ++ bl2) = bond_ends x bl1 + bond_ends x bl2.
Proof. unfold bond_ends. by rewrite fmap_app, sumZ_app. Qed.

Lemma bond_ends_none x bl :
  (∀ b, b ∈ bl → point1 b ≠ x ∧ point2 b ≠ x) → bond_ends x bl = 0.
Proof.
  intros H. apply sumZ_zero. intros b Hb. destruct (H b Hb) as [H1 H2].
  destruct (Z.eqb_spec (point1 b) x), (Z.eqb_spec (point2 b) x); done.
Qed.

Lemma sumZ_single (k : nat) (v : Z) l :
  NoDup l → k ∈ l → sumZ ((λ i, if (k =? i)%nat then v else 0) <$> l) = v.
Proof.
  induction 1 as [|y l Hy Hnd IH]; intros Hk; [by apply elem_of_nil in Hk|].
  rewrite fmap_cons. change (sumZ (?a :: ?l)) with (a + sumZ l).
  apply elem_of_cons in Hk as [->|Hk].
  - rewrite Nat.eqb_refl, sumZ_zero; [lia|].
    intros r Hr. destruct (Nat.eqb_spec y r); [by subst|done].
  - rewrite IH by done. destruct (Nat.eqb_spec k y); [by subst|lia].
Qed.

Lemma sumZ_seq_ext (f g : nat → Z) m :
  (∀ i, (i < m)%nat → f i = g i) → sumZ (f <$> seq 0 m) = sumZ (g <$> seq 0 m).
Proof.
  intros H. f_equal. apply list_fmap_ext. intros i x [-> Hi]%lookup_seq. by apply H.
Qed.

(** The ends of the bonds of one chain: one at the origin, one at the
    partner, two at every filler atom. *)
Lemma bond_ends_chain bc ac oid pid (m : nat) x :
  (1 ≤ m)%nat → oid ≤ ac → pid ≤ ac →
  bond_ends x (chain_bond bc ac oid pid (Z.of_nat m) <$> (Z.of_nat <$> seq 0 m))
  = if x <=? ac
    then (if x =? oid then 1 else 0) + (if x =? pid then 1 else 0)
    else if x <=? ac + Z.of_nat m - 1 then 2 else 0.
Proof.
  intros Hm Ho Hp. unfold bond_ends. rewrite <- !list_fmap_compose.
  set (P1 := λ i : nat,
         if point1 (chain_bond bc ac oid pid (Z.of_nat m) (Z.of_nat i)) =? x then 1 else 0).
  set (P2 := λ i : nat,
         if point2 (chain_bond bc ac oid pid (Z.of_nat m) (Z.of_nat i)) =? x then 1 else 0).
  rewrite (sumZ_seq_ext _ (λ i, P1 i + P2 i)) by done. rewrite (sumZ_plus P1 P2).
  destruct (Z.leb_spec x ac) as [Hx|Hx].
  - rewrite (sumZ_seq_ext P1 (λ i, if (m - 1 =? i)%nat then (if x =? pid then 1 else 0) else 0)).
    2:{ intros i Hi. subst P1. unfold chain_bond. cbn [point1 point2].
        destruct (Z.ltb_spec (Z.of_nat i) (Z.of_nat m - 1)), (Nat.eqb_spec (m - 1) i);
          try lia.
        - destruct (Z.eqb_spec (ac + 1 + Z.of_nat i) x); [lia|done].
        - destruct (Z.eqb_spec pid x), (Z.eqb_spec x pid); lia. }
    rewrite (sumZ_seq_ext P2 (λ i, if (0 =? i)%nat then (if x =? oid then 1 else 0) else 0)).
    2:{ intros i Hi. subst P2. unfold chain_bond. cbn [point1 point2].
        destruct (Z.eqb_spec (Z.of_nat i) 0), (Nat.eqb_spec 0 i); try lia.
        - destruct (Z.eqb_spec oid x), (Z.eqb_spec x oid); lia.
        - destruct (Z.eqb_spec (ac + Z.of_nat i) x); [lia|done]. }
    rewrite !sumZ_single; [lia|apply NoDup_seq|apply elem_of_seq; lia
                          |apply NoDup_seq|apply elem_of_seq; lia].
  - destruct (Z.leb_spec x (ac + Z.of_nat m - 1)) as [Hx'|Hx'].
    + rewrite (sumZ_seq_ext P1 (λ i, if (Z.to_nat (x - ac - 1) =? i)%nat then 1 else 0)).
      2:{ intros i Hi. subst P1. unfold chain_bond. cbn [point1 point2].
          destruct (Z.ltb_spec (Z.of_nat i) (Z.of_nat m - 1)),
                   (Nat.eqb_spec (Z.to_nat (x - ac - 1)) i); try lia.
          - destruct (Z.eqb_spec (ac + 1 + Z.of_nat i) x); [done|lia].
          - destruct (Z.eqb_spec (ac + 1 + Z.of_nat i) x); [lia|done].
          - destruct (Z.eqb_spec pid x); [lia|done]. }
      rewrite (sumZ_seq_ext P2 (λ i, if (Z.to_nat (x - ac) =? i)%nat then 1 else 0)).
      2:{ intros i Hi. subst P2. unfold chain_bond. cbn [point1 point2].
          destruct (Z.eqb_spec (Z.of_nat i) 0), (Nat.eqb_spec (Z.to_nat (x - ac)) i);
            try lia.
          - destruct (Z.eqb_spec oid x); [lia|done].
          - destruct (Z.eqb_spec (ac + Z.of_nat i) x); [done|lia].
          - destruct (Z.eqb_spec (ac + Z.of_nat i) x); [lia|done]. }
      rewrite !sumZ_single; [lia|apply NoDup_seq|apply elem_of_seq; lia
                            |apply NoDup_seq|apply elem_of_seq; lia].
    + rewrite !sumZ_zero; [lia| |].
      * intros i Hi%elem_of_seq. subst P2. unfold chain_bond. cbn [point1 point2].
        destruct (Z.eqb_spec (Z.of_nat i) 0).
        -- destruct (Z.eqb_spec oid x); [lia|done].
        -- destruct (Z.eqb_spec (ac + Z.of_nat i) x); [lia|done].
      * intros i Hi%elem_of_seq. subst P1. unfold chain_bond. cbn [point1 point2].
        destruct (Z.ltb_spec (Z.of_nat i) (Z.of_nat m - 1)).
        -- destruct (Z.eqb_spec (ac + 1 + Z.of_nat i) x); [lia|done].
        -- destruct (Z.eqb_spec pid x); [lia|done].
Qed.

Lemma bond_ends_chain_length bc ac oid pid vl x :
  1 ≤ vl → oid ≤ ac → pid ≤ ac →
  bond_ends x (chain_bond bc ac oid pid vl <$> (Z.of_nat <$> seq 0 (Z.to_nat vl)))
  = if x <=? ac
    then (if x =? oid then 1 else 0) + (if x =? pid then 1 else 0)
    else if x <=? ac + vl - 1 then 2 else 0.
Proof.
  intros Hvl Ho Hp. pose proof (bond_ends_chain bc ac oid pid (Z.to_nat vl) x) as H.
  rewrite Z2Nat.id in H by lia. apply H; lia.
Qed.

(** No bond names an id above [atom_count]. *)
Definition bonds_bounded (st : Lattice) : Prop :=
  ∀ b, b ∈ full_bond_list st → point1 b ≤ atom_count st ∧ point2 b ≤ atom_count st.

Lemma numbered_chains st st' : numbered st → rtc chain_update st st' → numbered st'.
Proof.
  intros Hn Hr. eapply numbered_updates; [done|].
  eapply rtc_subrel; [apply update_chain|done].
Qed.

Lemma bond_ends_populate_vector o p st st' :
  numbered st → bonds_bounded st →
  (o < length (heap st))%nat → (p < length (heap st))%nat →
  exec (_populate_vector (o, p)) st = Ok tt st' →
  numbered st' ∧ bonds_bounded st' ∧ atom_count st ≤ atom_count st'
  ∧ (∀ x, x ≤ atom_count st →
       bond_ends x (full_bond_list st')
       = bond_ends x (full_bond_list st)
         + (if x =? Z.of_nat o + 1 then 1 else 0) + (if x =? Z.of_nat p + 1 then 1 else 0))
  ∧ (∀ x, atom_count st < x ≤ atom_count st' → bond_ends x (full_bond_list st') = 2).
Proof.
  intros Hn Hb Ho Hp Hex.
  assert (numbered st') as Hn'
    by (eapply numbered_chains; [done|by apply by_populate_vector in Hex]).
  apply populate_vector_result in Hex as (vl & step & Hvl & Hh & Hf & Hbl); [|done..].
  pose proof (numbered_ids _ Hn o Ho) as Hio. pose proof (numbered_ids _ Hn p Hp) as Hip.
  pose proof (numbered_count _ Hn) as Hc. pose proof (numbered_count _ Hn') as Hc'.
  rewrite Hh, length_app, !length_fmap, length_seq in Hc'.
  rewrite Hio, Hip in Hbl.
  assert (∀ x, bond_ends x (full_bond_list st')
               = bond_ends x (full_bond_list st)
                 + (if x <=? atom_count st
                    then (if x =? Z.of_nat o + 1 then 1 else 0)
                         + (if x =? Z.of_nat p + 1 then 1 else 0)
                    else if x <=? atom_count st + vl - 1 then 2 else 0)) as He.
  { intros x. rewrite Hbl, bond_ends_app, bond_ends_chain_length; [done|lia..]. }
  split_and!.
  - done.
  - intros b. rewrite Hbl. intros [Hb0|Hb1]%elem_of_app.
    + destruct (Hb b Hb0). lia.
    + apply list_elem_of_fmap in Hb1
        as (j & -> & (i & -> & Hi%elem_of_seq)%list_elem_of_fmap).
      unfold chain_bond; cbn [point1 point2].
      destruct (Z.ltb_spec (Z.of_nat i) (vl - 1)), (Z.eqb_spec (Z.of_nat i) 0); lia.
  - lia.
  - intros x Hx. rewrite He. destruct (Z.leb_spec x (atom_count st)); [|lia].
    destruct (x =? Z.of_nat o + 1), (x =? Z.of_nat p + 1); lia.
  - intros x Hx. rewrite He, bond_ends_none.
    + destruct (Z.leb_spec x (atom_count st)), (Z.leb_spec x (atom_count st + vl - 1)); lia.
    + intros b Hb0. destruct (Hb b Hb0). lia.
Qed.

Lemma bond_ends_populate_pairs : ∀ (l : list (ref * ref)) st st',
  numbered st → bonds_bounded st →
  (∀ c, c ∈ l → (pair_origin c < length (heap st))%nat
                ∧ (pair_partner c < length (heap st))%nat) →
  exec (for_each l _populate_vector) st = Ok tt st' →
  atom_count st ≤ atom_count st'
  ∧ (∀ r : nat, (r < length (heap st))%nat →
       bond_ends (Z.of_nat r + 1) (full_bond_list st')
       = bond_ends (Z.of_nat r + 1) (full_bond_list st) + degree r l)
  ∧ (∀ x, atom_count st < x ≤ atom_count st' → bond_ends x (full_bond_list st') = 2).
Proof.
  induction l as [|c l IH]; intros st st' Hn Hb Hl Hex.
  - injection Hex as <-. split_and!; [lia|intros; simpl; lia|intros; lia].
  - cbn [for_each] in Hex. rewrite exec_bind in Hex.
    destruct (exec (_populate_vector c) st) as [[] st1| |] eqn:H1; try done.
    destruct (Hl c) as [Ho Hp]; [by left|]. destruct c as [o p].
    cbn [pair_origin pair_partner fst snd] in Ho, Hp.
    destruct (bond_ends_populate_vector o p st st1 Hn Hb Ho Hp H1)
      as (Hn1 & Hb1 & Hac & Hold & Hnew).
    pose proof (numbered_count _ Hn) as Hc. pose proof (numbered_count _ Hn1) as Hc1.
    assert (∀ c', c' ∈ l → (pair_origin c' < length (heap st))%nat
                           ∧ (pair_partner c' < length (heap st))%nat) as Hl'
      by (intros c' Hc'; apply Hl; by right).
    destruct (IH st1 st' Hn1 Hb1) as (Hac' & Hold' & Hnew'); [|done|].
    { intros c' Hc'. destruct (Hl' c' Hc'). lia. }
    split_and!.
    + lia.
    + intros r Hr. rewrite Hold' by lia. rewrite Hold by lia.
      cbn [degree pair_origin pair_partner fst snd].
      destruct (Z.eqb_spec (Z.of_nat r + 1) (Z.of_nat o + 1)), (Nat.eqb_spec o r);
        destruct (Z.eqb_spec (Z.of_nat r + 1) (Z.of_nat p + 1)), (Nat.eqb_spec p r); lia.
    + intros x Hx. destruct (decide (x ≤ atom_count st1)) as [Hx1|Hx1]; [|apply Hnew'; lia].
      replace x with (Z.of_nat (Z.to_nat (x - 1)) + 1) by lia. rewrite Hold' by lia.
      rewrite degree_absent; [|intros c' Hc'; destruct (Hl' c' Hc'); lia].
      replace (Z.of_nat (Z.to_nat (x - 1)) + 1) with x by lia. rewrite Hnew by lia. lia.
Qed.

(** X19. When a build returns, every atom of its atom list that belongs
    to a cell is an endpoint of as many bonds of the bond list as its
    [bonds] counter says, and every filler atom is an endpoint of exactly
    two. *)
Theorem build_bond_ends size pts conns cell_dims dangling symmetric prune st :
  exec (build_lists size pts conns cell_dims dangling symmetric prune) empty_lattice
  = Ok tt st →
  ∀ a, a ∈ atoms st →
       bond_ends (id a) (full_bond_list st)
       = match owning_cell a with Some _ => bonds a | None => 2 end.
Proof.
  intros Hex. apply build_lists_stages in Hex as (st2 & st3 & H2 & H3 & H4).
  destruct (build_lists_before_chains _ _ _ _ _ _ _ _ _ H2 H3) as (Hg & Hp & Hl).
  assert (numbered st3) as Hn3.
  { eapply numbered_updates; [apply numbered_empty|].
    etrans; [eapply rtc_subrel; [apply update_grow|exact Hg]|].
    destruct prune; [|injection H3 as <-; done].
    eapply rtc_subrel; [apply update_prune|]. by apply by_prune_vectors in H3. }
  assert (owned st3) as [_ Ho3].
  { eapply owned_pruned; [|exact Hp]. eapply owned_grows; [|exact Hg].
    split; [constructor|]. intros r Hr. by apply elem_of_nil in Hr. }
  assert (full_bond_list st3 = []) as Hb3.
  { rewrite (pruned_bond_list _ _ Hp). by apply grow_updates_bond_list in Hg as [-> _]. }
  pose proof (linked_valid st3 Hl) as Hv.
  pose proof H4 as Hc. unfold populate_vectors in Hc. rewrite exec_bind, exec_get in Hc.
  apply bond_ends_populate_pairs in Hc as (Hac & Hold & Hnew); [|done| |].
  2:{ intros b Hb. rewrite Hb3 in Hb. by apply elem_of_nil in Hb. }
  2:{ intros c Hc'. destruct (linked_refs st3 Hl c Hc') as [Ho Hpa].
      split; [eapply Forall_forall in Ho|eapply Forall_forall in Hpa]; try exact Hv; done. }
  apply by_populate_vectors, chained_updates in H4
    as (f & b & Hh & Hf & Hids & Hfl & Hcount & _).
  rewrite (atoms_chained st3 st f Hv Hh Hfl).
  intros a [(r & -> & Hr)%list_elem_of_fmap|Ha]%elem_of_app.
  - eapply Forall_forall in Hv; [|exact Hr]. simpl in Hv.
    rewrite (numbered_ids _ Hn3 r Hv), Hold by done. rewrite Hb3.
    specialize (Ho3 r Hr). unfold unowned in Ho3.
    destruct (owning_cell (deref st3 r)); [|done].
    rewrite (linked_degree st3 Hl r Hr). unfold bond_ends; simpl. lia.
  - eapply Forall_forall in Hf as Hfa; [|exact Ha]. destruct Hfa as (_ & -> & _).
    apply Hnew. assert (id a ∈ id <$> f) as Hin by (by apply list_elem_of_fmap_2).
    rewrite Hids in Hin. apply elem_of_count_from in Hin. lia.
Qed.

Lemma build_bond_ends_witness :
  ∃ st,
    exec (build_lists (2, 1, 1) scenario_points scenario_connections (4, 4, 4)%float
            false true false) empty_lattice = Ok tt st
    ∧ ∀ a, a ∈ atoms st →
           bond_ends (id a) (full_bond_list st)
           = match owning_cell a with Some _ => bonds a | None => 2 end.
Proof.
  eexists. split; [vm_compute; reflexivity|].
  apply (build_bond_ends (2, 1, 1) scenario_points scenario_connections (4, 4, 4)%float
           false true false).
  vm_compute. reflexivity.
Defined.
